(** * CRTZ: a shallow embedding of the dialogue-script interpreter

    The development follows [crtz_lang.cpp], in the variant that has
    boolean variables, [show], [if ... else] and the debugger hook.  It
    embeds, in the order of the source, the character classes of <cctype>
    and the [std::string] operations the interpreter uses, the expression
    engine ([tokenizeExpr], [infixToRPN], [evalRPN]), the lexer, the program
    model, the parser, the execution of method bodies
    ([executeActionsWithContext], [executeMethod]), the run loop
    ([runProgram]) and the debugger, and the helpers of crtz_bytecode.hpp;
    the properties follow.

    Conventions.
    - [std::string] is [string]; an index into a string is a [nat];
      [string::npos] is [None].
    - [int] and [long long] are [Z] with the wrap-around written out
      ([to_int], [to_ll]).
    - [std::unordered_map<string, V>] is [gmap string V].
    - A C++ exception that nothing catches is a result of its own
      ([Raise], [PRaise], [Throw], [Crashed]).
    - What goes to [cout] and [cerr] is a list of events; what comes from
      [cin] is a list of read results.
    - Loops that the source bounds by its input are given fuel. *)

From Stdlib Require Import ZArith String Ascii List Lia Bool.
From stdpp Require Import gmap strings pretty.
Import ListNotations.

Open Scope string_scope.
Open Scope list_scope.

(** ** Characters (<cctype>, "C" locale) *)

Definition char_in (lo hi c : ascii) : bool :=
  ((lo <=? c) && (c <=? hi))%char.

Definition isspace (c : ascii) : bool :=
  (c =? " ")%char || char_in "009" "013" c.

Definition isdigit (c : ascii) : bool := char_in "0" "9" c.

Definition isalpha (c : ascii) : bool :=
  char_in "A" "Z" c || char_in "a" "z" c.

Definition isalnum (c : ascii) : bool := isalpha c || isdigit c.

(** ** Strings *)

(** [s.size()] *)
Definition size (s : string) : nat := String.length s.

(** [s.substr(n)], for [n <= s.size()]. *)
Fixpoint drop_str (n : nat) (s : string) : string :=
  match n, s with
  | S n', String _ s' => drop_str n' s'
  | _, _ => s
  end.

(** [s.substr(0, n)] *)
Fixpoint take_str (n : nat) (s : string) : string :=
  match n, s with
  | S n', String c s' => String c (take_str n' s')
  | _, _ => ""
  end.

(** [s.substr(pos, len)], for [pos <= s.size()]. *)
Definition substr (pos len : nat) (s : string) : string :=
  take_str len (drop_str pos s).

(** [s.rfind(p, 0) == 0]: [s] starts with [p]. *)
Fixpoint starts_with (p s : string) : bool :=
  match p, s with
  | "", _ => true
  | String a p', String b s' => (a =? b)%char && starts_with p' s'
  | String _ _, "" => false
  end.

(** [s.find(pat)] *)
Fixpoint find_str (pat s : string) : option nat :=
  if starts_with pat s then Some 0
  else match s with
       | "" => None
       | String _ s' => S <$> find_str pat s'
       end.

(** [s.find(pat, pos)], for [pos <= s.size()]. *)
Definition find_from (pat : string) (pos : nat) (s : string) : option nat :=
  (fun i => pos + i) <$> find_str pat (drop_str pos s).

(** [s.find(c)] *)
Fixpoint find_char (c : ascii) (s : string) : option nat :=
  match s with
  | "" => None
  | String a s' => if (a =? c)%char then Some 0 else S <$> find_char c s'
  end.

(** [s.rfind(c)] *)
Fixpoint rfind_char (c : ascii) (s : string) : option nat :=
  match s with
  | "" => None
  | String a s' =>
      match rfind_char c s' with
      | Some i => Some (S i)
      | None => if (a =? c)%char then Some 0 else None
      end
  end.

(** The longest prefix of [s] whose characters satisfy [p], and the rest. *)
Fixpoint span_str (p : ascii -> bool) (s : string) : string * string :=
  match s with
  | "" => ("", "")
  | String c s' =>
      if p c then let '(a, b) := span_str p s' in (String c a, b)
      else ("", s)
  end.

Definition rev_str (s : string) : string :=
  string_of_list_ascii (rev (list_ascii_of_string s)).

(** [trim] of crtz_lang.hpp: leading and trailing white space removed. *)
Definition trim (s : string) : string :=
  let s1 := snd (span_str isspace s) in
  rev_str (snd (span_str isspace (rev_str s1))).

Definition front (s : string) : ascii :=
  match s with String c _ => c | "" => "000"%char end.

Definition back (s : string) : ascii := front (rev_str s).

(** [s] between double quotes. *)
Definition dq (s : string) : string :=
  String "034"%char s +:+ String "034"%char "".

(** ** Machine integers *)

Definition wrap (bits z : Z) : Z :=
  ((z + 2 ^ (bits - 1)) mod 2 ^ bits - 2 ^ (bits - 1))%Z.

(** Conversion to [int] (32 bits) and to [long long] (64 bits).  Signed
    overflow of [long long] arithmetic is undefined in C++; for sums,
    differences and products the model takes the two's complement result.
    The quotient of the least [long long] by -1 is another matter: the
    division instruction traps and the process is killed ([DivisionTrap]
    below).  The properties that speak of values are stated for values
    inside the range. *)
Definition to_int : Z -> Z := wrap 32.
Definition to_ll : Z -> Z := wrap 64.

Definition is_int (z : Z) : Prop := (- 2 ^ 31 <= z < 2 ^ 31)%Z.

Definition in_ll (z : Z) : bool :=
  ((- 2 ^ 63 <=? z) && (z <? 2 ^ 63))%Z.
Definition in_int (z : Z) : bool :=
  ((- 2 ^ 31 <=? z) && (z <? 2 ^ 31))%Z.

(** What ends a computation of the interpreter before its time: the two
    exceptions of the standard library that it can meet, and the signal
    (SIGFPE) of a division whose quotient does not fit.  The signal is no
    exception: no handler catches it.  The handlers of the source are
    around [std::stoi] only, which does not divide. *)
Inductive exn := OutOfRange | InvalidArgument | DivisionTrap.

Inductive result (A : Type) :=
| Ok (a : A)
| Raise (e : exn).
Arguments Ok {A} a.
Arguments Raise {A} e.

Definition digit_val (c : ascii) : Z :=
  (Z.of_nat (nat_of_ascii c) - 48)%Z.

(** Value of a string of decimal digits, most significant first. *)
Fixpoint digits_val (acc : Z) (s : string) : Z :=
  match s with
  | "" => acc
  | String c s' => digits_val (10 * acc + digit_val c)%Z s'
  end.

(** The number a [strtol]-family function reads at the start of [s]: an
    optional sign and the longest run of digits; [None] when there is no
    digit. *)
Definition read_number (s : string) : option Z :=
  let '(neg, body) :=
    match s with
    | String "-" r => (true, r)
    | String "+" r => (false, r)
    | _ => (false, s)
    end in
  let ds := fst (span_str isdigit body) in
  match ds with
  | "" => None
  | _ => Some (if neg then (- digits_val 0 ds)%Z else digits_val 0 ds)
  end.

(** [std::stoll]: throws [invalid_argument] when no digit can be read and
    [out_of_range] when the value does not fit a [long long]. *)
Definition stoll (s : string) : result Z :=
  match read_number s with
  | None => Raise InvalidArgument
  | Some z => if in_ll z then Ok z else Raise OutOfRange
  end.

(** [std::stoi], same for [int]. *)
Definition stoi (s : string) : result Z :=
  match read_number s with
  | None => Raise InvalidArgument
  | Some z => if in_int z then Ok z else Raise OutOfRange
  end.

(** ** Expression engine *)

Definition precedence (op : string) : nat :=
  if (op =? "==") || (op =? "!=") || (op =? "<") || (op =? "<=")
     || (op =? ">") || (op =? ">=") then 1
  else if (op =? "+") || (op =? "-") then 2
  else if (op =? "*") || (op =? "/") then 3
  else 0.

Definition isOperator (s : string) : bool :=
  (s =? "+") || (s =? "-") || (s =? "*") || (s =? "/") || (s =? "==")
  || (s =? "!=") || (s =? "<") || (s =? "<=") || (s =? ">") || (s =? ">=").

(** The inner loop of the operator case of [infixToRPN]: while the stack
    top is an operator that binds at least as tightly as [t], move it to
    the output.  The head of [st] is [st.back()]. *)
Fixpoint pop_ops (t : string) (out st : list string)
  : list string * list string :=
  match st with
  | top :: st' =>
      if isOperator top && (precedence t <=? precedence top)%nat
      then pop_ops t (out ++ [top]) st'
      else (out, st)
  | [] => (out, st)
  end.

(** The loop of the [")"] case: pop to the output until ["("]; the ["("]
    itself is dropped. *)
Fixpoint pop_until_paren (out st : list string)
  : list string * list string :=
  match st with
  | top :: st' =>
      if top =? "(" then (out, st')
      else pop_until_paren (out ++ [top]) st'
  | [] => (out, [])
  end.

Fixpoint infixToRPN_loop (tokens out st : list string) : list string :=
  match tokens with
  | [] => out ++ st
  | t :: rest =>
      if t =? "" then infixToRPN_loop rest out st
      else if isOperator t then
        let '(out', st') := pop_ops t out st in
        infixToRPN_loop rest out' (t :: st')
      else if t =? "(" then infixToRPN_loop rest out (t :: st)
      else if t =? ")" then
        let '(out', st') := pop_until_paren out st in
        infixToRPN_loop rest out' st'
      else infixToRPN_loop rest (out ++ [t]) st
  end.

(** The final loop of the source pops the whole stack to the output, which
    is [out ++ st] with the stack kept top first. *)
Definition infixToRPN (tokens : list string) : list string :=
  infixToRPN_loop tokens [] [].

Definition splitDot (s : string) : string * string :=
  match find_char "." s with
  | None => (s, "")
  | Some pos => (take_str pos s, drop_str (S pos) s)
  end.

Definition b2z (b : bool) : Z := if b then 1%Z else 0%Z.

(** One operator applied to [a] and [b] ([b] was on top), in [long long].
    Only [b == 0] is guarded in front of [a / b]: the least [long long]
    divided by -1 reaches the division and traps. *)
Definition applyOp (t : string) (a b : Z) : result Z :=
  if t =? "+" then Ok (to_ll (a + b))
  else if t =? "-" then Ok (to_ll (a - b))
  else if t =? "*" then Ok (to_ll (a * b))
  else if t =? "/" then
    (if (b =? 0)%Z then Ok 0%Z
     else if (a =? - 2 ^ 63)%Z && (b =? -1)%Z then Raise DivisionTrap
     else Ok (to_ll (Z.quot a b)))
  else if t =? "==" then Ok (b2z (a =? b)%Z)
  else if t =? "!=" then Ok (b2z (negb (a =? b)%Z))
  else if t =? "<" then Ok (b2z (a <? b)%Z)
  else if t =? "<=" then Ok (b2z (a <=? b)%Z)
  else if t =? ">" then Ok (b2z (a >? b)%Z)
  else if t =? ">=" then Ok (b2z (a >=? b)%Z)
  else Ok 0%Z.

(** The test in front of [stoll]: a digit, or a sign followed by a digit. *)
Definition looksNumeric (t : string) : bool :=
  match t with
  | String c0 r =>
      isdigit c0
      || (((c0 =? "-")%char || (c0 =? "+")%char)
          && match r with String c1 _ => isdigit c1 | "" => false end)
  | "" => false
  end.

Section Env.
(** The three tables an expression is evaluated against. *)
Variable vars : gmap string Z.
Variable boolVars : gmap string bool.
Variable objects : gmap string (gmap string Z).

(** [objects.count(inst) && objects[inst].count(field)], then the
    value; 0 otherwise. *)
Definition fieldValue (inst field : string) : Z :=
  match objects !! inst with
  | Some fs => match fs !! field with Some v => v | None => 0%Z end
  | None => 0%Z
  end.

(** A bare name: the boolean table first, then the integer table. *)
Definition varValue (t : string) : Z :=
  match boolVars !! t with
  | Some b => b2z b
  | None => match vars !! t with Some v => v | None => 0%Z end
  end.

(** The value pushed for a token that is not an operator. *)
Definition operandValue (t : string) : result Z :=
  if looksNumeric t then stoll t
  else if t =? "true" then Ok 1%Z
  else if t =? "false" then Ok 0%Z
  else
    let '(inst, field) := splitDot t in
    if negb (field =? "") then Ok (fieldValue inst field)
    else Ok (varValue t).

(** The loop of [evalRPN]; the head of [st] is [st.back()]. *)
Fixpoint evalRPN_loop (rpn : list string) (st : list Z) : result Z :=
  match rpn with
  | [] => Ok (match st with [] => 0%Z | x :: _ => to_int x end)
  | t :: rest =>
      if isOperator t then
        match st with
        | b :: a :: st' =>
            match applyOp t a b with
            | Ok r => evalRPN_loop rest (r :: st')
            | Raise e => Raise e
            end
        | _ => Ok 0%Z
        end
      else
        match operandValue t with
        | Ok v => evalRPN_loop rest (v :: st)
        | Raise e => Raise e
        end
  end.

Definition evalRPN (rpn : list string) : result Z := evalRPN_loop rpn [].
End Env.

(** [strchr("+-*/()<>", c)]: also true of the terminating NUL. *)
Definition isSymbolChar (c : ascii) : bool :=
  (c =? "+")%char || (c =? "-")%char || (c =? "*")%char || (c =? "/")%char
  || (c =? "(")%char || (c =? ")")%char || (c =? "<")%char
  || (c =? ">")%char || (c =? "000")%char.

Definition isTwoCharOp (two : string) : bool :=
  (two =? "<=") || (two =? ">=") || (two =? "==") || (two =? "!=").

Definition isIdentStart (c : ascii) : bool := isalpha c || (c =? "_")%char.
Definition isIdentChar (c : ascii) : bool :=
  isalnum c || (c =? "_")%char || (c =? ".")%char.

(** The loop of [tokenizeExpr] on the text from index [i] on.  Every round
    consumes a character, so [size s] rounds are enough. *)
Fixpoint tokenizeExpr_loop (fuel : nat) (s : string) : list string :=
  match fuel, s with
  | S fuel', String c s' =>
      if isspace c then tokenizeExpr_loop fuel' s'
      else if (2 <=? size s)%nat && isTwoCharOp (take_str 2 s)
      then take_str 2 s :: tokenizeExpr_loop fuel' (drop_str 2 s)
      else if isSymbolChar c then String c "" :: tokenizeExpr_loop fuel' s'
      else if isdigit c
              || (((c =? "-")%char || (c =? "+")%char)
                  && match s' with String c1 _ => isdigit c1 | "" => false end)
      then
        let '(ds, r) := span_str isdigit s' in
        String c ds :: tokenizeExpr_loop fuel' r
      else if isIdentStart c then
        let '(w, r) := span_str isIdentChar s' in
        String c w :: tokenizeExpr_loop fuel' r
      else tokenizeExpr_loop fuel' s'
  | _, _ => []
  end.

Definition tokenizeExpr (s : string) : list string :=
  tokenizeExpr_loop (size s) s.

Definition evalExpressionString (expr : string)
    (vars : gmap string Z) (boolVars : gmap string bool)
    (objects : gmap string (gmap string Z)) : result Z :=
  evalRPN vars boolVars objects (infixToRPN (tokenizeExpr expr)).

(** ** Lexer *)

Inductive TokenKind :=
| TK_EOF | TK_IDENT | TK_NUMBER | TK_STRING | TK_SYM | TK_STRING_DEC
| TK_TRUE | TK_FALSE | TK_PICTURE | TK_LOAD.

Definition TokenKind_eqb (a b : TokenKind) : bool :=
  match a, b with
  | TK_EOF, TK_EOF | TK_IDENT, TK_IDENT | TK_NUMBER, TK_NUMBER
  | TK_STRING, TK_STRING | TK_SYM, TK_SYM | TK_STRING_DEC, TK_STRING_DEC
  | TK_TRUE, TK_TRUE | TK_FALSE, TK_FALSE | TK_PICTURE, TK_PICTURE
  | TK_LOAD, TK_LOAD => true
  | _, _ => false
  end.

Record Token := mkToken {
  tok_kind : TokenKind;
  tok_text : string;
  tok_number : Z;
  tok_line : nat
}.

(** The lexer keeps the source and an index [i]; the model keeps the text
    from [i] on, [lx_rest = src.substr(i)]. *)
Record Lexer := mkLexer { lx_rest : string; lx_line : nat }.

Definition NUL : ascii := "000"%char.
Definition LF : ascii := "010"%char.
Definition DQUOTE : ascii := "034"%char.
Definition SQUOTE : ascii := "039"%char.
Definition BACKSLASH : ascii := "092"%char.

Definition nl : string := String LF "".

(** The line counter after [get()] returned [c]. *)
Definition bump (c : ascii) (line : nat) : nat :=
  if (c =? LF)%char then S line else line.

Fixpoint skipSpace (s : string) (line : nat) : string * nat :=
  match s with
  | String c s' => if isspace c then skipSpace s' (bump c line) else (s, line)
  | "" => (s, line)
  end.

(** [while (peek() && peek() != '\n') get();] *)
Fixpoint skipLine (s : string) : string :=
  match s with
  | String c s' =>
      if (c =? NUL)%char || (c =? LF)%char then s else skipLine s'
  | "" => s
  end.

Definition unescape (esc : ascii) : ascii :=
  if (esc =? "n")%char then LF else esc.

(** The body of a double-quoted literal, after the opening quote: the text,
    the rest of the input and the line counter. *)
Fixpoint lexDouble (s : string) (line : nat) : string * string * nat :=
  match s with
  | "" => ("", "", line)
  | String c s' =>
      if (c =? NUL)%char then ("", s, line)
      else if (c =? DQUOTE)%char then ("", s', line)
      else if (c =? BACKSLASH)%char then
        match s' with
        | String e s'' =>
            if (e =? NUL)%char then
              let '(out, r, l) := lexDouble s' line in (String c out, r, l)
            else
              let '(out, r, l) := lexDouble s'' (bump e line) in
              (String (unescape e) out, r, l)
        | "" => (String c "", "", line)
        end
      else
        let '(out, r, l) := lexDouble s' (bump c line) in (String c out, r, l)
  end.

(** The body of a single-quoted literal; the closing quote is consumed by
    the caller. *)
Fixpoint lexSingle (s : string) (line : nat) : string * string * nat :=
  match s with
  | "" => ("", "", line)
  | String c s' =>
      if (c =? NUL)%char || (c =? SQUOTE)%char then ("", s, line)
      else if (c =? BACKSLASH)%char then
        match s' with
        | String e s'' =>
            if (e =? NUL)%char then
              let '(out, r, l) := lexSingle s' line in (String c out, r, l)
            else
              let '(out, r, l) := lexSingle s'' (bump e line) in
              (String (unescape e) out, r, l)
        | "" => (String c "", "", line)
        end
      else
        let '(out, r, l) := lexSingle s' (bump c line) in (String c out, r, l)
  end.

Definition keywordKind (id : string) : TokenKind :=
  if id =? "true" then TK_TRUE
  else if id =? "false" then TK_FALSE
  else if id =? "picture" then TK_PICTURE
  else if id =? "load" then TK_LOAD
  else TK_IDENT.

Definition isLexTwoChar (two : string) : bool :=
  (two =? "<=") || (two =? ">=") || (two =? "==") || (two =? "!=")
  || (two =? "->").

(** [try { t.number = stoi(num); } catch (...) { t.number = 0; }] *)
Definition numberOf (num : string) : Z :=
  match stoi num with Ok z => z | Raise _ => 0%Z end.

(** [Lexer::next].  The only recursive call follows a comment, which is
    at least two characters long, so [size src + 1] rounds are enough. *)
Fixpoint next_fuel (fuel : nat) (lx : Lexer) : Token * Lexer :=
  let '(s, line) := skipSpace (lx_rest lx) (lx_line lx) in
  match s with
  | "" => (mkToken TK_EOF "" 0 line, mkLexer s line)
  | String c s' =>
      if starts_with "//" s then
        match fuel with
        | S fuel' => next_fuel fuel' (mkLexer (skipLine s) line)
        | 0 => (mkToken TK_EOF "" 0 line, mkLexer s line)
        end
      else if (c =? DQUOTE)%char then
        let '(out, r, l) := lexDouble s' line in
        (mkToken TK_STRING out 0 l, mkLexer r l)
      else if isalpha c || (c =? "_")%char then
        let '(id, r) := span_str isIdentChar s in
        (mkToken (keywordKind id) id 0 line, mkLexer r line)
      else if isdigit c
              || ((c =? "-")%char
                  && match s' with String c1 _ => isdigit c1 | "" => false end)
      then
        let '(sign, body) :=
          if (c =? "-")%char then ("-", s') else ("", s) in
        let '(ds, r) := span_str isdigit body in
        let num := sign +:+ ds in
        (mkToken TK_NUMBER num (numberOf num) line, mkLexer r line)
      else if (c =? SQUOTE)%char then
        let '(out, r, l) := lexSingle s' line in
        let r' := match r with
                  | String q r1 => if (q =? SQUOTE)%char then r1 else r
                  | "" => r
                  end in
        (mkToken TK_STRING_DEC out 0 l, mkLexer r' l)
      else if isLexTwoChar (take_str 2 s) then
        (mkToken TK_SYM (take_str 2 s) 0 line, mkLexer (drop_str 2 s) line)
      else
        (mkToken TK_SYM (String c "") 0 (bump c line), mkLexer s' (bump c line))
  end.

Definition next (lx : Lexer) : Token * Lexer :=
  next_fuel (S (size (lx_rest lx))) lx.

(** All the tokens of a text, for inspection. *)
Fixpoint lexAll (fuel : nat) (lx : Lexer) : list Token :=
  match fuel with
  | 0 => []
  | S fuel' =>
      let '(t, lx') := next lx in
      match tok_kind t with
      | TK_EOF => []
      | _ => t :: lexAll fuel' lx'
      end
  end.

(** ** Program model *)

Record Choice := mkChoice {
  ch_id : Z;
  ch_text : string;
  ch_target : string
}.

Record Node := mkNode {
  n_name : string;
  n_text : string;
  n_choices : list Choice;
  n_actions : list string;
  n_definitionLine : nat
}.

Record ClassDef := mkClassDef {
  c_name : string;
  c_fields : gmap string Z;
  c_methods : gmap string (list string);
  c_methodParams : gmap string (list string)
}.

Record Room := mkRoom {
  r_name : string;
  r_description : string;
  r_exits : gmap string string;
  r_items : list string;
  r_npcs : list string
}.

Record Program := mkProgram {
  p_npc : string;
  p_desc : string;
  p_vars : gmap string Z;
  p_boolVars : gmap string bool;
  p_stringVars : gmap string string;
  p_nodes : gmap string Node;
  p_entry : string;
  p_classes : gmap string ClassDef;
  p_objects : gmap string (gmap string Z);
  p_instanceClass : gmap string string;
  p_rooms : gmap string Room;
  p_currentRoom : string
}.

Definition emptyProgram : Program :=
  mkProgram "" "" ∅ ∅ ∅ ∅ "" ∅ ∅ ∅ ∅ "".

Definition set_npc (v : string) (p : Program) : Program :=
  mkProgram v (p_desc p) (p_vars p) (p_boolVars p) (p_stringVars p)
    (p_nodes p) (p_entry p) (p_classes p) (p_objects p) (p_instanceClass p)
    (p_rooms p) (p_currentRoom p).
Definition set_desc (v : string) (p : Program) : Program :=
  mkProgram (p_npc p) v (p_vars p) (p_boolVars p) (p_stringVars p)
    (p_nodes p) (p_entry p) (p_classes p) (p_objects p) (p_instanceClass p)
    (p_rooms p) (p_currentRoom p).
Definition set_vars (v : gmap string Z) (p : Program) : Program :=
  mkProgram (p_npc p) (p_desc p) v (p_boolVars p) (p_stringVars p)
    (p_nodes p) (p_entry p) (p_classes p) (p_objects p) (p_instanceClass p)
    (p_rooms p) (p_currentRoom p).
Definition set_boolVars (v : gmap string bool) (p : Program) : Program :=
  mkProgram (p_npc p) (p_desc p) (p_vars p) v (p_stringVars p)
    (p_nodes p) (p_entry p) (p_classes p) (p_objects p) (p_instanceClass p)
    (p_rooms p) (p_currentRoom p).
Definition set_stringVars (v : gmap string string) (p : Program) : Program :=
  mkProgram (p_npc p) (p_desc p) (p_vars p) (p_boolVars p) v
    (p_nodes p) (p_entry p) (p_classes p) (p_objects p) (p_instanceClass p)
    (p_rooms p) (p_currentRoom p).
Definition set_nodes (v : gmap string Node) (p : Program) : Program :=
  mkProgram (p_npc p) (p_desc p) (p_vars p) (p_boolVars p) (p_stringVars p)
    v (p_entry p) (p_classes p) (p_objects p) (p_instanceClass p)
    (p_rooms p) (p_currentRoom p).
Definition set_entry (v : string) (p : Program) : Program :=
  mkProgram (p_npc p) (p_desc p) (p_vars p) (p_boolVars p) (p_stringVars p)
    (p_nodes p) v (p_classes p) (p_objects p) (p_instanceClass p)
    (p_rooms p) (p_currentRoom p).
Definition set_classes (v : gmap string ClassDef) (p : Program) : Program :=
  mkProgram (p_npc p) (p_desc p) (p_vars p) (p_boolVars p) (p_stringVars p)
    (p_nodes p) (p_entry p) v (p_objects p) (p_instanceClass p)
    (p_rooms p) (p_currentRoom p).
Definition set_objects (v : gmap string (gmap string Z)) (p : Program)
  : Program :=
  mkProgram (p_npc p) (p_desc p) (p_vars p) (p_boolVars p) (p_stringVars p)
    (p_nodes p) (p_entry p) (p_classes p) v (p_instanceClass p)
    (p_rooms p) (p_currentRoom p).
Definition set_instanceClass (v : gmap string string) (p : Program)
  : Program :=
  mkProgram (p_npc p) (p_desc p) (p_vars p) (p_boolVars p) (p_stringVars p)
    (p_nodes p) (p_entry p) (p_classes p) (p_objects p) v
    (p_rooms p) (p_currentRoom p).
Definition set_rooms (v : gmap string Room) (p : Program) : Program :=
  mkProgram (p_npc p) (p_desc p) (p_vars p) (p_boolVars p) (p_stringVars p)
    (p_nodes p) (p_entry p) (p_classes p) (p_objects p) (p_instanceClass p)
    v (p_currentRoom p).
Definition set_currentRoom (v : string) (p : Program) : Program :=
  mkProgram (p_npc p) (p_desc p) (p_vars p) (p_boolVars p) (p_stringVars p)
    (p_nodes p) (p_entry p) (p_classes p) (p_objects p) (p_instanceClass p)
    (p_rooms p) v.

(** [objects[inst][field] = val]: [operator[]] creates the object entry
    when there is none. *)
Definition storeField (inst field : string) (val : Z)
    (objects : gmap string (gmap string Z)) : gmap string (gmap string Z) :=
  <[inst := <[field := val]> (default ∅ (objects !! inst))]> objects.

(** [new Class inst]: the instance gets a copy of the class's default
    fields and its class binding; nothing happens for an unknown class. *)
Definition instantiate (className instName : string) (p : Program)
  : option Program :=
  match p_classes p !! className with
  | Some cdef =>
      Some (set_instanceClass (<[instName := className]> (p_instanceClass p))
              (set_objects (<[instName := c_fields cdef]> (p_objects p)) p))
  | None => None
  end.

(** ** Parser

    [class Parser] holds the lexer, the current token and the program under
    construction; its methods become computations in a state monad over
    [PState].  A computation may stop on an exception ([std::stoll] inside an
    initialiser is not guarded) or run out of fuel; every loop of the parser
    consumes a token per round, so fuel beyond the length of the source is
    never used up.  Diagnostics written to [cerr] are collected in
    [ps_cerr]. *)

Record PState := mkPState {
  ps_lex : Lexer;
  ps_tk : Token;
  ps_prog : Program;
  ps_cerr : list string
}.

Inductive presult (A : Type) :=
| POk (a : A) (p : PState)
| PRaise (e : exn)
| PStuck.
Arguments POk {A} a p.
Arguments PRaise {A} e.
Arguments PStuck {A}.

Definition P (A : Type) : Type := PState -> presult A.

#[local] Instance P_ret : MRet P := fun A a p => POk a p.
#[local] Instance P_bind : MBind P := fun A B f m p =>
  match m p with
  | POk a p' => f a p'
  | PRaise e => PRaise e
  | PStuck => PStuck
  end.

Module Parser.

Definition stuck {A} : P A := fun _ => PStuck.
Definition raise {A} (e : exn) : P A := fun _ => PRaise e.

Definition peek : P Token := fun p => POk (ps_tk p) p.

Definition consume : P Token := fun p =>
  let '(t, lx) := next (ps_lex p) in
  POk (ps_tk p) (mkPState lx t (ps_prog p) (ps_cerr p)).

Definition getProgram : P Program := fun p => POk (ps_prog p) p.

Definition modify (f : Program -> Program) : P unit := fun p =>
  POk tt (mkPState (ps_lex p) (ps_tk p) (f (ps_prog p)) (ps_cerr p)).

(** [cerr << "Error at line " << tk.line << ": " << msg] *)
Definition error (msg : string) : P unit := fun p =>
  POk tt (mkPState (ps_lex p) (ps_tk p) (ps_prog p)
            (ps_cerr p ++
             ["Error at line " +:+ pretty (tok_line (ps_tk p)) +:+ ": "
              +:+ msg +:+ nl])).

Definition isKind (k : TokenKind) (t : Token) : bool :=
  TokenKind_eqb (tok_kind t) k.

Definition isSym (s : string) (t : Token) : bool :=
  isKind TK_SYM t && (tok_text t =? s).

Definition isIdent (s : string) (t : Token) : bool :=
  isKind TK_IDENT t && (tok_text t =? s).

Definition expectSym (s : string) : P bool :=
  tk ← peek;
  if isSym s tk then consume;; mret true
  else
    error ("Expected symbol '" +:+ s +:+ "' but got '" +:+ tok_text tk
           +:+ "'");;
    mret false.

(** [while (!(tk is one of stops) && tk.kind != TK_EOF)
       { acc += tk.text; consume(); }] *)
Fixpoint gather (fuel : nat) (stops : list string) (acc : string)
  : P string :=
  match fuel with
  | 0 => stuck
  | S fuel' =>
      tk ← peek;
      if existsb (fun s => isSym s tk) stops || isKind TK_EOF tk
      then mret acc
      else consume;; gather fuel' stops (acc +:+ tok_text tk)
  end.

Definition evalInit (expr : string) : P Z :=
  prog ← getProgram;
  match evalRPN (p_vars prog) (p_boolVars prog) ∅
          (infixToRPN (tokenizeExpr expr)) with
  | Ok v => mret v
  | Raise e => raise e
  end.

Definition parseNpc : P unit :=
  consume;;
  tk ← peek;
  if isKind TK_STRING tk then
    modify (set_npc (tok_text tk));; consume;; expectSym ";";; mret tt
  else error "npc requires string".

Definition parseDesc : P unit :=
  consume;;
  tk ← peek;
  if isKind TK_STRING tk then
    modify (set_desc (tok_text tk));; consume;; expectSym ";";; mret tt
  else error "desc requires string".

Definition parseVarDecl (fuel : nat) : P unit :=
  t0 ← peek;
  let type := tok_text t0 in
  consume;;
  tk ← peek;
  if isKind TK_IDENT tk then
    let name := tok_text tk in
    consume;;
    tk ← peek;
    if isSym "=" tk then
      consume;;
      tk ← peek;
      if type =? "string" then
        if isKind TK_STRING_DEC tk || isKind TK_STRING tk then
          consume;; expectSym ";";;
          modify (fun p =>
            set_stringVars (<[name := tok_text tk]> (p_stringVars p)) p)
        else error "String variable requires string literal"
      else if type =? "match" then
        if isKind TK_TRUE tk || isKind TK_FALSE tk then
          consume;; expectSym ";";;
          modify (fun p =>
            set_boolVars (<[name := isKind TK_TRUE tk]> (p_boolVars p)) p)
        else error "Boolean variable requires true or false"
      else
        expr ← gather fuel [";"] "";
        expectSym ";";;
        val ← evalInit expr;
        modify (fun p => set_vars (<[name := val]> (p_vars p)) p)
    else
      (if type =? "string" then
         modify (fun p => set_stringVars (<[name := ""]> (p_stringVars p)) p)
       else if type =? "match" then
         modify (fun p => set_boolVars (<[name := false]> (p_boolVars p)) p)
       else
         modify (fun p => set_vars (<[name := 0%Z]> (p_vars p)) p));;
      expectSym ";";; mret tt
  else error (type +:+ " expects identifier").

(** The parameter list of a method, up to [")"]. *)
Fixpoint parseParams (fuel : nat) (params : list string)
  : P (list string) :=
  match fuel with
  | 0 => stuck
  | S fuel' =>
      tk ← peek;
      if isSym ")" tk || isKind TK_EOF tk then mret params
      else if isKind TK_IDENT tk then
        consume;;
        tk' ← peek;
        (if isSym "," tk' then consume;; mret tt else mret tt);;
        parseParams fuel' (params ++ [tok_text tk])
      else consume;; parseParams fuel' params
  end.

(** The body of a method: every statement, up to its [";"], is kept as
    the concatenation of its token texts behind the tag ["STMT "]. *)
Fixpoint parseMethodBody (fuel : nat) (methodActions : list string)
  : P (list string) :=
  match fuel with
  | 0 => stuck
  | S fuel' =>
      tk ← peek;
      if isSym "}" tk || isKind TK_EOF tk then mret methodActions
      else
        stmt ← gather fuel [";"; "}"] "";
        tk' ← peek;
        let s := trim stmt in
        let methodActions' :=
          if s =? "" then methodActions
          else methodActions ++ ["STMT " +:+ s] in
        if isSym ";" tk' then consume;; parseMethodBody fuel' methodActions'
        else parseMethodBody fuel' methodActions'
  end.

Definition addField (fname : string) (fval : Z) (c : ClassDef) : ClassDef :=
  mkClassDef (c_name c) (<[fname := fval]> (c_fields c)) (c_methods c)
    (c_methodParams c).

Definition addMethod (mname : string) (acts params : list string)
    (c : ClassDef) : ClassDef :=
  mkClassDef (c_name c) (c_fields c) (<[mname := acts]> (c_methods c))
    (<[mname := params]> (c_methodParams c)).

Fixpoint parseClassBody (fuel : nat) (cdef : ClassDef) : P ClassDef :=
  match fuel with
  | 0 => stuck
  | S fuel' =>
      tk ← peek;
      if isSym "}" tk || isKind TK_EOF tk then mret cdef
      else if isKind TK_IDENT tk then
        if tok_text tk =? "int" then
          consume;;
          tk ← peek;
          if isKind TK_IDENT tk then
            let fname := tok_text tk in
            consume;;
            tk ← peek;
            fval ← (if isSym "=" tk then
                      consume;;
                      expr ← gather fuel [";"] "";
                      expectSym ";";;
                      evalInit expr
                    else expectSym ";";; mret 0%Z);
            parseClassBody fuel' (addField fname fval cdef)
          else
            error "field expects identifier";; consume;;
            parseClassBody fuel' cdef
        else if tok_text tk =? "void" then
          consume;;
          tk ← peek;
          if negb (isKind TK_IDENT tk) then
            error "method expects a name";; parseClassBody fuel' cdef
          else
            let mname := tok_text tk in
            consume;;
            tk ← peek;
            (if negb (isSym "(" tk)
             then error "expected '(' after method name" else mret tt);;
            consume;;
            params ← parseParams fuel [];
            expectSym ")";;
            tk ← peek;
            if negb (isSym "{" tk) then
              error "expected '{' for method body";;
              parseClassBody fuel' cdef
            else
              consume;;
              methodActions ← parseMethodBody fuel [];
              expectSym "}";;
              parseClassBody fuel' (addMethod mname methodActions params cdef)
        else
          error ("Unknown class member: " +:+ tok_text tk);; consume;;
          parseClassBody fuel' cdef
      else consume;; parseClassBody fuel' cdef
  end.

Definition parseClass (fuel : nat) : P unit :=
  consume;;
  tk ← peek;
  if negb (isKind TK_IDENT tk) then error "class expects a name"
  else
    let className := tok_text tk in
    consume;;
    tk ← peek;
    if negb (isSym "{" tk) then error "expected '{' after class name"
    else
      consume;;
      cdef ← parseClassBody fuel (mkClassDef className ∅ ∅ ∅);
      expectSym "}";;
      modify (fun p => set_classes (<[className := cdef]> (p_classes p)) p).

Definition parseNewInstance : P unit :=
  consume;;
  tk ← peek;
  if negb (isKind TK_IDENT tk) then error "new expects class name"
  else
    let className := tok_text tk in
    consume;;
    tk ← peek;
    if negb (isKind TK_IDENT tk) then error "new expects instance name"
    else
      let instName := tok_text tk in
      consume;;
      expectSym ";";;
      prog ← getProgram;
      match instantiate className instName prog with
      | Some prog' => modify (fun _ => prog')
      | None => error ("Unknown class " +:+ className +:+ " for new")
      end.

Definition setText (v : string) (n : Node) : Node :=
  mkNode (n_name n) v (n_choices n) (n_actions n) (n_definitionLine n).
Definition addChoice (c : Choice) (n : Node) : Node :=
  mkNode (n_name n) (n_text n) (n_choices n ++ [c]) (n_actions n)
    (n_definitionLine n).
Definition addActions (acts : list string) (n : Node) : Node :=
  mkNode (n_name n) (n_text n) (n_choices n) (n_actions n ++ acts)
    (n_definitionLine n).

(** The strings after the first one of a [show]; the list ends at a comma
    that no string follows. *)
Fixpoint parseShowRest (fuel : nat) (showTexts : list string)
  : P (list string) :=
  match fuel with
  | 0 => stuck
  | S fuel' =>
      tk ← peek;
      if isSym "," tk then
        consume;;
        tk' ← peek;
        if isKind TK_STRING tk' then
          consume;; parseShowRest fuel' (showTexts ++ [tok_text tk'])
        else error "show expects string after comma";; mret showTexts
      else mret showTexts
  end.

Definition parseIf (fuel : nat) (node : Node) : P Node :=
  consume;;
  tk ← peek;
  (if negb (isSym "(" tk) then error "if requires (" else consume;; mret tt);;
  cond ← gather fuel [")"] "";
  expectSym ")";;
  tk ← peek;
  (if isIdent "goto" tk then consume;; mret tt
   else error "if expects goto");;
  tk ← peek;
  if isKind TK_IDENT tk then
    let target := tok_text tk in
    consume;;
    tk ← peek;
    elseTarget ←
      (if isIdent "else" tk then
         consume;;
         tk ← peek;
         (if isIdent "goto" tk then consume;; mret tt
          else error "else expects goto");;
         tk ← peek;
         if isKind TK_IDENT tk then consume;; mret (tok_text tk)
         else error "else goto target expected";; mret ""
       else mret "");
    expectSym ";";;
    mret (addActions
            ["IF " +:+ cond +:+ " GOTO " +:+ target +:+
             (if elseTarget =? "" then "" else " ELSE " +:+ elseTarget)]
            node)
  else error "goto target expected";; mret node.

Definition parseChoice (node : Node) : P Node :=
  consume;;
  tk ← peek;
  if isKind TK_NUMBER tk then
    let id := tok_number tk in
    consume;;
    expectSym ":";;
    tk ← peek;
    if isKind TK_STRING tk then
      let text := tok_text tk in
      consume;;
      tk ← peek;
      (if isSym "->" tk then consume;; mret tt
       else if isSym "-" tk then
         consume;;
         tk ← peek;
         if isSym "" tk then consume;; mret tt else mret tt
       else mret tt);;
      tk ← peek;
      if isKind TK_IDENT tk then
        consume;; expectSym ";";;
        mret (addChoice (mkChoice id text (tok_text tk)) node)
      else error "choice target expected";; mret node
    else error "choice text string expected";; mret node
  else error "choice id expected";; consume;; mret node.

Fixpoint parseNodeBody (fuel : nat) (node : Node) : P Node :=
  match fuel with
  | 0 => stuck
  | S fuel' =>
      tk ← peek;
      if isSym "}" tk || isKind TK_EOF tk then mret node
      else if isKind TK_IDENT tk then
        let kw := tok_text tk in
        node' ←
          (if kw =? "line" then
             consume;;
             tk ← peek;
             n1 ← (if isKind TK_STRING tk
                   then consume;; mret (setText (tok_text tk) node)
                   else mret node);
             expectSym ";";; mret n1
           else if kw =? "show" then
             consume;;
             tk ← peek;
             if isKind TK_STRING tk then
               consume;;
               showTexts ← parseShowRest fuel [tok_text tk];
               expectSym ";";;
               mret (addActions (map (fun t => "SHOW " +:+ t) showTexts)
                       node)
             else error "show requires string literal";; mret node
           else if kw =? "choice" then parseChoice node
           else if kw =? "set" then
             consume;;
             tk ← peek;
             name ← (if isKind TK_IDENT tk
                     then consume;; mret (tok_text tk)
                     else error "set expected identifier";; mret "");
             tk ← peek;
             (if isSym "=" tk then consume;; mret tt
              else error "expected '=' after set var");;
             expr ← gather fuel [";"] "";
             expectSym ";";;
             mret (addActions ["SET " +:+ name +:+ " " +:+ expr] node)
           else if kw =? "signal" then
             consume;;
             tk ← peek;
             if isKind TK_IDENT tk then
               let name := tok_text tk in
               consume;;
               tk ← peek;
               (if isSym "=" tk then consume;; mret tt else mret tt);;
               expr ← gather fuel [";"] "";
               expectSym ";";;
               mret (addActions ["SIGNAL " +:+ name +:+ " " +:+ expr] node)
             else error "signal name expected";; mret node
           else if kw =? "if" then parseIf fuel node
           else if kw =? "goto" then
             consume;;
             tk ← peek;
             if isKind TK_IDENT tk then
               consume;; expectSym ";";;
               mret (addActions ["GOTO " +:+ tok_text tk] node)
             else error "goto target expected";; mret node
           else if kw =? "end" then
             consume;; expectSym ";";; mret (addActions ["END"] node)
           else
             stmt ← gather fuel [";"] "";
             tk ← peek;
             (if isSym ";" tk then consume;; mret tt else mret tt);;
             let s := trim stmt in
             mret (if s =? "" then node
                   else addActions ["STMT " +:+ s] node));
        parseNodeBody fuel' node'
      else consume;; parseNodeBody fuel' node
  end.

Definition parseNode (fuel : nat) : P unit :=
  t0 ← peek;
  let nodeLine := tok_line t0 in
  consume;;
  tk ← peek;
  if isKind TK_IDENT tk then
    let nodename := tok_text tk in
    consume;;
    modify (fun p => if p_entry p =? "" then set_entry nodename p else p);;
    tk ← peek;
    if negb (isSym "{" tk) then error "expected '{' after node name"
    else
      consume;;
      node ← parseNodeBody fuel (mkNode nodename "" [] [] nodeLine);
      expectSym "}";;
      modify (fun p => set_nodes (<[nodename := node]> (p_nodes p)) p)
  else error "node expects name";; consume;; mret tt.

Definition setDescription (v : string) (r : Room) : Room :=
  mkRoom (r_name r) v (r_exits r) (r_items r) (r_npcs r).
Definition addExit (dir target : string) (r : Room) : Room :=
  mkRoom (r_name r) (r_description r) (<[dir := target]> (r_exits r))
    (r_items r) (r_npcs r).
Definition addItem (v : string) (r : Room) : Room :=
  mkRoom (r_name r) (r_description r) (r_exits r) (r_items r ++ [v])
    (r_npcs r).
Definition addNpc (v : string) (r : Room) : Room :=
  mkRoom (r_name r) (r_description r) (r_exits r) (r_items r)
    (r_npcs r ++ [v]).

Fixpoint parseRoomBody (fuel : nat) (room : Room) : P Room :=
  match fuel with
  | 0 => stuck
  | S fuel' =>
      tk ← peek;
      if isSym "}" tk || isKind TK_EOF tk then mret room
      else if isKind TK_IDENT tk then
        room' ←
          (if tok_text tk =? "desc" then
             consume;;
             tk ← peek;
             if isKind TK_STRING tk then
               consume;; expectSym ";";;
               mret (setDescription (tok_text tk) room)
             else mret room
           else if tok_text tk =? "exit" then
             consume;;
             tk ← peek;
             if isKind TK_IDENT tk then
               let dir := tok_text tk in
               consume;;
               tk ← peek;
               if isKind TK_IDENT tk then
                 consume;; expectSym ";";;
                 mret (addExit dir (tok_text tk) room)
               else mret room
             else mret room
           else if tok_text tk =? "item" then
             consume;;
             tk ← peek;
             if isKind TK_IDENT tk then
               consume;; expectSym ";";; mret (addItem (tok_text tk) room)
             else mret room
           else if tok_text tk =? "npc" then
             consume;;
             tk ← peek;
             if isKind TK_IDENT tk then
               consume;; expectSym ";";; mret (addNpc (tok_text tk) room)
             else mret room
           else consume;; mret room);
        parseRoomBody fuel' room'
      else consume;; parseRoomBody fuel' room
  end.

Definition parseRoom (fuel : nat) : P unit :=
  consume;;
  tk ← peek;
  if negb (isKind TK_IDENT tk) then error "room expects a name"
  else
    let roomName := tok_text tk in
    consume;;
    tk ← peek;
    if negb (isSym "{" tk) then error "expected '{' after room name"
    else
      consume;;
      room ← parseRoomBody fuel (mkRoom roomName "" ∅ [] []);
      expectSym "}";;
      modify (fun p =>
        let p1 := set_rooms (<[roomName := room]> (p_rooms p)) p in
        if p_currentRoom p1 =? "" then set_currentRoom roomName p1 else p1).

(** [picture name[n] = load("folder");] is checked for its shape only;
    the program model keeps nothing of it. *)
Definition parsePicture : P unit :=
  consume;;
  tk ← peek;
  if negb (isKind TK_IDENT tk) then error "picture expects an identifier"
  else
    consume;;
    tk ← peek;
    if negb (isSym "[" tk) then error "expected '[' after picture name"
    else
      consume;;
      tk ← peek;
      if negb (isKind TK_NUMBER tk)
      then error "expected number for array size"
      else
        consume;;
        tk ← peek;
        if negb (isSym "]" tk) then error "expected ']' after array size"
        else
          consume;;
          tk ← peek;
          if negb (isSym "=" tk)
          then error "expected '=' after array declaration"
          else
            consume;;
            tk ← peek;
            if negb (isKind TK_LOAD tk) then error "expected 'load' keyword"
            else
              consume;;
              tk ← peek;
              if negb (isSym "(" tk) then error "expected '(' after load"
              else
                consume;;
                tk ← peek;
                if negb (isKind TK_STRING tk)
                then error "expected string for folder path"
                else
                  consume;;
                  tk ← peek;
                  if negb (isSym ")" tk)
                  then error "expected ')' after folder path"
                  else consume;; expectSym ";";; mret tt.

Fixpoint parse (fuel : nat) : P unit :=
  match fuel with
  | 0 => stuck
  | S fuel' =>
      tk ← peek;
      if isKind TK_EOF tk then mret tt
      else
        (if isKind TK_IDENT tk || isKind TK_PICTURE tk then
           let kw := tok_text tk in
           if kw =? "npc" then parseNpc
           else if kw =? "desc" then parseDesc
           else if (kw =? "int") || (kw =? "string") || (kw =? "match")
           then parseVarDecl fuel
           else if kw =? "node" then parseNode fuel
           else if kw =? "class" then parseClass fuel
           else if kw =? "new" then parseNewInstance
           else if kw =? "room" then parseRoom fuel
           else if isKind TK_PICTURE tk then parsePicture
           else
             error ("Unknown top-level keyword: " +:+ kw);; consume;; mret tt
         else consume;; mret tt);;
        parse fuel'
  end.

(** [Parser(src)]: the first token is read by the constructor. *)
Definition init (src : string) : PState :=
  let '(t, lx) := next (mkLexer src 1) in
  mkPState lx t emptyProgram [].
End Parser.

(** [Parser p(src); p.parse(); p.getProgram()] *)
Definition parseSource (src : string) : presult Program :=
  (Parser.parse (2 + size src);; Parser.getProgram) (Parser.init src).

Definition parsedProgram (src : string) : option Program :=
  match parseSource src with
  | POk prog _ => Some prog
  | _ => None
  end.

(** ** Runtime helpers *)

(** What the interpreter writes, in order. *)
Inductive event :=
| Cout (s : string)
| Cerr (s : string).

(** The outcome of a computation that is given fuel: a value, an exception
    nobody catches together with the state it leaves behind, or no fuel
    left. *)
Inductive outcome (A S : Type) :=
| Done (a : A)
| Throw (e : exn) (s : S)
| NoFuel.
Arguments Done {A S} a.
Arguments Throw {A S} e s.
Arguments NoFuel {A S}.

(** [splitArgs]: the pieces of [s] between commas at parenthesis depth 0,
    trimmed, the empty ones dropped.  [depth] is an [int] that may go
    negative. *)
Fixpoint splitArgs_loop (s cur : string) (depth : Z) (out : list string)
  : list string :=
  match s with
  | "" => if cur =? "" then out else out ++ [trim cur]
  | String c s' =>
      if (c =? "(")%char
      then splitArgs_loop s' (cur +:+ String c "") (depth + 1)%Z out
      else if (c =? ")")%char
      then splitArgs_loop s' (cur +:+ String c "") (depth - 1)%Z out
      else if (c =? ",")%char && (depth =? 0)%Z
      then splitArgs_loop s' "" depth (out ++ [trim cur])
      else splitArgs_loop s' (cur +:+ String c "") depth out
  end.

Definition splitArgs (s : string) : list string :=
  List.filter (fun x => negb (x =? "")) (splitArgs_loop s "" 0%Z []).

(** The name and the expression of ["SET name expr"] and
    ["SIGNAL name expr"], from the text after the tag. *)
Definition splitNameExpr (rest : string) : string * string :=
  let '(name, r) := span_str (fun c => negb (isspace c)) rest in
  (name, snd (span_str isspace r)).

(** The condition and the two targets of ["IF cond GOTO a ELSE b"];
    [None] when there is no [" GOTO "].  [act.substr(3, gpos - 3)] is
    computed on [size_t], so for [gpos < 3] the length wraps and the
    substring runs to the end. *)
Definition decodeIf (act : string) : option (string * string * string) :=
  match find_str " GOTO " act with
  | None => None
  | Some gpos =>
      let cond := if (gpos <? 3)%nat then drop_str 3 act
                  else substr 3 (gpos - 3) act in
      let rest := drop_str (gpos + 6) act in
      match find_str " ELSE " rest with
      | Some epos => Some (cond, take_str epos rest, drop_str (epos + 6) rest)
      | None => Some (cond, rest, "")
      end
  end.

(** The instance, the method and the raw argument text of
    ["inst.method(args)"]; [None] when the statement is not of that
    shape. *)
Definition decodeCall (s : string) : option (string * string * string) :=
  match find_char "." s, find_char "(" s with
  | Some dotp, Some paren =>
      if (dotp <? paren)%nat then
        let inst := take_str dotp s in
        let method := substr (S dotp) (paren - S dotp) s in
        let argsraw :=
          match rfind_char ")" s with
          | Some rparen =>
              if (paren <? rparen)%nat
              then substr (S paren) (rparen - paren - 1) s
              else drop_str (S paren) s
          | None => drop_str (S paren) s
          end in
        Some (inst, method, argsraw)
      else None
  | _, _ => None
  end.

(** The text between the first ["("] and the last [")"] of a [print]
    statement. *)
Definition printInner (s : string) : option string :=
  match find_char "(" s, rfind_char ")" s with
  | Some p, Some q =>
      if (p <? q)%nat then Some (substr (S p) (q - p - 1) s) else None
  | _, _ => None
  end.

Definition isQuoted (inner : string) : bool :=
  (2 <=? size inner)%nat && (front inner =? DQUOTE)%char
  && (back inner =? DQUOTE)%char.

Definition truthText (val : Z) : string :=
  if (val =? 0)%Z then "false" else "true".

(** [s.replace(pos, len, by)] *)
Definition replace_str (pos len : nat) (by_ s : string) : string :=
  take_str pos s +:+ by_ +:+ drop_str (pos + len) s.

(** [iss >> word]: the next white-space delimited word and the rest. *)
Definition readWord (s : string) : string * string :=
  span_str (fun c => negb (isspace c)) (snd (span_str isspace s)).

Section Interpolation.
Variable prog : Program.
Variable vars : gmap string Z.
Variable boolVars : gmap string bool.
Variable objects : gmap string (gmap string Z).

(** The text a [SHOW] puts for [${varName}]: string variables and
    boolean variables are read from the program, integers from [vars]. *)
Definition showValue (varName : string) : string :=
  match p_stringVars prog !! varName with
  | Some v => v
  | None =>
      match p_boolVars prog !! varName with
      | Some b => truthText (b2z b)
      | None =>
          match vars !! varName with
          | Some v => pretty v
          | None =>
              let '(inst, field) := splitDot varName in
              if negb (field =? "") then
                match objects !! inst with
                | Some fs =>
                    match fs !! field with
                    | Some v => pretty v
                    | None => "0"
                    end
                | None => "0"
                end
              else "0"
          end
      end
  end.

(** The substitution loop of [SHOW]; [pos] moves behind the inserted
    value.  Each round removes an occurrence of ["${"] at or after
    [pos], so [size text] rounds are enough. *)
Fixpoint showLoop (fuel : nat) (text : string) (pos : nat) : string :=
  match fuel with
  | 0 => text
  | S fuel' =>
      match find_from "${" pos text with
      | None => text
      | Some pos' =>
          match find_from "}" (pos' + 2) text with
          | None => text
          | Some e =>
              let value := showValue (substr (pos' + 2) (e - pos' - 2) text) in
              showLoop fuel' (replace_str pos' (e - pos' + 1) value text)
                (pos' + size value)
          end
      end
  end.

Definition showText (text : string) : string :=
  showLoop (S (size text)) text 0.

(** The text the node line puts for [${varname}]: dotted names are
    fields, bare names are read from the run's own tables. *)
Definition lineValue (varname : string) : string :=
  let '(inst, field) := splitDot varname in
  if negb (field =? "") then
    match objects !! inst with
    | Some fs => match fs !! field with Some v => pretty v | None => "0" end
    | None => "0"
    end
  else
    match boolVars !! varname with
    | Some b => truthText (b2z b)
    | None => match vars !! varname with Some v => pretty v | None => "0" end
    end.

(** The substitution loop of the node line; the search resumes one
    character behind the place of the last substitution. *)
Fixpoint lineLoop (fuel : nat) (out : string) (p : nat) : string :=
  match fuel with
  | 0 => out
  | S fuel' =>
      match find_from "${" p out with
      | None => out
      | Some p' =>
          match find_from "}" (p' + 2) out with
          | None => out
          | Some q =>
              let val := lineValue (substr (p' + 2) (q - (p' + 2)) out) in
              lineLoop fuel' (replace_str p' (q - p' + 1) val out) (p' + 1)
          end
      end
  end.
End Interpolation.

(** [[@You]] replaced by the player's name in brackets. *)
Fixpoint youLoop (fuel : nat) (playerName out : string) (pos : nat)
  : string :=
  match fuel with
  | 0 => out
  | S fuel' =>
      match find_from "[@You]" pos out with
      | None => out
      | Some pos' =>
          youLoop fuel' playerName
            (replace_str pos' 6 ("[" +:+ playerName +:+ "]") out)
            (pos' + size playerName + 2)
      end
  end.

Definition substYou (playerName text : string) : string :=
  youLoop (S (size text)) playerName text 0.

(** ** Method bodies: [executeActionsWithContext] and [executeMethod] *)

(** What [executeActionsWithContext] reads and writes through its
    reference parameters. *)
Record MCtx := mkMCtx {
  m_prog : Program;
  m_vars : gmap string Z;
  m_boolVars : gmap string bool;
  m_objects : gmap string (gmap string Z);
  m_jump_target : string;
  m_jumped : bool;
  m_trace : list event
}.

Definition m_eval (expr : string) (c : MCtx) : result Z :=
  evalExpressionString expr (m_vars c) (m_boolVars c) (m_objects c).

Definition m_emit (e : event) (c : MCtx) : MCtx :=
  mkMCtx (m_prog c) (m_vars c) (m_boolVars c) (m_objects c)
    (m_jump_target c) (m_jumped c) (m_trace c ++ [e]).

Definition m_jump (target : string) (c : MCtx) : MCtx :=
  mkMCtx (m_prog c) (m_vars c) (m_boolVars c) (m_objects c) target true
    (m_trace c).

Definition m_set_vars (v : gmap string Z) (c : MCtx) : MCtx :=
  mkMCtx (m_prog c) v (m_boolVars c) (m_objects c) (m_jump_target c)
    (m_jumped c) (m_trace c).

Definition m_set_boolVars (v : gmap string bool) (c : MCtx) : MCtx :=
  mkMCtx (m_prog c) (m_vars c) v (m_objects c) (m_jump_target c)
    (m_jumped c) (m_trace c).

Definition m_set_objects (v : gmap string (gmap string Z)) (c : MCtx) : MCtx :=
  mkMCtx (m_prog c) (m_vars c) (m_boolVars c) v (m_jump_target c)
    (m_jumped c) (m_trace c).

Definition m_set_prog (p : Program) (tr : list event) (c : MCtx) : MCtx :=
  mkMCtx p (m_vars c) (m_boolVars c) (m_objects c) (m_jump_target c)
    (m_jumped c) tr.

(** The argument expressions of a call, evaluated left to right. *)
Fixpoint evalArgs (argExprs : list string) (vars : gmap string Z)
    (boolVars : gmap string bool) (objects : gmap string (gmap string Z))
  : result (list Z) :=
  match argExprs with
  | [] => Ok []
  | ae :: rest =>
      match evalExpressionString ae vars boolVars objects with
      | Ok v =>
          match evalArgs rest vars boolVars objects with
          | Ok vs => Ok (v :: vs)
          | Raise e => Raise e
          end
      | Raise e => Raise e
      end
  end.

(** A [SET] inside a method body.  The target is, in this order, a dotted
    field, a field of the receiver, a boolean variable of the local scope,
    an integer variable of the local scope. *)
Definition m_assign (thisInstance name : string) (val : Z) (c : MCtx) : MCtx :=
  let '(inst, field) := splitDot name in
  if negb (field =? "") then
    m_set_objects (storeField inst field val (m_objects c)) c
  else if negb (thisInstance =? "")
          && match m_objects c !! thisInstance with
             | Some fs => bool_decide (is_Some (fs !! name))
             | None => false
             end
  then m_set_objects (storeField thisInstance name val (m_objects c)) c
  else if bool_decide (is_Some (m_boolVars c !! name))
  then m_set_boolVars (<[name := negb (val =? 0)%Z]> (m_boolVars c)) c
  else m_set_vars (<[name := val]> (m_vars c)) c.

Section MethodBody.
(** [executeMethod], as far as a method body can call it. *)
Variable callMethod :
  string -> string -> list Z -> Program -> list event ->
  outcome (Program * list event) (Program * list event).

Variable thisInstance : string.

(** The result is the [bool] the source returns: [false] after [END].
    [break] leaves the loop and returns [true]. *)
Fixpoint executeActionsWithContext (actions : list string) (c : MCtx)
  : outcome (bool * MCtx) MCtx :=
  match actions with
  | [] => Done (true, c)
  | act :: rest =>
      if starts_with "SET " act then
        let '(name, expr) := splitNameExpr (drop_str 4 act) in
        match m_eval expr c with
        | Ok val =>
            executeActionsWithContext rest (m_assign thisInstance name val c)
        | Raise e => Throw e c
        end
      else if starts_with "SIGNAL " act then
        let '(name, expr) := splitNameExpr (drop_str 7 act) in
        match m_eval expr c with
        | Ok val =>
            executeActionsWithContext rest
              (m_emit (Cout ("[SIGNAL] " +:+ name +:+ " = " +:+ pretty val
                             +:+ nl)) c)
        | Raise e => Throw e c
        end
      else if starts_with "IF " act then
        match decodeIf act with
        | None => executeActionsWithContext rest c
        | Some (cond, target, elseTarget) =>
            match m_eval cond c with
            | Ok res =>
                if negb (res =? 0)%Z then Done (true, m_jump target c)
                else if negb (elseTarget =? "")
                then Done (true, m_jump elseTarget c)
                else executeActionsWithContext rest c
            | Raise e => Throw e c
            end
        end
      else if starts_with "GOTO " act then
        Done (true, m_jump (drop_str 5 act) c)
      else if act =? "END" then
        Done (false, m_emit (Cout ("[Dialogue ended]" +:+ nl)) c)
      else if starts_with "STMT " act then
        let s := trim (drop_str 5 act) in
        match decodeCall s with
        | Some (inst, method, argsraw) =>
            match evalArgs (splitArgs argsraw) (m_vars c) (m_boolVars c)
                    (m_objects c) with
            | Ok argVals =>
                match callMethod inst method argVals (m_prog c) (m_trace c)
                with
                | Done (prog', tr') =>
                    executeActionsWithContext rest (m_set_prog prog' tr' c)
                | Throw e (prog', tr') => Throw e (m_set_prog prog' tr' c)
                | NoFuel => NoFuel
                end
            | Raise e => Throw e c
            end
        | None =>
            if starts_with "print" s then
              match printInner s with
              | Some inner =>
                  if isQuoted inner then
                    executeActionsWithContext rest
                      (m_emit (Cout (substr 1 (size inner - 2) inner +:+ nl))
                         c)
                  else
                    match m_eval inner c with
                    | Ok val =>
                        executeActionsWithContext rest
                          (m_emit (Cout (truthText val +:+ nl)) c)
                    | Raise e => Throw e c
                    end
              | None => executeActionsWithContext rest c
              end
            else executeActionsWithContext rest c
        end
      else if starts_with "SHOW " act then
        executeActionsWithContext rest
          (m_emit (Cout (showText (m_prog c) (m_vars c) (m_objects c)
                           (drop_str 5 act) +:+ nl)) c)
      else executeActionsWithContext rest c
  end.
End MethodBody.

(** The three write-back loops at the end of [executeMethod]: every key of
    the global table that the local scope has takes the local value. *)
Definition writeBack {V} (globals locals : gmap string V) : gmap string V :=
  merge (fun g l => match g with
                    | Some gv => Some (default gv l)
                    | None => None
                    end) globals locals.

(** [prog.objects[instanceName][f] = localVars[f]] for every declared
    field [f] that the local scope has. *)
Definition writeFields (fields locals : gmap string Z) (instanceName : string)
    (objects : gmap string (gmap string Z)) : gmap string (gmap string Z) :=
  map_fold (fun f _ objs =>
              match locals !! f with
              | Some v => storeField instanceName f v objs
              | None => objs
              end) objects fields.

(** Positional binding of the arguments, as many as both lists have. *)
Fixpoint bindParams (paramNames : list string) (argValues : list Z)
    (localVars : gmap string Z) : gmap string Z :=
  match paramNames, argValues with
  | p :: ps, a :: args => bindParams ps args (<[p := a]> localVars)
  | _, _ => localVars
  end.

(** [executeMethod].  [depth] bounds the nesting of method calls. *)
Fixpoint executeMethod (depth : nat) (instanceName methodName : string)
    (argValues : list Z) (prog : Program) (trace : list event)
  : outcome (Program * list event) (Program * list event) :=
  match depth with
  | 0 => NoFuel
  | S depth' =>
      match p_instanceClass prog !! instanceName with
      | None =>
          Done (prog, trace ++ [Cerr ("Runtime: unknown instance '"
                                      +:+ instanceName +:+ "'" +:+ nl)])
      | Some cls =>
          match p_classes prog !! cls with
          | None =>
              Done (prog, trace ++ [Cerr ("Runtime: unknown class '" +:+ cls
                                          +:+ "' for instance '"
                                          +:+ instanceName +:+ "'" +:+ nl)])
          | Some cdef =>
              match c_methods cdef !! methodName with
              | None =>
                  Done (prog, trace ++ [Cerr ("Runtime: class '" +:+ cls
                                              +:+ "' has no method '"
                                              +:+ methodName +:+ "'" +:+ nl)])
              | Some actions =>
                  let paramNames :=
                    default [] (c_methodParams cdef !! methodName) in
                  let localVars0 :=
                    bindParams paramNames argValues (p_vars prog) in
                  let objects0 :=
                    match p_objects prog !! instanceName with
                    | Some _ => p_objects prog
                    | None => <[instanceName := c_fields cdef]> (p_objects prog)
                    end in
                  let instanceFieldCopy :=
                    default ∅ (objects0 !! instanceName) in
                  (* fields fill the names the scope does not have yet *)
                  let localVars := localVars0 ∪ instanceFieldCopy in
                  match executeActionsWithContext (executeMethod depth')
                          instanceName actions
                          (mkMCtx prog localVars (p_boolVars prog) objects0
                             "" false trace) with
                  | Done (_, c) =>
                      let prog1 := m_prog c in
                      let prog2 :=
                        set_objects
                          (writeFields (c_fields cdef) (m_vars c) instanceName
                             (p_objects prog1)) prog1 in
                      let prog3 :=
                        set_vars (writeBack (p_vars prog2) (m_vars c)) prog2 in
                      let prog4 :=
                        set_boolVars
                          (writeBack (p_boolVars prog3) (m_boolVars c)) prog3 in
                      Done (set_objects (m_objects c) prog4, m_trace c)
                  | Throw e c => Throw e (m_prog c, m_trace c)
                  | NoFuel => NoFuel
                  end
              end
          end
      end
  end.

(** ** The run loop: [runProgram]

    [runProgram] works on copies of the program's integer and boolean
    tables ([rs_vars], [rs_boolVars]) and on the program's own object table
    ([p_objects (rs_prog _)], a reference in the source).  The operator's
    input is the list of the results of the successive [cin >> sel]:
    [Some n] for a number read, [None] for a failed extraction.  The
    debugger is taken with no breakpoint and not stepping, so that
    [Debugger::check] does nothing. *)

Record RunState := mkRunState {
  rs_prog : Program;
  rs_vars : gmap string Z;
  rs_boolVars : gmap string bool;
  rs_cin : list (option Z);
  rs_trace : list event
}.

Definition rs_objects (st : RunState) : gmap string (gmap string Z) :=
  p_objects (rs_prog st).

Definition rs_eval (expr : string) (st : RunState) : result Z :=
  evalExpressionString expr (rs_vars st) (rs_boolVars st) (rs_objects st).

Definition rs_emit (e : event) (st : RunState) : RunState :=
  mkRunState (rs_prog st) (rs_vars st) (rs_boolVars st) (rs_cin st)
    (rs_trace st ++ [e]).

Definition rs_set_vars (v : gmap string Z) (st : RunState) : RunState :=
  mkRunState (rs_prog st) v (rs_boolVars st) (rs_cin st) (rs_trace st).

Definition rs_set_boolVars (v : gmap string bool) (st : RunState)
  : RunState :=
  mkRunState (rs_prog st) (rs_vars st) v (rs_cin st) (rs_trace st).

Definition rs_set_prog (p : Program) (st : RunState) : RunState :=
  mkRunState p (rs_vars st) (rs_boolVars st) (rs_cin st) (rs_trace st).

Definition rs_set_prog_trace (p : Program) (tr : list event) (st : RunState)
  : RunState :=
  mkRunState p (rs_vars st) (rs_boolVars st) (rs_cin st) tr.

Definition rs_set_cin (i : list (option Z)) (st : RunState) : RunState :=
  mkRunState (rs_prog st) (rs_vars st) (rs_boolVars st) i (rs_trace st).

(** A [SET] of a node: a dotted field of the shared object table, else a
    boolean of the run's table when the name is one, else an integer of
    the run's table. *)
Definition rs_assign (name : string) (val : Z) (st : RunState) : RunState :=
  let '(inst, field) := splitDot name in
  if negb (field =? "") then
    rs_set_prog
      (set_objects (storeField inst field val (rs_objects st)) (rs_prog st)) st
  else if bool_decide (is_Some (rs_boolVars st !! name))
  then rs_set_boolVars (<[name := negb (val =? 0)%Z]> (rs_boolVars st)) st
  else rs_set_vars (<[name := val]> (rs_vars st)) st.

(** How the action list of a node visit ends. *)
Inductive NodeFlow :=
| Fall                 (** the list is exhausted, [jumped] is false *)
| Jump (target : string)  (** [current = target; jumped = true; break] *)
| EndRun.              (** [return] from [runProgram] after [END] *)

Section NodeActions.
Variable depth : nat.

(** The [for] loop over [node.actions] in [runProgram]. *)
Fixpoint runActions (actions : list string) (st : RunState)
  : outcome (NodeFlow * RunState) RunState :=
  match actions with
  | [] => Done (Fall, st)
  | act :: rest =>
      if starts_with "SET " act then
        let '(name, expr) := splitNameExpr (drop_str 4 act) in
        match rs_eval expr st with
        | Ok val => runActions rest (rs_assign name val st)
        | Raise e => Throw e st
        end
      else if starts_with "SIGNAL " act then
        let '(name, expr) := splitNameExpr (drop_str 7 act) in
        match rs_eval expr st with
        | Ok val =>
            runActions rest
              (rs_emit (Cout ("[SIGNAL] " +:+ name +:+ " = "
                              +:+ truthText val +:+ nl)) st)
        | Raise e => Throw e st
        end
      else if starts_with "IF " act then
        match decodeIf act with
        | None => runActions rest st
        | Some (cond, target, elseTarget) =>
            match rs_eval cond st with
            | Ok res =>
                if negb (res =? 0)%Z then Done (Jump target, st)
                else if negb (elseTarget =? "")
                then Done (Jump elseTarget, st)
                else runActions rest st
            | Raise e => Throw e st
            end
        end
      else if starts_with "GOTO " act then
        Done (Jump (drop_str 5 act), st)
      else if act =? "END" then
        Done (EndRun, rs_emit (Cout ("[Dialogue ended]" +:+ nl)) st)
      else if starts_with "STMT " act then
        let s := trim (drop_str 5 act) in
        match decodeCall s with
        | Some (inst, method, argsraw) =>
            match evalArgs (splitArgs argsraw) (rs_vars st) (rs_boolVars st)
                    (rs_objects st) with
            | Ok argVals =>
                match executeMethod depth inst method argVals (rs_prog st)
                        (rs_trace st) with
                | Done (prog', tr') =>
                    runActions rest (rs_set_prog_trace prog' tr' st)
                | Throw e (prog', tr') => Throw e (rs_set_prog_trace prog' tr' st)
                | NoFuel => NoFuel
                end
            | Raise e => Throw e st
            end
        | None =>
            if starts_with "new " s then
              let '(className, r) := readWord (drop_str 4 s) in
              let '(instName, _) := readWord r in
              match instantiate className instName (rs_prog st) with
              | Some prog' => runActions rest (rs_set_prog prog' st)
              | None =>
                  runActions rest
                    (rs_emit (Cerr ("Unknown class in inline new: "
                                    +:+ className +:+ nl)) st)
              end
            else if starts_with "print(" s then
              match printInner s with
              | Some inner =>
                  if isQuoted inner then
                    runActions rest
                      (rs_emit (Cout (substr 1 (size inner - 2) inner
                                      +:+ nl)) st)
                  else
                    match rs_eval inner st with
                    | Ok val =>
                        runActions rest
                          (rs_emit (Cout (truthText val +:+ nl)) st)
                    | Raise e => Throw e st
                    end
              | None => runActions rest st
              end
            else runActions rest st
        end
      else if starts_with "SHOW " act then
        runActions rest
          (rs_emit (Cout (showText (rs_prog st) (rs_vars st) (rs_objects st)
                            (drop_str 5 act) +:+ nl)) st)
      else runActions rest st
  end.
End NodeActions.

(** [for (auto& c : node.choices) if (c.id == sel) { ...; break; }] *)
Fixpoint findChoice (sel : Z) (choices : list Choice) : option string :=
  match choices with
  | [] => None
  | c :: rest =>
      if (ch_id c =? sel)%Z then Some (ch_target c) else findChoice sel rest
  end.

(** The prompt loop: the target chosen, the input left and what was
    written; [None] when the input ends before a declared id is read (the
    source then prompts for ever). *)
Fixpoint choose (choices : list Choice) (cin : list (option Z))
    (trace : list event) : option (string * list (option Z) * list event) :=
  match cin with
  | [] => None
  | r :: cin' =>
      let trace1 := trace ++ [Cout "Choose: "] in
      match r with
      | None => choose choices cin' (trace1 ++ [Cout ("Invalid" +:+ nl)])
      | Some sel =>
          match findChoice sel choices with
          | Some target => Some (target, cin', trace1)
          | None =>
              choose choices cin' (trace1 ++ [Cout ("Invalid choice" +:+ nl)])
          end
      end
  end.

(** The node line as printed. *)
Definition renderLine (playerName : string) (st : RunState) (text : string)
  : string :=
  let out := substYou playerName text in
  lineLoop (rs_vars st) (rs_boolVars st) (rs_objects st) (S (size out)) out 0.

Definition renderChoice (playerName : string) (c : Choice) : event :=
  Cout ("[" +:+ pretty (ch_id c) +:+ "] " +:+ substYou playerName (ch_text c)
        +:+ nl).

(** Why a run stopped. *)
Inductive Halt :=
| Ended          (** an [END] action *)
| NoEdge         (** a node visit without jump: "[End of Conversation]" *)
| UnknownNode    (** [current] names no node *)
| Starved        (** the input ended inside the prompt loop *)
| Crashed (e : exn)
| OutOfFuel.

(** The [while (true)] loop of [runProgram]; [fuel] bounds the number of
    node visits and [depth] the nesting of method calls. *)
Fixpoint runLoop (fuel depth : nat) (playerName current : string)
    (st : RunState) : Halt * RunState :=
  match fuel with
  | 0 => (OutOfFuel, st)
  | S fuel' =>
      match p_nodes (rs_prog st) !! current with
      | None => (UnknownNode,
                 rs_emit (Cerr ("Unknown node: " +:+ current +:+ nl)) st)
      | Some node =>
          let st1 :=
            if n_text node =? "" then st
            else rs_emit (Cout (renderLine playerName st (n_text node) +:+ nl))
                   st in
          match n_choices node with
          | _ :: _ =>
              let trace1 :=
                rs_trace st1 ++ map (renderChoice playerName) (n_choices node)
              in
              match choose (n_choices node) (rs_cin st1) trace1 with
              | Some (target, cin', trace2) =>
                  runLoop fuel' depth playerName target
                    (mkRunState (rs_prog st1) (rs_vars st1) (rs_boolVars st1)
                       cin' trace2)
              | None => (Starved, st1)
              end
          | [] =>
              match runActions depth (n_actions node) st1 with
              | Done (Jump target, st2) =>
                  runLoop fuel' depth playerName target st2
              | Done (EndRun, st2) => (Ended, st2)
              | Done (Fall, st2) =>
                  (NoEdge,
                   rs_emit (Cout ("[End of Conversation]" +:+ nl)) st2)
              | Throw e st2 => (Crashed e, st2)
              | NoFuel => (OutOfFuel, st1)
              end
          end
      end
  end.

Definition header (prog : Program) : list event :=
  (if p_npc prog =? "" then [] else [Cout ("Npc: " +:+ p_npc prog +:+ nl)])
  ++ (if p_desc prog =? "" then []
      else [Cout ("Description: " +:+ p_desc prog +:+ nl +:+ nl)]).

(** The state at the head of the loop: [vars] and [boolVars] are copies of
    the program's tables. *)
Definition initState (prog : Program) (cin : list (option Z)) : RunState :=
  mkRunState prog (p_vars prog) (p_boolVars prog) cin (header prog).

Definition runProgram (fuel depth : nat) (prog : Program)
    (playerName : string) (cin : list (option Z)) : Halt * RunState :=
  runLoop fuel depth playerName (p_entry prog) (initState prog cin).

(** [CRTZ::runSource] with [debug = false]. *)
Definition runSource (fuel depth : nat) (source playerName : string)
    (cin : list (option Z)) : option (Halt * RunState) :=
  match parseSource source with
  | POk prog _ => Some (runProgram fuel depth prog playerName cin)
  | PRaise e => Some (Crashed e,
                      mkRunState emptyProgram ∅ ∅ cin [])
  | PStuck => None
  end.

(** * The debugger

    [class Debugger] of the interpreter: a set of lines and the stepping
    flag.  [check] is called by [runProgram] at every node visit with the
    line of the node and the program; when it stops it reads commands from
    the standard input, a line at a time, until one of them resumes the
    run. *)

Module Debugger.

Record Debugger := mkDebugger {
  breakpoints : gset Z;
  stepping : bool
}.

(** The members as a [Debugger debugger;] declaration leaves them. *)
Definition fresh : Debugger := mkDebugger ∅ false.

Definition addBreakpoint (line : Z) (d : Debugger) : Debugger :=
  mkDebugger ({[ line ]} ∪ breakpoints d) (stepping d).

Definition removeBreakpoint (line : Z) (d : Debugger) : Debugger :=
  mkDebugger (breakpoints d ∖ {[ line ]}) (stepping d).

Definition step (d : Debugger) : Debugger :=
  mkDebugger (breakpoints d) true.

Definition continueExecution (d : Debugger) : Debugger :=
  mkDebugger (breakpoints d) false.

(** [std::stoi] of a text that was not looked at before: the white space
    in front is skipped. *)
Definition stoiText (s : string) : result Z :=
  stoi (snd (span_str isspace s)).

Definition boolText (b : bool) : string := if b then "true" else "false".

Definition printVar (var : string) (prog : Program) : list event :=
  match p_vars prog !! var with
  | Some v => [Cout (var +:+ " = " +:+ pretty v +:+ nl)]
  | None =>
      match p_boolVars prog !! var with
      | Some b => [Cout (var +:+ " = " +:+ boolText b +:+ nl)]
      | None =>
          match p_stringVars prog !! var with
          | Some s => [Cout (var +:+ " = " +:+ s +:+ nl)]
          | None =>
              let '(inst, field) := splitDot var in
              match (if negb (field =? "")
                     then p_objects prog !! inst ≫= (.!! field)
                     else None) with
              | Some v => [Cout (var +:+ " = " +:+ pretty v +:+ nl)]
              | None => [Cout ("Variable not found." +:+ nl)]
              end
          end
      end
  end.

Definition printHelp : list event :=
  [Cout ("Debugger commands:" +:+ nl);
   Cout ("  step (s):           Execute the next line." +:+ nl);
   Cout ("  continue (c):       Continue execution until the next breakpoint."
         +:+ nl);
   Cout ("  print (p) <var>:    Print the value of a variable." +:+ nl);
   Cout ("  variables (v):      List all variables." +:+ nl);
   Cout ("  break (b) <line>:   Set a breakpoint at the specified line."
         +:+ nl);
   Cout ("  delete <line>:      Remove a breakpoint at the specified line."
         +:+ nl);
   Cout ("  breakpoints:        List all breakpoints." +:+ nl);
   Cout ("  help (h):           Show this help message." +:+ nl)].

Section Walk.

(** The order in which a range-for walks an [unordered_set] or an
    [unordered_map] is not fixed by the language: it is a parameter. *)
Variable walkSet : gset Z -> list Z.
Variable walkMap : forall A : Type, gmap string A -> list (string * A).

Definition listVariables (prog : Program) : list event :=
  [Cout ("Integer variables:" +:+ nl)]
  ++ map (fun '(k, v) => Cout ("  " +:+ k +:+ " = " +:+ pretty v +:+ nl))
         (walkMap Z (p_vars prog))
  ++ [Cout ("Boolean variables:" +:+ nl)]
  ++ map (fun '(k, b) => Cout ("  " +:+ k +:+ " = " +:+ boolText b +:+ nl))
         (walkMap bool (p_boolVars prog))
  ++ [Cout ("String variables:" +:+ nl)]
  ++ map (fun '(k, s) => Cout ("  " +:+ k +:+ " = " +:+ s +:+ nl))
         (walkMap string (p_stringVars prog))
  ++ [Cout ("Object fields:" +:+ nl)]
  ++ flat_map
       (fun '(inst, fields) =>
          map (fun '(f, v) =>
                 Cout ("  " +:+ inst +:+ "." +:+ f +:+ " = " +:+ pretty v
                       +:+ nl))
              (walkMap Z fields))
       (walkMap (gmap string Z) (p_objects prog)).

(** One [cout] statement per line of the source: the lines of the set are
    written by statements of their own. *)
Definition listBreakpoints (d : Debugger) : list event :=
  if bool_decide (breakpoints d = ∅)
  then [Cout ("No breakpoints set." +:+ nl)]
  else [Cout "Breakpoints at lines:"]
       ++ map (fun line => Cout (" " +:+ pretty line))
              (walkSet (breakpoints d))
       ++ [Cout nl].

(** The text behind the first blank of a [break] or [delete] command read
    as a line number. *)
Definition lineCommand (command usage done : string)
    (edit : Z -> Debugger -> Debugger) (d : Debugger)
  : Debugger * list event :=
  match find_char " " command with
  | Some space_pos =>
      match stoiText (drop_str (S space_pos) command) with
      | Ok line_num => (edit line_num d, [Cout (done +:+ pretty line_num +:+ nl)])
      | Raise _ => (d, [Cout ("Invalid line number" +:+ nl)])
      end
  | None => (d, [Cout (usage +:+ nl)])
  end.

(** One turn of the command loop of [check]: the debugger and what is
    written for [command], and whether the loop is left. *)
Definition obey (command : string) (prog : Program) (d : Debugger)
  : Debugger * list event * bool :=
  if (command =? "step") || (command =? "s") then (step d, [], true)
  else if (command =? "continue") || (command =? "c")
  then (continueExecution d, [], true)
  else if starts_with "print" command || starts_with "p" command then
    match find_char " " command with
    | Some space_pos =>
        (d, printVar (drop_str (S space_pos) command) prog, false)
    | None => (d, [Cout ("Usage: print <variable>" +:+ nl)], false)
    end
  else if (command =? "help") || (command =? "h") then (d, printHelp, false)
  else if (command =? "breakpoints") || (command =? "b")
  then (d, listBreakpoints d, false)
  else if starts_with "break" command then
    (lineCommand command "Usage: break <line>" "Breakpoint added at line "
       addBreakpoint d, false)
  else if starts_with "delete" command then
    (lineCommand command "Usage: delete <line>"
       "Breakpoint removed at line " removeBreakpoint d, false)
  else if (command =? "variables") || (command =? "v")
  then (d, listVariables prog, false)
  else (d, [Cout ("Unknown command. Type 'help' for available commands."
                  +:+ nl)], false).

(** The command loop: [cin] holds the lines that [getline] will read.
    When they are used up [getline] fails, the command is not one that
    resumes, and the loop goes on for ever: [None]. *)
Fixpoint commands (cin : list string) (prog : Program) (d : Debugger)
    (tr : list event) : option (Debugger * list string * list event) :=
  match cin with
  | [] => None
  | command :: cin' =>
      let '(d', out, leave) := obey command prog d in
      let tr' := tr ++ Cout "> " :: out in
      if leave then Some (d', cin', tr') else commands cin' prog d' tr'
  end.

(** [Debugger::check]: the debugger, the input left and what was written,
    or [None] when the command loop does not end. *)
Definition check (line : Z) (prog : Program) (cin : list string)
    (d : Debugger) : option (Debugger * list string * list event) :=
  if stepping d || bool_decide (line ∈ breakpoints d) then
    commands cin prog d
      [Cout ("Breakpoint at line " +:+ pretty line
             +:+ ". Type 'help' for commands." +:+ nl)]
  else Some (d, cin, []).

End Walk.

End Debugger.

(** * The bytecode helpers

    The constant pool and the encoding helpers of crtz_bytecode.hpp.  A
    byte and a [uint32_t] are integers; the conversions to them cut to 8
    and to 32 bits. *)

Module Bytecode.

Definition CRTZ_MAGIC : Z := 0x5A545243.
Definition CRTZ_BC_VERSION : Z := 1.

Definition to_u8 (v : Z) : Z := (v mod 2 ^ 8)%Z.
Definition to_u32 (v : Z) : Z := (v mod 2 ^ 32)%Z.

Section Constants.

(** [double] and its [==], which is not reflexive (a NaN differs from
    itself), are parameters. *)
Variable double : Type.
Variable double_eqb : double -> double -> bool.

(** [std::variant<int, bool, std::string, double>] *)
Inductive Constant :=
| CInt (i : Z)
| CBool (b : bool)
| CString (s : string)
| CDouble (x : double).

(** [operator==] of the variant: the same alternative and equal values. *)
Definition Constant_eqb (a b : Constant) : bool :=
  match a, b with
  | CInt x, CInt y => (x =? y)%Z
  | CBool x, CBool y => Bool.eqb x y
  | CString x, CString y => (x =? y)%string
  | CDouble x, CDouble y => double_eqb x y
  | _, _ => false
  end.

(** The search loop of [add_const] from index [i] on, [pool] being what is
    left of the vector. *)
Fixpoint find_const (pool : list Constant) (c : Constant) (i : nat)
  : option nat :=
  match pool with
  | [] => None
  | x :: rest =>
      if Constant_eqb x c then Some i else find_const rest c (S i)
  end.

(** The pool after the call and the index returned. *)
Definition add_const (pool : list Constant) (c : Constant)
  : list Constant * Z :=
  match find_const pool c 0 with
  | Some i => (pool, to_u32 (Z.of_nat i))
  | None => (pool ++ [c], to_u32 (Z.of_nat (length (pool ++ [c])) - 1))
  end.

End Constants.

Definition emit_u8 (out : list Z) (v : Z) : list Z := out ++ [v].

Definition emit_u32 (out : list Z) (v : Z) : list Z :=
  out ++ [to_u8 v; to_u8 (Z.shiftr v 8); to_u8 (Z.shiftr v 16);
          to_u8 (Z.shiftr v 24)].

End Bytecode.

(** * Vocabulary of the properties

    The predicates, the expression syntax and the scripts that the
    statements below use. *)

(** ** Texts *)

(** Every character of [s] satisfies [p]. *)
Fixpoint all_chars (p : ascii -> bool) (s : string) : bool :=
  match s with
  | "" => true
  | String c s' => p c && all_chars p s'
  end.

(** No white space in [s]. *)
Definition no_space (s : string) : bool :=
  all_chars (fun c => negb (isspace c)) s.

(** An action that the parser kept as a raw statement. *)
Definition isTagged (act : string) : bool := starts_with "STMT " act.

(** ** Node visits *)

(** The state in which the actions of a node visit start: the node line,
    if there is one, has been written. *)
Definition afterLine (playerName : string) (node : Node) (st : RunState)
  : RunState :=
  if n_text node =? "" then st
  else rs_emit (Cout (renderLine playerName st (n_text node) +:+ nl)) st.

(** [sel] is the id of a declared choice. *)
Definition isDeclared (sel : Z) (choices : list Choice) : bool :=
  existsb (fun c => (ch_id c =? sel)%Z) choices.

(** An input the prompt loop turns down: not a number, or a number that is
    no declared id. *)
Definition isRejected (choices : list Choice) (r : option Z) : bool :=
  match r with
  | None => true
  | Some n => negb (isDeclared n choices)
  end.

(** What the prompt loop writes for the inputs it turns down. *)
Definition rejections (bad : list (option Z)) : list event :=
  flat_map (fun r => [Cout "Choose: ";
                      Cout (match r with
                            | None => "Invalid" +:+ nl
                            | Some _ => "Invalid choice" +:+ nl
                            end)]) bad.

(** ** Infix expressions without signs

    The expressions for which [infixToRPN] and [evalRPN] give the value of
    integer arithmetic: numbers written with digits only, the ten binary
    operators and parentheses. *)

Inductive Expr :=
| Lit (ds : string)
| Bin (op : string) (l r : Expr).

(** A token that is a number: digits, at least one. *)
Definition isNumber (ds : string) : bool :=
  negb (ds =? "") && all_chars isdigit ds.

(** [parses k ts e]: the tokens [ts] are an expression whose operators
    outside parentheses have precedence [k] at least, and [e] is its reading
    with the three tiers of precedence, each tier associating to the left:
    the left operand of an operator may hold operators of its own tier, the
    right operand only tighter ones. *)
Inductive parses : nat -> list string -> Expr -> Prop :=
| parses_lit (k : nat) (ds : string) :
    isNumber ds = true -> parses k [ds] (Lit ds)
| parses_paren (k : nat) (ts : list string) (e : Expr) :
    parses 0 ts e -> parses k ("(" :: ts ++ [")"]) e
| parses_bin (k : nat) (op : string) (tl tr : list string) (l r : Expr) :
    isOperator op = true -> k <= precedence op ->
    parses (precedence op) tl l -> parses (S (precedence op)) tr r ->
    parses k (tl ++ op :: tr) (Bin op l r).

(** The postfix form: operands in their order, every operator behind its
    two operands. *)
Fixpoint postfix (e : Expr) : list string :=
  match e with
  | Lit ds => [ds]
  | Bin op l r => postfix l ++ postfix r ++ [op]
  end.

(** The operators on unbounded integers: the quotient is cut towards 0, a
    division by 0 gives 0, a comparison gives 1 or 0. *)
Definition arith (op : string) (a b : Z) : Z :=
  if op =? "+" then (a + b)%Z
  else if op =? "-" then (a - b)%Z
  else if op =? "*" then (a * b)%Z
  else if op =? "/" then (if (b =? 0)%Z then 0%Z else Z.quot a b)
  else if op =? "==" then b2z (a =? b)%Z
  else if op =? "!=" then b2z (negb (a =? b)%Z)
  else if op =? "<" then b2z (a <? b)%Z
  else if op =? "<=" then b2z (a <=? b)%Z
  else if op =? ">" then b2z (a >? b)%Z
  else if op =? ">=" then b2z (a >=? b)%Z
  else 0%Z.

(** The value of an expression in integer arithmetic. *)
Fixpoint denote (e : Expr) : Z :=
  match e with
  | Lit ds => digits_val 0 ds
  | Bin op l r => arith op (denote l) (denote r)
  end.

(** Every value met on the way fits a [long long]. *)
Fixpoint fits (e : Expr) : bool :=
  in_ll (denote e)
  && match e with
     | Lit _ => true
     | Bin _ l r => fits l && fits r
     end.

(** The top of the operator stack stays where it is while an expression of
    level [k] goes by: it is no operator, or one that binds less. *)
Definition blocks (k : nat) (st : list string) : bool :=
  match st with
  | [] => true
  | top :: _ => negb (isOperator top) || (precedence top <? k)%nat
  end.

(** The tokens and operators of an expression are the ones the evaluator
    knows. *)
Fixpoint wellFormed (e : Expr) : bool :=
  match e with
  | Lit ds => isNumber ds
  | Bin op l r => isOperator op && wellFormed l && wellFormed r
  end.

(** The tokens of one character. *)
Definition isSingleSymbol (t : string) : bool :=
  (t =? "+") || (t =? "-") || (t =? "*") || (t =? "/") || (t =? "(")
  || (t =? ")") || (t =? "<") || (t =? ">").

(** [s] does not begin with a digit. *)
Definition noDigitAhead (s : string) : bool :=
  match s with
  | String c _ => negb (isdigit c)
  | "" => true
  end.

(** [lexes s ts]: the text [s] is made of the tokens [ts], numbers without
    sign, operators and parentheses, with any white space between them; a
    number ends where the digits end, and [<] or [>] is a token of its own
    only when no [=] follows it. *)
Inductive lexes : string -> list string -> Prop :=
| lexes_nil : lexes "" []
| lexes_space (c : ascii) (s : string) (ts : list string) :
    isspace c = true -> lexes s ts -> lexes (String c s) ts
| lexes_number (ds s : string) (ts : list string) :
    isNumber ds = true -> noDigitAhead s = true -> lexes s ts ->
    lexes (ds +:+ s) (ds :: ts)
| lexes_two (t s : string) (ts : list string) :
    isTwoCharOp t = true -> lexes s ts -> lexes (t +:+ s) (t :: ts)
| lexes_one (t s : string) (ts : list string) :
    isSingleSymbol t = true -> isTwoCharOp (take_str 2 (t +:+ s)) = false ->
    lexes s ts -> lexes (t +:+ s) (t :: ts).

(** A token the evaluator can turn into a value: it does not look like a
    number, or [std::stoll] reads it. *)
Definition readable (t : string) : bool :=
  negb (looksNumeric t)
  || match stoll t with Ok _ => true | Raise _ => false end.

(** ** Scripts and states of the examples *)

(** A class with the method of the claim C1, two instances and a call. *)
Definition heroScript : string :=
  "class Hero { int health = 10;
                void attack(amount) { set health = health - amount; } }
   new Hero hero;
   new Hero rival;
   node Start { hero.attack(3); end; }".

(** A program whose method body holds a [SET] action, which no script
    yields, to see what [executeMethod] does with one. *)
Definition heroClass : ClassDef :=
  mkClassDef "Hero" {[ "health" := 10%Z ]}
    {[ "attack" := ["SET health health-amount"] ]}
    {[ "attack" := ["amount"] ]}.

(** Two instances of that class and the given global integers. *)
Definition heroProgram (globals : gmap string Z) : Program :=
  mkProgram "" "" globals ∅ ∅ ∅ "" {[ "Hero" := heroClass ]}
    {[ "hero" := {[ "health" := 50%Z ]}; "rival" := {[ "health" := 50%Z ]} ]}
    {[ "hero" := "Hero"; "rival" := "Hero" ]} ∅ "".

(** A node that sets a global and calls a method that prints it. *)
Definition probeScript : string :=
  "int x = 0;
   class Probe { int seen = 0; void report() { print(x); } }
   new Probe p;
   node Start { set x = 1; p.report(); print(x); end; }".

(** The conditional jump of the claim C4 for an initial value of [hp]. *)
Definition duelScript (hp : string) : string :=
  "int hp = " +:+ hp +:+ ";
   node Start { if (hp <= 0) goto Dead else goto Alive; print(hp); }
   node Dead { line " +:+ dq "dead" +:+ "; end; }
   node Alive { line " +:+ dq "alive" +:+ "; end; }".

(** A conditional jump whose condition is a variable with the name
    [GOTO]. *)
Definition gotoScript : string :=
  "int GOTO = 1;
   node Start { if (GOTO) goto Then else goto Else; }
   node Then { line " +:+ dq "then" +:+ "; end; }
   node Else { line " +:+ dq "else" +:+ "; end; }".

(** Three [print] statements: a variable, an expression and a string
    literal. *)
Definition printScript : string :=
  "int hp = 5;
   node Start { print(hp); print(hp - 5); print(" +:+ dq "hello" +:+ "); end; }".

(** A state with nothing but the integer [hp]. *)
Definition hpState (hp : Z) : RunState :=
  mkRunState emptyProgram {[ "hp" := hp ]} ∅ [] [].

(** A node with two choices and actions of its own. *)
Definition crossroads : Node :=
  mkNode "Crossroads" "Which way?"
    [mkChoice 1 "A" "NodeA"; mkChoice 2 "B" "NodeB"]
    ["SET visited 1"; "GOTO Elsewhere"; "END"] 1.

Definition crossroadsState (cin : list (option Z)) : RunState :=
  initState (set_nodes {[ "Crossroads" := crossroads ]} emptyProgram) cin.

(** A node with [END] in the middle of its actions. *)
Definition lastWords : Node :=
  mkNode "Last" "" [] ["SET x 1"; "END"; "GOTO Other"; "SET x 2"] 1.

Definition lastWordsState : RunState :=
  initState (set_nodes {[ "Last" := lastWords ]} emptyProgram) [].

Definition heroObjects : gmap string (gmap string Z) :=
  {[ "hero" := {[ "health" := 10%Z ]} ]}.

Definition emptyState : RunState := initState emptyProgram [].

(** * Vocabulary of the further properties *)

(** ** Tokens of expressions *)

(** A token of one character of [+-*/()<>]; [strchr] finds the NUL as
    well. *)
Definition isSymbolToken (t : string) : bool :=
  match t with
  | String c "" => isSymbolChar c
  | _ => false
  end.

(** A letter or [_] followed by letters, digits, [_] and dots. *)
Definition isIdentifier (t : string) : bool :=
  match t with
  | String c r => isIdentStart c && all_chars isIdentChar r
  | "" => false
  end.

(** The four shapes of a token. *)
Definition isExprToken (t : string) : bool :=
  isTwoCharOp t || isSymbolToken t || isNumber t || isIdentifier t.

(** A token that [infixToRPN] sends to the output when it meets it. *)
Definition isOperand (t : string) : bool :=
  negb (t =? "") && negb (isOperator t) && negb (t =? "(")
  && negb (t =? ")").

(** A token that [infixToRPN] does not drop: not empty, no parenthesis. *)
Definition isKept (t : string) : bool :=
  negb (t =? "") && negb (t =? "(") && negb (t =? ")").

(** ** Lexing *)

(** How often [c] is in [s]. *)
Fixpoint count_char (c : ascii) (s : string) : nat :=
  match s with
  | "" => 0
  | String a s' => (if (a =? c)%char then 1 else 0) + count_char c s'
  end.

(** A character as it is written inside a string literal. *)
Definition escapeChar (c : ascii) : string :=
  if (c =? DQUOTE)%char then String BACKSLASH (String DQUOTE "")
  else if (c =? BACKSLASH)%char then String BACKSLASH (String BACKSLASH "")
  else if (c =? LF)%char then String BACKSLASH "n"
  else String c "".

Fixpoint escape (s : string) : string :=
  match s with
  | "" => ""
  | String c s' => escapeChar c +:+ escape s'
  end.

(** [s] does not begin with a character of an identifier. *)
Definition noIdentAhead (s : string) : bool :=
  match s with
  | String c _ => negb (isIdentChar c)
  | "" => true
  end.

(** What a lexing step took from the text: [consumed] in front of [rest],
    with the line counter moved by the line ends in it. *)
Definition took (s : string) (line : nat) (rest : string) (line' : nat)
  : Prop :=
  exists consumed,
    s = consumed +:+ rest /\ line' = line + count_char LF consumed.

(** What [next] gives: the token, and the text and the line it leaves. *)
Definition lexed (t : Token) (lx lx' : Lexer) : Prop :=
  took (lx_rest lx) (lx_line lx) (lx_rest lx') (lx_line lx')
  /\ tok_line t = lx_line lx'
  /\ if TokenKind_eqb (tok_kind t) TK_EOF then lx_rest lx' = ""
     else size (lx_rest lx') < size (lx_rest lx).

(** ** Parsing *)

(** What is left to read: the text behind the lexer, and the current token
    unless it is the end of the input. *)
Definition remaining (p : PState) : nat :=
  size (lx_rest (ps_lex p))
  + (if Parser.isKind TK_EOF (ps_tk p) then 0 else 1).

(** The end-of-input token is current only when the text is used up. *)
Definition settled (p : PState) : Prop :=
  Parser.isKind TK_EOF (ps_tk p) = true -> lx_rest (ps_lex p) = "".

(** The entry of [e], if it has one, is the entry of [prog]. *)
Definition keepsEntry (e prog : Program) : Prop :=
  p_entry e <> "" -> p_entry prog = p_entry e.

(** A parser state with at most [n] left to read, whose program has kept
    the entry of [e]. *)
Definition within (e : Program) (n : nat) (p : PState) : Prop :=
  settled p /\ remaining p <= n /\ keepsEntry e (ps_prog p).

(** [m] started in [p] ends in a state and with a value that satisfy [Q],
    or with what ends the evaluation of an initialiser, [out_of_range] or
    the trap of a division; it does not run out of fuel. *)
Definition ends {A : Type} (m : P A) (p : PState)
    (Q : A -> PState -> Prop) : Prop :=
  match m p with
  | POk a p' => Q a p'
  | PRaise e => e = OutOfRange \/ e = DivisionTrap
  | PStuck => False
  end.

(** The parser at the start of [src], with [prog] built so far. *)
Definition resume (src : string) (prog : Program) : PState :=
  let '(t, lx) := next (mkLexer src 1) in mkPState lx t prog [].

(** ** Calls *)

(** The arguments of a call, written with commas between them. *)
Fixpoint joinArgs (args : list string) : string :=
  match args with
  | [] => ""
  | [a] => a
  | a :: rest => a +:+ "," +:+ joinArgs rest
  end.

(** An argument without comma or parenthesis that neither begins nor ends
    with white space and is not empty. *)
Definition isPlainArg (a : string) : bool :=
  negb (a =? "")
  && all_chars (fun c => negb ((c =? ",")%char || (c =? "(")%char
                               || (c =? ")")%char)) a
  && negb (isspace (front a)) && negb (isspace (back a)).

(** What a method call leaves alone in the program. *)
Definition sameDeclarations (prog prog' : Program) : Prop :=
  p_classes prog' = p_classes prog
  /\ p_instanceClass prog' = p_instanceClass prog
  /\ p_nodes prog' = p_nodes prog
  /\ p_entry prog' = p_entry prog
  /\ p_stringVars prog' = p_stringVars prog
  /\ dom (p_vars prog') = dom (p_vars prog)
  /\ dom (p_boolVars prog') = dom (p_boolVars prog).

(** The outcome of a call keeps the declarations and extends the trace. *)
Definition callKeeps (prog : Program) (tr : list event)
    (r : outcome (Program * list event) (Program * list event)) : Prop :=
  match r with
  | Done (prog', tr') | Throw _ (prog', tr') =>
      sameDeclarations prog prog' /\ exists k, tr' = tr ++ k
  | NoFuel => True
  end.

(** ** Debugger commands *)

(** The commands that set the stepping flag. *)
Definition isStep (command : string) : bool :=
  (command =? "step") || (command =? "s").

(** The commands that leave the command loop of the debugger. *)
Definition isResume (command : string) : bool :=
  isStep command || (command =? "continue") || (command =? "c").

(** A command that begins like [break] or [delete]. *)
Definition isEdit (command : string) : bool :=
  starts_with "break" command || starts_with "delete" command.

(** ** More scripts *)

(** The program of [heroScript] as the parser gives it. *)
Definition parsedHero : Program :=
  default emptyProgram (parsedProgram heroScript).

(** The parser in front of the body of a method, the brace read. *)
Definition inBody (body : string) : PState := resume body emptyProgram.

(** A node of a script that instantiates a class in its body. *)
Definition recruitScript : string :=
  "class Hero { int health = 10; }
   node Start { new Hero h; end; }".

(** * Properties *)

(** ** Strings *)

Lemma append_cons (c : ascii) (a b : string) :
  String c a +:+ b = String c (a +:+ b).
Proof. reflexivity. Qed.

Lemma append_nil_l (b : string) : "" +:+ b = b.
Proof. reflexivity. Qed.

(** [append] is kept folded by [simpl]; this pushes it inwards. *)
Ltac push_append := rewrite ?append_cons, ?append_nil_l.

Lemma append_nil_r (s : string) : s +:+ "" = s.
Proof.
  induction s as [|c s IH]; push_append; [reflexivity | now rewrite IH].
Qed.

Lemma append_assoc (a b c : string) : (a +:+ b) +:+ c = a +:+ (b +:+ c).
Proof.
  induction a as [|x a IH]; push_append; [reflexivity | now rewrite IH].
Qed.

Lemma size_cons (c : ascii) (s : string) : size (String c s) = S (size s).
Proof. reflexivity. Qed.

Lemma size_append (a b : string) : size (a +:+ b) = size a + size b.
Proof.
  induction a as [|x a IH]; push_append; simpl; [reflexivity |].
  now rewrite <- IH.
Qed.

Lemma take_str_append (a b : string) : take_str (size a) (a +:+ b) = a.
Proof.
  induction a as [|x a IH]; push_append; simpl; [now destruct b |].
  now rewrite IH.
Qed.

Lemma drop_str_append (a b : string) : drop_str (size a) (a +:+ b) = b.
Proof.
  induction a as [|x a IH]; push_append; simpl; [now destruct b | exact IH].
Qed.

Lemma drop_str_plus (n : nat) (a b : string) :
  drop_str (size a + n) (a +:+ b) = drop_str n b.
Proof.
  induction a as [|x a IH]; push_append; simpl; [reflexivity | exact IH].
Qed.

Lemma starts_with_append (p s : string) : starts_with p (p +:+ s) = true.
Proof.
  induction p as [|x p IH]; push_append; simpl; [reflexivity |].
  now rewrite Ascii.eqb_refl, IH.
Qed.

(** A pattern that begins with [c] does not match where the text begins
    with another character. *)
Lemma starts_with_head_ne (c d : ascii) (p s : string) :
  c <> d -> starts_with (String c p) (String d s) = false.
Proof.
  intros Hne. simpl. destruct (Ascii.eqb_spec c d); [contradiction | reflexivity].
Qed.

Lemma isspace_space : isspace " " = true.
Proof. reflexivity. Qed.

Lemma no_space_cons (c : ascii) (s : string) :
  no_space (String c s) = true -> isspace c = false /\ no_space s = true.
Proof.
  unfold no_space; simpl. intros H. apply andb_true_iff in H as [H1 H2].
  split; [now apply negb_true_iff in H1 | exact H2].
Qed.

Lemma not_space_ne (c : ascii) : isspace c = false -> " "%char <> c.
Proof. intros H E. subst c. discriminate H. Qed.

(** [s.find(pat)] passes over a prefix without white space when the
    pattern begins with a space. *)
Lemma find_str_skip (pat a b : string) :
  no_space a = true ->
  find_str (String " " pat) (a +:+ b)
  = (fun i => size a + i) <$> find_str (String " " pat) b.
Proof.
  induction a as [|x a IH]; intros Ha; push_append.
  - simpl size. now destruct (find_str _ b).
  - apply no_space_cons in Ha as [Hx Ha].
    cbn [find_str]. rewrite (starts_with_head_ne " " x) by now apply not_space_ne.
    rewrite (IH Ha). now destruct (find_str _ b).
Qed.

Lemma find_str_here (pat s : string) : find_str pat (pat +:+ s) = Some 0.
Proof.
  destruct pat as [|c pat]; [now destruct s |].
  push_append. cbn [find_str]. rewrite <- append_cons.
  now rewrite starts_with_append.
Qed.

Lemma find_str_none (pat a : string) :
  no_space a = true -> find_str (String " " pat) a = None.
Proof.
  induction a as [|x a IH]; intros Ha; [reflexivity |].
  apply no_space_cons in Ha as [Hx Ha].
  cbn [find_str]. rewrite (starts_with_head_ne " " x) by now apply not_space_ne.
  now rewrite (IH Ha).
Qed.

Lemma find_char_append (c : ascii) (a b : string) :
  find_char c a = None ->
  find_char c (a +:+ String c b) = Some (size a).
Proof.
  induction a as [|x a IH]; push_append; simpl; intros Ha.
  - now rewrite Ascii.eqb_refl.
  - destruct (x =? c)%char; [discriminate |].
    destruct (find_char c a); [discriminate |]. now rewrite IH.
Qed.

Lemma find_char_none_append (c : ascii) (a b : string) :
  find_char c a = None ->
  find_char c (a +:+ b) = (fun i => size a + i) <$> find_char c b.
Proof.
  induction a as [|x a IH]; push_append; simpl; intros Ha.
  - now destruct (find_char c b).
  - destruct (x =? c)%char; [discriminate |].
    destruct (find_char c a); [discriminate |]. rewrite IH by reflexivity.
    now destruct (find_char c b).
Qed.

Lemma span_str_no_space (a b : string) :
  no_space a = true ->
  span_str (fun c => negb (isspace c)) (a +:+ String " " b)
  = (a, String " " b).
Proof.
  induction a as [|x a IH]; intros Ha; push_append; [reflexivity |].
  apply no_space_cons in Ha as [Hx Ha]. simpl. rewrite Hx. simpl.
  now rewrite (IH Ha).
Qed.

Lemma rev_str_involutive (s : string) : rev_str (rev_str s) = s.
Proof.
  unfold rev_str. rewrite list_ascii_of_string_of_list_ascii, rev_involutive.
  apply string_of_list_ascii_of_string.
Qed.

Lemma list_ascii_of_append (a b : string) :
  list_ascii_of_string (a +:+ b)
  = list_ascii_of_string a ++ list_ascii_of_string b.
Proof.
  induction a as [|x a IH]; push_append; simpl; [reflexivity | now rewrite IH].
Qed.

Lemma rev_str_snoc (s : string) (c : ascii) :
  rev_str (s +:+ String c "") = String c (rev_str s).
Proof.
  unfold rev_str. rewrite list_ascii_of_append, rev_app_distr. reflexivity.
Qed.

(** [trim] leaves a text alone that neither begins nor ends with white
    space. *)
Lemma trim_id (c d : ascii) (s : string) :
  isspace c = false -> isspace d = false ->
  trim (String c (s +:+ String d "")) = String c (s +:+ String d "").
Proof.
  intros Hc Hd. unfold trim. simpl span_str. rewrite Hc. simpl snd.
  rewrite <- append_cons, rev_str_snoc. simpl span_str. rewrite Hd. simpl snd.
  rewrite <- rev_str_snoc. apply rev_str_involutive.
Qed.

(** ** Control flow of a node visit *)

(** A list of actions that runs to its end without a jump can be followed
    by more actions: they start in the state it leaves. *)
Lemma runActions_app (depth : nat) (pre rest : list string)
    (st st' : RunState) :
  runActions depth pre st = Done (Fall, st') ->
  runActions depth (pre ++ rest) st = runActions depth rest st'.
Proof.
  revert st. induction pre as [|act pre IH]; intros st H.
  - cbn in H. injection H as ->. reflexivity.
  - cbn [runActions app] in *.
    repeat case_match; try discriminate; eauto.
Qed.

(** What [END] does in front of any list of actions. *)
Lemma runActions_END (depth : nat) (post : list string) (st : RunState) :
  runActions depth ("END" :: post) st
  = Done (EndRun, rs_emit (Cout ("[Dialogue ended]" +:+ nl)) st).
Proof. reflexivity. Qed.

(** C6.  Wherever [END] stands in the action list of a visited node, once
    the actions in front of it have run to their end without a jump, the
    run is over: the visit returns [Ended] after writing
    "[Dialogue ended]", whatever actions [post] follow [END], and no other
    node is visited (one round of the loop is enough, [fuel] is not
    touched). *)
Theorem end_action_halts_run (fuel depth : nat) (playerName current : string)
    (node : Node) (pre post : list string) (st st' : RunState) :
  p_nodes (rs_prog st) !! current = Some node ->
  n_choices node = [] ->
  n_actions node = pre ++ "END" :: post ->
  runActions depth pre (afterLine playerName node st) = Done (Fall, st') ->
  runLoop (S fuel) depth playerName current st
  = (Ended, rs_emit (Cout ("[Dialogue ended]" +:+ nl)) st').
Proof.
  intros Hnode Hch Hact Hpre.
  cbn [runLoop]. rewrite Hnode, Hch, Hact.
  fold (afterLine playerName node st).
  rewrite (runActions_app _ _ _ _ _ Hpre), runActions_END.
  reflexivity.
Qed.

(** ** Choices *)

Lemma findChoice_None (sel : Z) (choices : list Choice) :
  isDeclared sel choices = false -> findChoice sel choices = None.
Proof.
  induction choices as [|c cs IH]; [reflexivity |]. cbn.
  destruct (ch_id c =? sel)%Z; [discriminate | exact IH].
Qed.

Lemma findChoice_Some (sel : Z) (choices : list Choice) :
  isDeclared sel choices = true ->
  exists c, In c choices /\ ch_id c = sel
            /\ findChoice sel choices = Some (ch_target c).
Proof.
  induction choices as [|c cs IH]; [discriminate |]. cbn.
  destruct (ch_id c =? sel)%Z eqn:E.
  - intros _. exists c. apply Z.eqb_eq in E. auto.
  - intros H. destruct (IH H) as (c' & Hin & Hid & Hf). exists c'. auto.
Qed.

(** The prompt loop passes over the inputs it turns down, one prompt and
    one complaint each. *)
Lemma choose_rejected (choices : list Choice) (bad cin : list (option Z))
    (trace : list event) :
  forallb (isRejected choices) bad = true ->
  choose choices (bad ++ cin) trace = choose choices cin (trace ++ rejections bad).
Proof.
  revert trace. induction bad as [|r bad IH]; intros trace Hbad.
  - cbn. now rewrite app_nil_r.
  - cbn in Hbad. apply andb_true_iff in Hbad as [Hr Hbad].
    cbn [app choose]. destruct r as [n|]; cbn in Hr.
    + rewrite findChoice_None by now apply negb_true_iff.
      rewrite (IH _ Hbad). cbn [rejections flat_map app].
      now rewrite <- !app_assoc.
    + rewrite (IH _ Hbad). cbn [rejections flat_map app].
      now rewrite <- !app_assoc.
Qed.

(** With nothing but inputs it turns down, the prompt loop never leaves. *)
Lemma choose_starved (choices : list Choice) (bad : list (option Z))
    (trace : list event) :
  forallb (isRejected choices) bad = true -> choose choices bad trace = None.
Proof.
  intros H. rewrite <- (app_nil_r bad), (choose_rejected _ _ _ _ H).
  reflexivity.
Qed.

(** The step of the run at a node with choices: the next visit is that of
    the target that [findChoice] gives for the id read, in a state that
    differs from the one of this visit by the input read and by what was
    written. *)
Lemma choices_step (fuel depth : nat)
    (playerName current target : string) (node : Node) (st : RunState)
    (bad rest : list (option Z)) (sel : Z) :
  p_nodes (rs_prog st) !! current = Some node ->
  n_choices node <> [] ->
  forallb (isRejected (n_choices node)) bad = true ->
  findChoice sel (n_choices node) = Some target ->
  rs_cin st = bad ++ Some sel :: rest ->
  runLoop (S fuel) depth playerName current st
  = runLoop fuel depth playerName target
      (mkRunState (rs_prog st) (rs_vars st) (rs_boolVars st) rest
         ((rs_trace (afterLine playerName node st)
           ++ map (renderChoice playerName) (n_choices node))
          ++ rejections bad ++ [Cout "Choose: "])).
Proof.
  intros Hnode Hch Hbad Hfind Hcin.
  cbn [runLoop]. rewrite Hnode. fold (afterLine playerName node st).
  destruct (n_choices node) as [|c0 cs] eqn:Echoices; [contradiction |].
  assert (Hcin' : rs_cin (afterLine playerName node st) = bad ++ Some sel :: rest).
  { unfold afterLine. destruct (n_text node =? ""); exact Hcin. }
  rewrite Hcin', (choose_rejected _ _ _ _ Hbad).
  cbn [choose]. rewrite Hfind.
  assert (Hsame : forall s, rs_prog (afterLine playerName node s) = rs_prog s
                            /\ rs_vars (afterLine playerName node s) = rs_vars s
                            /\ rs_boolVars (afterLine playerName node s)
                               = rs_boolVars s).
  { intros s. unfold afterLine. destruct (n_text node =? ""); auto. }
  destruct (Hsame st) as (-> & -> & ->).
  now rewrite <- !app_assoc.
Qed.

(** C5.  In a node with at least one choice the visit is decided by the
    operator alone: every input that is not a declared id is answered by a
    new prompt, however many there are, and the first declared id moves the
    run to the target of a choice with that id.  The state in which the
    target is visited has the program and the variable tables the visit
    started with, and its trace holds the node line, one line for each
    choice and the prompts only: the action list of the node takes no
    part.  With fuel for this one visit the run stops in that state; when
    the target is no node of the program the run ends there, with the
    error that names the target. *)
Theorem choices_preempt_actions (fuel depth : nat)
    (playerName current : string) (node : Node) (st : RunState)
    (bad rest : list (option Z)) (sel : Z) :
  p_nodes (rs_prog st) !! current = Some node ->
  n_choices node <> [] ->
  forallb (isRejected (n_choices node)) bad = true ->
  isDeclared sel (n_choices node) = true ->
  rs_cin st = bad ++ Some sel :: rest ->
  exists c,
    In c (n_choices node) /\ ch_id c = sel /\
    let st' :=
      mkRunState (rs_prog st) (rs_vars st) (rs_boolVars st) rest
        (rs_trace st
         ++ (if n_text node =? "" then []
             else [Cout (renderLine playerName st (n_text node) +:+ nl)])
         ++ map (fun ch => Cout ("[" +:+ pretty (ch_id ch) +:+ "] "
                                 +:+ substYou playerName (ch_text ch)
                                 +:+ nl)) (n_choices node)
         ++ rejections bad ++ [Cout "Choose: "]) in
    runLoop (S fuel) depth playerName current st
    = runLoop fuel depth playerName (ch_target c) st'
    /\ runLoop 1 depth playerName current st = (OutOfFuel, st')
    /\ (p_nodes (rs_prog st) !! ch_target c = None ->
        runLoop (S (S fuel)) depth playerName current st
        = (UnknownNode,
           rs_emit (Cerr ("Unknown node: " +:+ ch_target c +:+ nl)) st')).
Proof.
  intros Hnode Hch Hbad Hsel Hcin.
  assert (Htrace :
            (rs_trace (afterLine playerName node st)
             ++ map (renderChoice playerName) (n_choices node))
            ++ rejections bad ++ [Cout "Choose: "]
            = rs_trace st
              ++ (if n_text node =? "" then []
                  else [Cout (renderLine playerName st (n_text node)
                              +:+ nl)])
              ++ map (fun ch => Cout ("[" +:+ pretty (ch_id ch) +:+ "] "
                                      +:+ substYou playerName (ch_text ch)
                                      +:+ nl)) (n_choices node)
              ++ rejections bad ++ [Cout "Choose: "]).
  { unfold afterLine. destruct (n_text node =? ""); cbn [rs_trace rs_emit];
      rewrite <- ?app_assoc; reflexivity. }
  destruct (findChoice_Some _ _ Hsel) as (c & Hin & Hid & Hfind).
  exists c. split; [exact Hin |]. split; [exact Hid |].
  cbv zeta. rewrite <- Htrace. split; [| split].
  - exact (choices_step fuel depth playerName current (ch_target c)
             node st bad rest sel Hnode Hch Hbad Hfind Hcin).
  - exact (choices_step 0 depth playerName current (ch_target c)
             node st bad rest sel Hnode Hch Hbad Hfind Hcin).
  - intros Hnone.
    rewrite (choices_step (S fuel) depth playerName current (ch_target c)
               node st bad rest sel Hnode Hch Hbad Hfind Hcin).
    cbn [runLoop rs_prog]. now rewrite Hnone.
Qed.

(** ** Conditional jumps *)

Lemma no_space_append (a b : string) :
  no_space a = true -> no_space b = true -> no_space (a +:+ b) = true.
Proof.
  unfold no_space. induction a as [|x a IH]; push_append; [auto |].
  simpl. intros Ha Hb. apply andb_true_iff in Ha as [Hx Ha].
  now rewrite Hx, IH.
Qed.

(** A word followed by a space is matched, at the start of a text made of
    a word without space and a space, by that word only. *)
Lemma starts_with_word (p w z : string) :
  no_space p = true -> no_space w = true ->
  starts_with (p +:+ " ") (w +:+ String " " z) = true -> w = p.
Proof.
  revert w. induction p as [|a p IH]; intros w Hp Hw H.
  - destruct w as [|x w]; [reflexivity |]. exfalso.
    apply no_space_cons in Hw as [Hx _].
    rewrite append_cons, append_nil_l in H. cbn [starts_with] in H.
    destruct (Ascii.eqb_spec " " x) as [<- |]; discriminate.
  - apply no_space_cons in Hp as [Ha Hp].
    destruct w as [|x w]; rewrite !append_cons in H.
    + rewrite append_nil_l in H. cbn [starts_with] in H.
      destruct (Ascii.eqb_spec a " ") as [-> |]; discriminate.
    + apply no_space_cons in Hw as [Hx Hw]. cbn [starts_with] in H.
      apply andb_true_iff in H as [Hax H].
      apply Ascii.eqb_eq in Hax as ->. f_equal. now apply IH.
Qed.

(** Where [" GOTO "] is first found in an [IF] action. *)
Lemma find_GOTO (cond x : string) :
  no_space cond = true -> cond <> "GOTO" ->
  find_str " GOTO " ("IF " +:+ cond +:+ " GOTO " +:+ x)
  = Some (3 + size cond).
Proof.
  intros Hc Hne. set (y := cond +:+ " GOTO " +:+ x).
  push_append. cbn [find_str].
  rewrite !(starts_with_head_ne " ") by discriminate.
  assert (Hfalse : starts_with " GOTO " (String " " y) = false).
  { destruct (starts_with " GOTO " (String " " y)) eqn:E; [| reflexivity].
    exfalso. apply Hne. cbn [starts_with] in E.
    rewrite Ascii.eqb_refl in E. cbn [andb] in E.
    apply (starts_with_word "GOTO" cond ("GOTO " +:+ x)); auto. }
  rewrite Hfalse. subst y. rewrite (find_str_skip "GOTO " cond _ Hc).
  rewrite (find_str_here " GOTO " x). cbn. do 2 f_equal. lia.
Qed.

Lemma drop_IF (cond y : string) :
  drop_str (3 + size cond + 6) ("IF " +:+ cond +:+ " GOTO " +:+ y) = y.
Proof.
  set (z := " GOTO " +:+ y). rewrite 3 append_cons, append_nil_l.
  cbn [drop_str Nat.add]. subst z. now rewrite (drop_str_plus 6 cond).
Qed.

Lemma substr_IF (cond y : string) :
  substr 3 (3 + size cond - 3) ("IF " +:+ cond +:+ y) = cond.
Proof.
  unfold substr. rewrite 3 append_cons, append_nil_l. cbn [drop_str].
  replace (3 + size cond - 3) with (size cond) by lia.
  apply take_str_append.
Qed.

(** The decoding of the action the parser builds for
    [if (cond) goto a else goto b;]. *)
Lemma decodeIf_else (cond a b : string) :
  no_space cond = true -> cond <> "GOTO" -> no_space a = true ->
  decodeIf ("IF " +:+ cond +:+ " GOTO " +:+ a +:+ " ELSE " +:+ b)
  = Some (cond, a, b).
Proof.
  intros Hc Hne Ha. unfold decodeIf. rewrite (find_GOTO _ _ Hc Hne).
  replace (3 + size cond <? 3)%nat with false
    by (symmetry; apply Nat.ltb_ge; lia).
  rewrite drop_IF, substr_IF.
  rewrite (find_str_skip "ELSE " a _ Ha), (find_str_here " ELSE " b).
  cbn [fmap option_fmap option_map].
  rewrite Nat.add_0_r, take_str_append, (drop_str_plus 6 a). reflexivity.
Qed.

(** The decoding of the action the parser builds for [if (cond) goto a;]. *)
Lemma decodeIf_plain (cond a : string) :
  no_space cond = true -> cond <> "GOTO" -> no_space a = true ->
  decodeIf ("IF " +:+ cond +:+ " GOTO " +:+ a) = Some (cond, a, "").
Proof.
  intros Hc Hne Ha. unfold decodeIf. rewrite (find_GOTO _ _ Hc Hne).
  replace (3 + size cond <? 3)%nat with false
    by (symmetry; apply Nat.ltb_ge; lia).
  rewrite drop_IF, substr_IF, (find_str_none "ELSE " a Ha). reflexivity.
Qed.

(** The action built for [if (cond) goto a else goto b;] jumps to [a] when
    the condition is not 0, leaving the rest of the list alone, and to [b]
    when it is 0; the action built for [if (cond) goto a;] jumps to [a]
    when the condition is not 0 and hands over to the next action when it
    is 0.  This is so for a condition and targets without white space,
    the condition not being the single name [GOTO], at which the decoder
    cuts the action in the wrong place (see [condition_named_GOTO]). *)
Theorem if_goto_else_semantics (depth : nat) (cond a b : string)
    (rest : list string) (st : RunState) (res : Z) :
  no_space cond = true -> cond <> "GOTO" -> no_space a = true -> b <> "" ->
  rs_eval cond st = Ok res ->
  runActions depth
    (("IF " +:+ cond +:+ " GOTO " +:+ a +:+ " ELSE " +:+ b) :: rest) st
  = Done (Jump (if (res =? 0)%Z then b else a), st)
  /\ runActions depth (("IF " +:+ cond +:+ " GOTO " +:+ a) :: rest) st
     = (if (res =? 0)%Z then runActions depth rest st else Done (Jump a, st)).
Proof.
  intros Hc Hne Ha Hb Hres.
  assert (Hb' : (b =? "") = false) by now apply String.eqb_neq.
  split.
  - cbn [runActions].
    replace (starts_with "SET " _) with false by reflexivity.
    replace (starts_with "SIGNAL " _) with false by reflexivity.
    replace (starts_with "IF " _) with true by reflexivity.
    rewrite (decodeIf_else _ _ _ Hc Hne Ha), Hres, Hb'.
    now destruct (res =? 0)%Z.
  - cbn [runActions].
    replace (starts_with "SET " _) with false by reflexivity.
    replace (starts_with "SIGNAL " _) with false by reflexivity.
    replace (starts_with "IF " _) with true by reflexivity.
    rewrite (decodeIf_plain _ _ Hc Hne Ha), Hres.
    now destruct (res =? 0)%Z.
Qed.

(** The same for any action the interpreter reads as a conditional jump,
    in terms of what [decodeIf] finds in it. *)
Lemma if_action_decoded (depth : nat) (act cond a b : string)
    (rest : list string) (st : RunState) (res : Z) :
  starts_with "SET " act = false -> starts_with "SIGNAL " act = false ->
  starts_with "IF " act = true ->
  decodeIf act = Some (cond, a, b) ->
  rs_eval cond st = Ok res ->
  runActions depth (act :: rest) st
  = if negb (res =? 0)%Z then Done (Jump a, st)
    else if negb (b =? "") then Done (Jump b, st)
    else runActions depth rest st.
Proof.
  intros H1 H2 H3 Hdec Hres. cbn [runActions].
  now rewrite H1, H2, H3, Hdec, Hres.
Qed.

(** A jump at the end of the actions of a node without choices is the
    node the loop visits next, in the state the actions left. *)
Lemma jump_moves_run (fuel depth : nat) (playerName current target : string)
    (node : Node) (st st' : RunState) :
  p_nodes (rs_prog st) !! current = Some node ->
  n_choices node = [] ->
  runActions depth (n_actions node) (afterLine playerName node st)
  = Done (Jump target, st') ->
  runLoop (S fuel) depth playerName current st
  = runLoop fuel depth playerName target st'.
Proof.
  intros Hnode Hch Hrun. cbn [runLoop]. rewrite Hnode, Hch.
  fold (afterLine playerName node st). now rewrite Hrun.
Qed.

(** ** Dotted references *)

Lemma isIdentStart_front (obj : string) :
  isIdentStart (front obj) = true ->
  exists c o, obj = String c o /\ isIdentStart c = true.
Proof.
  destruct obj as [|c o]; [discriminate |]. intros H. now exists c, o.
Qed.

(** A text that begins like an identifier is no operator, no number and no
    parenthesis, and white space does not begin it. *)
Lemma ident_not_operator (c : ascii) (s : string) :
  isIdentStart c = true -> isOperator (String c s) = false.
Proof.
  destruct c as [[] [] [] [] [] [] [] []]; try discriminate; reflexivity.
Qed.

Lemma ident_not_numeric (c : ascii) (s : string) :
  isIdentStart c = true -> looksNumeric (String c s) = false.
Proof.
  destruct c as [[] [] [] [] [] [] [] []]; try discriminate; reflexivity.
Qed.

Lemma ident_not_paren (c : ascii) (s : string) :
  isIdentStart c = true ->
  (String c s =? "(") = false /\ (String c s =? ")") = false.
Proof.
  destruct c as [[] [] [] [] [] [] [] []]; try discriminate; split; reflexivity.
Qed.

Lemma ident_tokenizer_class (c : ascii) :
  isIdentStart c = true ->
  isspace c = false /\ isSymbolChar c = false /\ isdigit c = false
  /\ (c =? "-")%char = false /\ (c =? "+")%char = false
  /\ (c =? "<")%char = false /\ (c =? ">")%char = false
  /\ (c =? "=")%char = false /\ (c =? "!")%char = false.
Proof.
  destruct c as [[] [] [] [] [] [] [] []]; try discriminate;
    repeat split; reflexivity.
Qed.

Lemma splitDot_dotted (obj field : string) :
  find_char "." obj = None ->
  splitDot (obj +:+ "." +:+ field) = (obj, field).
Proof.
  intros H. unfold splitDot. rewrite append_cons, append_nil_l.
  rewrite (find_char_append _ _ _ H), take_str_append.
  replace (S (size obj)) with (size obj + 1) by lia.
  now rewrite drop_str_plus.
Qed.

Lemma dotted_neq (obj field t : string) :
  find_char "." obj = None -> find_char "." t = None ->
  (obj +:+ "." +:+ field =? t) = false.
Proof.
  intros Ho Ht. apply String.eqb_neq. intros E.
  rewrite <- E, append_cons, append_nil_l, (find_char_append _ _ _ Ho) in Ht.
  discriminate.
Qed.

(** What [evalRPN] pushes for a dotted reference. *)
Lemma operandValue_dotted (vars : gmap string Z) (boolVars : gmap string bool)
    (objects : gmap string (gmap string Z)) (obj field : string) :
  isIdentStart (front obj) = true -> find_char "." obj = None ->
  field <> "" ->
  operandValue vars boolVars objects (obj +:+ "." +:+ field)
  = Ok (fieldValue objects obj field).
Proof.
  intros Hid Hdot Hf. unfold operandValue.
  destruct (isIdentStart_front _ Hid) as (c & o & -> & Hc).
  rewrite (append_cons c o), (ident_not_numeric _ _ Hc), <- (append_cons c o).
  rewrite !dotted_neq by (exact Hdot || reflexivity).
  rewrite (splitDot_dotted _ _ Hdot).
  apply String.eqb_neq in Hf. now rewrite Hf.
Qed.

Lemma span_str_all (p : ascii -> bool) (s : string) :
  all_chars p s = true -> span_str p s = (s, "").
Proof.
  induction s as [|c s IH]; [reflexivity |]. simpl. intros H.
  apply andb_true_iff in H as [-> H]. now rewrite (IH H).
Qed.

Lemma all_chars_append (p : ascii -> bool) (a b : string) :
  all_chars p a = true -> all_chars p b = true ->
  all_chars p (a +:+ b) = true.
Proof.
  induction a as [|x a IH]; push_append; [auto |]. simpl. intros Ha Hb.
  apply andb_true_iff in Ha as [-> Ha]. now apply IH.
Qed.

(** An identifier, dots included, is a single token of [tokenizeExpr]. *)
Lemma tokenizeExpr_ident (c : ascii) (s : string) :
  isIdentStart c = true -> all_chars isIdentChar s = true ->
  tokenizeExpr (String c s) = [String c s].
Proof.
  intros Hc Hs. unfold tokenizeExpr. cbn [size String.length tokenizeExpr_loop].
  destruct (ident_tokenizer_class c Hc)
    as (Hsp & Hsym & Hdig & Hm & Hp & Hlt & Hgt & Heq & Hne).
  rewrite Hsp, Hsym, Hdig, Hm, Hp, Hc. cbn [orb andb].
  assert (Htwo : isTwoCharOp (take_str 2 (String c s)) = false).
  { unfold isTwoCharOp.
    destruct s as [|d s]; cbn [take_str String.eqb];
      now rewrite Hlt, Hgt, Heq, Hne. }
  rewrite Htwo, andb_false_r, (span_str_all _ _ Hs).
  now destruct (String.length s).
Qed.

(** C7.  A dotted reference [obj.field] met by the evaluator is replaced by
    the value the object table holds for that field of that object, and by
    0 when the table has no such object or the object has no such field;
    evaluation goes on with the following tokens and nothing is raised at
    this point.  An expression that is the reference alone evaluates to
    that value, as an [int]. *)
Theorem dotted_reference_value (vars : gmap string Z)
    (boolVars : gmap string bool) (objects : gmap string (gmap string Z))
    (obj field : string) (rest : list string) (st : list Z) :
  isIdentStart (front obj) = true -> all_chars isIdentChar obj = true ->
  find_char "." obj = None ->
  field <> "" -> all_chars isIdentChar field = true ->
  let v := match objects !! obj with
           | Some fs => match fs !! field with Some x => x | None => 0%Z end
           | None => 0%Z
           end in
  evalRPN_loop vars boolVars objects ((obj +:+ "." +:+ field) :: rest) st
  = evalRPN_loop vars boolVars objects rest (v :: st)
  /\ evalExpressionString (obj +:+ "." +:+ field) vars boolVars objects
     = Ok (to_int v).
Proof.
  intros Hid Hobj Hdot Hf Hfield v.
  assert (Hop := operandValue_dotted vars boolVars objects obj field Hid Hdot Hf).
  fold (fieldValue objects obj field) in v.
  destruct (isIdentStart_front _ Hid) as (c & o & -> & Hc).
  rewrite append_cons in *.
  assert (Htok : tokenizeExpr (String c (o +:+ "." +:+ field))
                 = [String c (o +:+ "." +:+ field)]).
  { apply tokenizeExpr_ident; [exact Hc |].
    cbn in Hobj. apply andb_true_iff in Hobj as [_ Hobj].
    apply all_chars_append; [exact Hobj |].
    apply all_chars_append; [reflexivity | exact Hfield]. }
  assert (Hnop := ident_not_operator c (o +:+ "." +:+ field) Hc).
  destruct (ident_not_paren c (o +:+ "." +:+ field) Hc) as [Hl Hr].
  assert (Hne : (String c (o +:+ "." +:+ field) =? "") = false) by reflexivity.
  remember (String c (o +:+ "." +:+ field)) as t eqn:Et. clear Et.
  split.
  - cbn [evalRPN_loop]. now rewrite Hnop, Hop.
  - unfold evalExpressionString, infixToRPN, evalRPN. rewrite Htok.
    cbn [infixToRPN_loop]. rewrite Hne, Hnop, Hl, Hr. cbn [app].
    cbn [evalRPN_loop]. now rewrite Hnop, Hop.
Qed.

(** ** Infix expressions without signs *)

Lemma blocks_mono (k k' : nat) (st : list string) :
  k <= k' -> blocks k st = true -> blocks k' st = true.
Proof.
  destruct st as [|top st]; [reflexivity |]. cbn. intros Hk H.
  apply orb_true_iff in H as [H | H]; apply orb_true_iff; [now left | right].
  apply Nat.ltb_lt in H. apply Nat.ltb_lt. lia.
Qed.

Lemma isOperator_cases (op : string) :
  isOperator op = true ->
  op = "+" \/ op = "-" \/ op = "*" \/ op = "/" \/ op = "==" \/ op = "!="
  \/ op = "<" \/ op = "<=" \/ op = ">" \/ op = ">=".
Proof.
  unfold isOperator. intros H.
  repeat (apply orb_true_iff in H as [H | H]);
    apply String.eqb_eq in H; subst op; tauto.
Qed.

Lemma operator_not_special (op : string) :
  isOperator op = true ->
  (op =? "") = false /\ (op =? "(") = false /\ (op =? ")") = false.
Proof.
  intros H.
  destruct (isOperator_cases op H) as [-> | [-> | [-> | [-> | [-> | [-> |
    [-> | [-> | [-> | ->]]]]]]]]]; repeat split; reflexivity.
Qed.

Lemma number_is_operand (ds : string) :
  isNumber ds = true ->
  (ds =? "") = false /\ isOperator ds = false /\ (ds =? "(") = false
  /\ (ds =? ")") = false /\ looksNumeric ds = true.
Proof.
  unfold isNumber. destruct ds as [|c ds]; [discriminate |].
  cbn [String.eqb negb andb all_chars]. intros H.
  apply andb_true_iff in H as [Hc _].
  destruct c as [[] [] [] [] [] [] [] []]; try discriminate Hc;
    repeat split; reflexivity.
Qed.

(** Pending operators that bind at least as tightly as [t] all go to the
    output when [t] arrives, and the stack below them stays. *)
Lemma pop_ops_pending (t : string) (ops out st : list string) :
  Forall (fun o => isOperator o = true /\ precedence t <= precedence o) ops ->
  blocks (precedence t) st = true ->
  pop_ops t out (ops ++ st) = (out ++ ops, st).
Proof.
  revert out. induction ops as [|o ops IH]; intros out Hops Hst.
  - cbn [app]. rewrite app_nil_r. destruct st as [|top st]; [reflexivity |].
    cbn [pop_ops]. cbn in Hst.
    destruct (isOperator top); [| reflexivity]. cbn in Hst.
    apply Nat.ltb_lt in Hst.
    replace (precedence t <=? precedence top)%nat with false
      by (symmetry; apply Nat.leb_gt; lia).
    reflexivity.
  - inversion Hops as [|? ? [Ho Hp] Hops']; subst.
    cbn [app pop_ops]. rewrite Ho.
    replace (precedence t <=? precedence o)%nat with true
      by (symmetry; apply Nat.leb_le; lia).
    cbn [andb]. rewrite (IH _ Hops' Hst). now rewrite <- app_assoc.
Qed.

(** Pending operators go to the output at [")"], which takes the ["("]
    below them with it. *)
Lemma pop_until_paren_pending (ops out st : list string) :
  Forall (fun o => isOperator o = true) ops ->
  pop_until_paren out (ops ++ "(" :: st) = (out ++ ops, st).
Proof.
  revert out. induction ops as [|o ops IH]; intros out Hops.
  - cbn. now rewrite app_nil_r.
  - inversion Hops as [|? ? Ho Hops']; subst. cbn [app pop_until_paren].
    destruct (operator_not_special o Ho) as (_ & -> & _).
    rewrite (IH _ Hops'). now rewrite <- app_assoc.
Qed.

(** The conversion of an expression in front of more tokens: the postfix
    form is in the output but for operators [ops] that are still on the
    stack, in the order in which they will leave it. *)
Lemma infixToRPN_parses (k : nat) (ts : list string) (e : Expr) :
  parses k ts e ->
  forall (rest out st : list string),
    blocks k st = true ->
    exists out' ops,
      infixToRPN_loop (ts ++ rest) out st
      = infixToRPN_loop rest out' (ops ++ st)
      /\ out' ++ ops = out ++ postfix e
      /\ Forall (fun o => isOperator o = true /\ k <= precedence o) ops.
Proof.
  induction 1 as [k ds Hds | k ts e Hp IH | k op tl tr l r Hop Hk Hl IHl Hr IHr];
    intros rest out st Hst.
  - destruct (number_is_operand ds Hds) as (H1 & H2 & H3 & H4 & _).
    exists (out ++ [ds]), []. cbn [app infixToRPN_loop].
    rewrite H1, H2, H3, H4, app_nil_r. auto.
  - cbn [app infixToRPN_loop String.eqb Ascii.eqb Bool.eqb].
    replace (isOperator "(") with false by reflexivity.
    destruct (IH (")" :: rest) out ("(" :: st) eq_refl)
      as (out' & ops & Hrun & Hout & Hops).
    rewrite <- app_assoc. cbn [app]. rewrite Hrun.
    cbn [infixToRPN_loop String.eqb Ascii.eqb Bool.eqb].
    replace (isOperator ")") with false by reflexivity.
    rewrite pop_until_paren_pending
      by (eapply Forall_impl; [exact Hops |]; now intros ? [? _]).
    exists (out' ++ ops), []. rewrite app_nil_r. cbn [app]. auto.
  - destruct (IHl (op :: tr ++ rest) out st (blocks_mono _ _ _ Hk Hst))
      as (out1 & ops1 & Hrun1 & Hout1 & Hops1).
    rewrite <- app_assoc. cbn [app]. rewrite Hrun1.
    cbn [infixToRPN_loop].
    destruct (operator_not_special op Hop) as (-> & _ & _). rewrite Hop.
    rewrite (pop_ops_pending op ops1 out1 st Hops1
               (blocks_mono _ _ _ Hk Hst)).
    assert (Hblock : blocks (S (precedence op)) (op :: st) = true).
    { unfold blocks. apply orb_true_iff. right. apply Nat.ltb_lt. lia. }
    destruct (IHr rest (out1 ++ ops1) (op :: st) Hblock)
      as (out2 & ops2 & Hrun2 & Hout2 & Hops2).
    rewrite Hrun2. exists out2, (ops2 ++ [op]). split; [| split].
    + now rewrite <- app_assoc.
    + cbn [postfix]. rewrite app_assoc, Hout2, Hout1.
      now rewrite <- !app_assoc.
    + apply Forall_app. split.
      * eapply Forall_impl; [exact Hops2 |]. intros o [Ho Hp].
        split; [easy | lia].
      * constructor; [split; [exact Hop | exact Hk] | constructor].
Qed.

(** [infixToRPN] gives the postfix form of the expression read. *)
Lemma infixToRPN_postfix (k : nat) (ts : list string) (e : Expr) :
  parses k ts e -> infixToRPN ts = postfix e.
Proof.
  intros H. unfold infixToRPN.
  destruct (infixToRPN_parses k ts e H [] [] [])
    as (out' & ops & Hrun & Hout & _); [now destruct k |].
  rewrite app_nil_r in Hrun. rewrite Hrun. cbn [infixToRPN_loop].
  now rewrite app_nil_r, Hout.
Qed.

Lemma to_ll_id (z : Z) : in_ll z = true -> to_ll z = z.
Proof.
  unfold in_ll, to_ll, wrap. intros H.
  apply andb_true_iff in H as [H1 H2].
  apply Z.leb_le in H1. apply Z.ltb_lt in H2.
  rewrite Z.mod_small; lia.
Qed.

(** Inside the range the operators of [evalRPN] are those of arithmetic. *)
Lemma applyOp_exact (op : string) (a b : Z) :
  in_ll (arith op a b) = true -> applyOp op a b = Ok (arith op a b).
Proof.
  unfold applyOp, arith.
  destruct (op =? "+"); [intros H; now rewrite to_ll_id |].
  destruct (op =? "-"); [intros H; now rewrite to_ll_id |].
  destruct (op =? "*"); [intros H; now rewrite to_ll_id |].
  destruct (op =? "/"); [| intros _; now repeat case_match].
  destruct (b =? 0)%Z; [reflexivity |]. intros H.
  destruct ((a =? - 2 ^ 63)%Z && (b =? -1)%Z) eqn:E;
    [| now rewrite to_ll_id].
  apply andb_true_iff in E as [Ea Eb].
  apply Z.eqb_eq in Ea, Eb. subst a b. discriminate H.
Qed.

Lemma stoll_number (ds : string) :
  isNumber ds = true -> in_ll (digits_val 0 ds) = true ->
  stoll ds = Ok (digits_val 0 ds).
Proof.
  intros Hds Hfit. unfold isNumber in Hds.
  apply andb_true_iff in Hds as [Hne Hall].
  destruct ds as [|c ds]; [discriminate |].
  assert (Hread : read_number (String c ds) = Some (digits_val 0 (String c ds))).
  { unfold read_number.
    assert (Hc : isdigit c = true)
      by (cbn in Hall; now apply andb_true_iff in Hall as [? _]).
    replace (match String c ds with
             | String "-" r => (true, r)
             | String "+" r => (false, r)
             | _ => (false, String c ds)
             end) with (false, String c ds)
      by (destruct c as [[] [] [] [] [] [] [] []]; try discriminate Hc;
          reflexivity).
    rewrite (span_str_all _ _ Hall). reflexivity. }
  unfold stoll. now rewrite Hread, Hfit.
Qed.

Lemma parses_wellFormed (k : nat) (ts : list string) (e : Expr) :
  parses k ts e -> wellFormed e = true.
Proof.
  induction 1 as [| |k op tl tr l r Hop Hk Hl IHl Hr IHr]; cbn; auto.
  now rewrite Hop, IHl, IHr.
Qed.

(** The evaluation of the postfix form leaves the value of the expression
    on the stack. *)
Lemma evalRPN_postfix (vars : gmap string Z) (boolVars : gmap string bool)
    (objects : gmap string (gmap string Z)) (e : Expr) :
  wellFormed e = true -> fits e = true ->
  forall (rest : list string) (st : list Z),
    evalRPN_loop vars boolVars objects (postfix e ++ rest) st
    = evalRPN_loop vars boolVars objects rest (denote e :: st).
Proof.
  induction e as [ds | op l IHl r IHr]; intros Hwf Hfit rest st.
  - cbn in Hwf, Hfit. rewrite andb_true_r in Hfit.
    destruct (number_is_operand ds Hwf) as (_ & Hnop & _ & _ & Hnum).
    cbn [postfix app evalRPN_loop]. rewrite Hnop.
    unfold operandValue. now rewrite Hnum, (stoll_number ds Hwf Hfit).
  - cbn [wellFormed] in Hwf. cbn [fits] in Hfit.
    apply andb_true_iff in Hwf as [Hwf Hr]. apply andb_true_iff in Hwf as [Hop Hl].
    apply andb_true_iff in Hfit as [Hfit Hlr].
    apply andb_true_iff in Hlr as [Hfl Hfr].
    cbn [postfix]. rewrite <- !app_assoc.
    rewrite (IHl Hl Hfl), (IHr Hr Hfr). cbn [app evalRPN_loop].
    rewrite Hop. cbn [denote] in *. now rewrite applyOp_exact.
Qed.

(** On expressions without signs, with all values inside the range of
    [long long], conversion and evaluation give the value of integer
    arithmetic with the three tiers of precedence and association to the
    left, narrowed to [int]. *)
Theorem unsigned_infix_value (vars : gmap string Z)
    (boolVars : gmap string bool) (objects : gmap string (gmap string Z))
    (k : nat) (ts : list string) (e : Expr) :
  parses k ts e -> fits e = true ->
  evalRPN vars boolVars objects (infixToRPN ts) = Ok (to_int (denote e)).
Proof.
  intros Hp Hfit. rewrite (infixToRPN_postfix k ts e Hp).
  unfold evalRPN. rewrite <- (app_nil_r (postfix e)).
  now rewrite (evalRPN_postfix _ _ _ e (parses_wellFormed _ _ _ Hp) Hfit).
Qed.

Lemma to_int_id (z : Z) : in_int z = true -> to_int z = z.
Proof.
  unfold in_int, to_int, wrap. intros H.
  apply andb_true_iff in H as [H1 H2].
  apply Z.leb_le in H1. apply Z.ltb_lt in H2.
  rewrite Z.mod_small; lia.
Qed.

(** *** From the text to the tokens *)

Lemma span_str_until (p : ascii -> bool) (a b : string) :
  all_chars p a = true ->
  match b with String c _ => negb (p c) | "" => true end = true ->
  span_str p (a +:+ b) = (a, b).
Proof.
  intros Ha Hb. induction a as [|x a IH]; push_append.
  - destruct b as [|c b]; [reflexivity |]. cbn [span_str].
    apply negb_true_iff in Hb. now rewrite Hb.
  - cbn in Ha. apply andb_true_iff in Ha as [Hx Ha].
    cbn [span_str]. now rewrite Hx, (IH Ha).
Qed.

Lemma isTwoCharOp_cases (t : string) :
  isTwoCharOp t = true -> t = "<=" \/ t = ">=" \/ t = "==" \/ t = "!=".
Proof.
  unfold isTwoCharOp. intros H.
  repeat (apply orb_true_iff in H as [H | H]);
    apply String.eqb_eq in H; subst t; tauto.
Qed.

Lemma isSingleSymbol_cases (t : string) :
  isSingleSymbol t = true ->
  exists c, t = String c "" /\ isSymbolChar c = true /\ isspace c = false.
Proof.
  unfold isSingleSymbol. intros H.
  repeat (apply orb_true_iff in H as [H | H]);
    apply String.eqb_eq in H; subst t; eexists; repeat split.
Qed.

(** [tokenizeExpr] finds the tokens of such a text. *)
Lemma tokenizeExpr_loop_lexes (s : string) (ts : list string) :
  lexes s ts ->
  forall fuel, size s <= fuel -> tokenizeExpr_loop fuel s = ts.
Proof.
  induction 1 as [| c s ts Hc _ IH | ds s ts Hds Hs _ IH | t s ts Ht _ IH
                  | t s ts Ht Htwo _ IH]; intros fuel Hfuel.
  - now destruct fuel.
  - rewrite size_cons in Hfuel. destruct fuel as [|fuel]; [lia |].
    cbn [tokenizeExpr_loop]. rewrite Hc. apply IH. lia.
  - unfold isNumber in Hds. apply andb_true_iff in Hds as [Hne Hall].
    destruct ds as [|c ds]; [discriminate |].
    cbn in Hall. apply andb_true_iff in Hall as [Hc Hall].
    rewrite append_cons in *. rewrite size_cons, size_append in Hfuel.
    destruct fuel as [|fuel]; [lia |].
    cbn [tokenizeExpr_loop].
    assert (Hcls : isspace c = false /\ isSymbolChar c = false
                   /\ isTwoCharOp (take_str 2 (String c (ds +:+ s))) = false).
    { destruct c as [[] [] [] [] [] [] [] []]; try discriminate Hc;
        repeat split; destruct (ds +:+ s); reflexivity. }
    destruct Hcls as (-> & -> & ->). rewrite andb_false_r, Hc. cbn [orb].
    rewrite (span_str_until isdigit ds s Hall Hs). f_equal. apply IH. lia.
  - assert (Ht2 : exists a b, t = String a (String b "")
                              /\ isspace a = false).
    { destruct (isTwoCharOp_cases t Ht) as [-> | [-> | [-> | ->]]];
        do 2 eexists; split; reflexivity. }
    destruct Ht2 as (a & b & -> & Ha).
    rewrite !append_cons, append_nil_l in *. rewrite !size_cons in Hfuel.
    destruct fuel as [|fuel]; [lia |].
    cbn [tokenizeExpr_loop]. rewrite Ha.
    cbn [take_str drop_str]. rewrite Ht, !size_cons. cbn [Nat.leb andb].
    f_equal. apply IH. lia.
  - destruct (isSingleSymbol_cases t Ht) as (c & -> & Hsym & Hsp).
    rewrite append_cons, append_nil_l in *. rewrite size_cons in Hfuel.
    destruct fuel as [|fuel]; [lia |].
    cbn [tokenizeExpr_loop]. rewrite Hsp, Htwo, andb_false_r, Hsym.
    f_equal. apply IH. lia.
Qed.

Lemma tokenizeExpr_lexes (s : string) (ts : list string) :
  lexes s ts -> tokenizeExpr s = ts.
Proof. intros H. now apply tokenizeExpr_loop_lexes. Qed.

(** X9.  A text of unsigned numbers, the ten binary operators and
    parentheses that reads as [e], with every value inside the range of
    [long long], evaluates to the value of [e] in integer arithmetic,
    narrowed to [int]: multiplication and division bind tighter than
    addition and subtraction, these tighter than the comparisons, and each
    tier associates to the left. *)
Theorem unsigned_expression_value (vars : gmap string Z)
    (boolVars : gmap string bool) (objects : gmap string (gmap string Z))
    (s : string) (ts : list string) (k : nat) (e : Expr) :
  lexes s ts -> parses k ts e -> fits e = true ->
  evalExpressionString s vars boolVars objects = Ok (to_int (denote e)).
Proof.
  intros Hlex Hp Hfit. unfold evalExpressionString.
  rewrite (tokenizeExpr_lexes s ts Hlex).
  now apply (unsigned_infix_value vars boolVars objects k).
Qed.

(** ** Assignment to a field *)

Lemma tokenizeExpr_space (c : ascii) (s : string) :
  isspace c = true -> tokenizeExpr (String c s) = tokenizeExpr s.
Proof.
  intros H. unfold tokenizeExpr. cbn [size String.length tokenizeExpr_loop].
  now rewrite H.
Qed.

(** White space in front of an expression does not count. *)
Lemma tokenizeExpr_lstrip (s : string) :
  tokenizeExpr (snd (span_str isspace s)) = tokenizeExpr s.
Proof.
  induction s as [|c s IH]; [reflexivity |]. cbn [span_str].
  destruct (isspace c) eqn:E; [| reflexivity].
  rewrite (tokenizeExpr_space _ _ E), <- IH.
  now destruct (span_str isspace s).
Qed.

(** The name and the expression of an action ["SET name expr"]. *)
Lemma splitNameExpr_shape (name expr : string) :
  no_space name = true ->
  splitNameExpr (name +:+ " " +:+ expr) = (name, snd (span_str isspace expr)).
Proof.
  intros H. unfold splitNameExpr. rewrite append_cons, append_nil_l.
  rewrite (span_str_no_space _ _ H). cbn [span_str].
  rewrite isspace_space. now destruct (span_str isspace expr).
Qed.

Lemma storeField_fresh (inst field : string) (val : Z)
    (objects : gmap string (gmap string Z)) :
  objects !! inst = None ->
  storeField inst field val objects = <[inst := {[field := val]}]> objects.
Proof.
  intros H. unfold storeField. rewrite H. cbn [default].
  now rewrite insert_empty.
Qed.

(** The step of the action list at [set obj.field = expr] for a name [obj]
    that the object table does not have. *)
Lemma set_field_step (depth : nat) (obj field expr : string)
    (rest : list string) (st : RunState) (val : Z) :
  no_space obj = true -> find_char "." obj = None ->
  field <> "" -> no_space field = true ->
  rs_objects st !! obj = None ->
  rs_eval expr st = Ok val ->
  runActions depth
    (("SET " +:+ obj +:+ "." +:+ field +:+ " " +:+ expr) :: rest) st
  = runActions depth rest
      (rs_set_prog
         (set_objects (<[obj := {[field := val]}]> (rs_objects st))
            (rs_prog st)) st).
Proof.
  intros Hobj Hdot Hf Hfield Hnone Hval.
  cbn [runActions].
  replace (starts_with "SET " _) with true by reflexivity.
  replace (drop_str 4 _) with ((obj +:+ "." +:+ field) +:+ " " +:+ expr)
    by (now rewrite !append_assoc).
  rewrite splitNameExpr_shape
    by (apply no_space_append; [exact Hobj |];
        now apply (no_space_append "." field)).
  unfold rs_eval in *. unfold evalExpressionString in *.
  rewrite tokenizeExpr_lstrip, Hval.
  unfold rs_assign. rewrite (splitDot_dotted _ _ Hdot).
  apply String.eqb_neq in Hf. rewrite Hf. cbn [negb].
  now rewrite (storeField_fresh _ _ _ _ Hnone).
Qed.

(** C10.  [set obj.field = expr] for a name [obj] that the object table
    does not have: the action does not fail and writes nothing; the state
    it leaves has an object [obj] whose only field is [field] with the
    value of the expression, the other objects as they were and the table
    of instance classes as before, so that [obj] has no class; the actions
    that follow run in that state. *)
Theorem set_field_of_unknown_object (depth : nat) (obj field expr : string)
    (rest : list string) (st : RunState) (val : Z) :
  no_space obj = true -> find_char "." obj = None ->
  field <> "" -> no_space field = true ->
  rs_objects st !! obj = None ->
  rs_eval expr st = Ok val ->
  exists st',
    runActions depth [("SET " +:+ obj +:+ "." +:+ field +:+ " " +:+ expr)] st
    = Done (Fall, st')
    /\ rs_objects st' !! obj = Some {[field := val]}
    /\ (forall other, other <> obj ->
          rs_objects st' !! other = rs_objects st !! other)
    /\ p_instanceClass (rs_prog st') = p_instanceClass (rs_prog st)
    /\ rs_vars st' = rs_vars st /\ rs_boolVars st' = rs_boolVars st
    /\ rs_trace st' = rs_trace st
    /\ runActions depth
         (("SET " +:+ obj +:+ "." +:+ field +:+ " " +:+ expr) :: rest) st
       = runActions depth rest st'.
Proof.
  intros Hobj Hdot Hf Hfield Hnone Hval.
  exists (rs_set_prog
            (set_objects (<[obj := {[field := val]}]> (rs_objects st))
               (rs_prog st)) st).
  split; [exact (set_field_step depth obj field expr [] st val
                   Hobj Hdot Hf Hfield Hnone Hval) |].
  split; [apply lookup_insert_eq |].
  split; [intros other Hother; apply lookup_insert_ne; congruence |].
  repeat (split; [reflexivity |]).
  exact (set_field_step depth obj field expr rest st val
           Hobj Hdot Hf Hfield Hnone Hval).
Qed.

(** The same assignment inside a method body creates the object in the
    method's copy of the object table, which [executeMethod] stores back
    when the body is done. *)
Lemma method_set_field_of_unknown_object
    (call : string -> string -> list Z -> Program -> list event ->
            outcome (Program * list event) (Program * list event))
    (this obj field expr : string) (rest : list string) (c : MCtx) (val : Z) :
  no_space obj = true -> find_char "." obj = None ->
  field <> "" -> no_space field = true ->
  m_objects c !! obj = None ->
  m_eval expr c = Ok val ->
  executeActionsWithContext call this
    (("SET " +:+ obj +:+ "." +:+ field +:+ " " +:+ expr) :: rest) c
  = executeActionsWithContext call this rest
      (m_set_objects (<[obj := {[field := val]}]> (m_objects c)) c).
Proof.
  intros Hobj Hdot Hf Hfield Hnone Hval.
  cbn [executeActionsWithContext].
  replace (starts_with "SET " _) with true by reflexivity.
  replace (drop_str 4 _) with ((obj +:+ "." +:+ field) +:+ " " +:+ expr)
    by (now rewrite !append_assoc).
  rewrite splitNameExpr_shape
    by (apply no_space_append; [exact Hobj |];
        now apply (no_space_append "." field)).
  unfold m_eval in *. unfold evalExpressionString in *.
  rewrite tokenizeExpr_lstrip, Hval.
  unfold m_assign. rewrite (splitDot_dotted _ _ Hdot).
  apply String.eqb_neq in Hf. rewrite Hf. cbn [negb].
  now rewrite (storeField_fresh _ _ _ _ Hnone).
Qed.

(** ** [print] *)

Lemma rfind_char_snoc (c : ascii) (s : string) :
  rfind_char c (s +:+ String c "") = Some (size s).
Proof.
  induction s as [|a s IH]; push_append; cbn [rfind_char].
  - now rewrite Ascii.eqb_refl.
  - rewrite <- (append_nil_l (String c "")) at 1.
    change ("" +:+ String c "") with (String c "").
    now rewrite IH.
Qed.

Lemma print_shape (inner : string) :
  "print(" +:+ inner +:+ ")"
  = String "p" (("rint(" +:+ inner) +:+ String ")" "").
Proof. now rewrite append_assoc. Qed.

Lemma trim_print (inner : string) :
  trim ("print(" +:+ inner +:+ ")") = "print(" +:+ inner +:+ ")".
Proof. rewrite print_shape. now apply trim_id. Qed.

(** A [print] statement is not taken for a method call: its first ["("]
    comes before any dot. *)
Lemma decodeCall_print (inner : string) :
  decodeCall ("print(" +:+ inner +:+ ")") = None.
Proof.
  unfold decodeCall.
  rewrite (find_char_none_append "." "print(" (inner +:+ ")")) by reflexivity.
  replace (find_char "(" _) with (Some 5) by reflexivity.
  destruct (find_char "." (inner +:+ ")")) as [i|]; [| reflexivity].
  cbn [fmap option_fmap option_map size String.length].
  replace (6 + i <? 5)%nat with false; [reflexivity |].
  symmetry. apply Nat.ltb_ge. lia.
Qed.

Lemma printInner_print (inner : string) :
  printInner ("print(" +:+ inner +:+ ")") = Some inner.
Proof.
  unfold printInner. replace (find_char "(" _) with (Some 5) by reflexivity.
  rewrite <- append_assoc, rfind_char_snoc, size_append.
  cbn [size String.length].
  replace (5 <? 6 + size inner)%nat with true
    by (symmetry; apply Nat.ltb_lt; lia).
  unfold substr. rewrite append_assoc.
  replace (drop_str 6 _) with (inner +:+ ")") by reflexivity.
  replace (6 + size inner - 5 - 1) with (size inner) by lia.
  now rewrite take_str_append.
Qed.

Lemma isQuoted_dq (text : string) : isQuoted (dq text) = true.
Proof.
  unfold isQuoted, dq, back. rewrite rev_str_snoc, size_append, append_cons.
  cbn [front].
  replace (2 <=? _)%nat with true
    by (symmetry; apply Nat.leb_le; cbn [size String.length]; lia).
  reflexivity.
Qed.

Lemma unquote_dq (text : string) :
  substr 1 (size (dq text) - 2) (dq text) = text.
Proof.
  unfold dq, substr. rewrite size_append, append_cons.
  cbn [drop_str size String.length].
  replace (S (String.length text) + 1 - 2) with (size text)
    by (unfold size; lia).
  apply take_str_append.
Qed.

(** The step of the action list at a [print]: [print(inner)] with [inner]
    not between double quotes evaluates [inner] and writes a line that says
    whether the value is 0, "false" for 0 and "true" for any other value,
    not the value; an action that still has its quotes writes the text
    between them. *)
Lemma print_statement (depth : nat) (inner text : string)
    (rest : list string) (st : RunState) (val : Z) :
  isQuoted inner = false ->
  rs_eval inner st = Ok val ->
  runActions depth (("STMT print(" +:+ inner +:+ ")") :: rest) st
  = runActions depth rest
      (rs_emit (Cout ((if (val =? 0)%Z then "false" else "true") +:+ nl)) st)
  /\ runActions depth (("STMT print(" +:+ dq text +:+ ")") :: rest) st
     = runActions depth rest (rs_emit (Cout (text +:+ nl)) st).
Proof.
  intros Hq Hval. split.
  - cbn [runActions].
    replace (starts_with "SET " _) with false by reflexivity.
    replace (starts_with "SIGNAL " _) with false by reflexivity.
    replace (starts_with "IF " _) with false by reflexivity.
    replace (starts_with "GOTO " _) with false by reflexivity.
    replace (_ =? "END") with false by reflexivity.
    replace (starts_with "STMT " _) with true by reflexivity.
    replace (drop_str 5 _) with ("print(" +:+ inner +:+ ")") by reflexivity.
    rewrite trim_print, decodeCall_print, printInner_print.
    replace (starts_with "new " _) with false by reflexivity.
    replace (starts_with "print(" _) with true by reflexivity.
    now rewrite Hq, Hval.
  - cbn [runActions].
    replace (starts_with "SET " _) with false by reflexivity.
    replace (starts_with "SIGNAL " _) with false by reflexivity.
    replace (starts_with "IF " _) with false by reflexivity.
    replace (starts_with "GOTO " _) with false by reflexivity.
    replace (_ =? "END") with false by reflexivity.
    replace (starts_with "STMT " _) with true by reflexivity.
    replace (drop_str 5 _) with ("print(" +:+ dq text +:+ ")") by reflexivity.
    rewrite trim_print, decodeCall_print, printInner_print.
    replace (starts_with "new " _) with false by reflexivity.
    replace (starts_with "print(" _) with true by reflexivity.
    now rewrite isQuoted_dq, unquote_dq.
Qed.

(** ** Method bodies as the parser leaves them *)

(** An action with the tag ["STMT "] has none of the other tags. *)
Lemma tagged_only_STMT (act : string) :
  isTagged act = true ->
  starts_with "SET " act = false /\ starts_with "SIGNAL " act = false
  /\ starts_with "IF " act = false /\ starts_with "GOTO " act = false
  /\ (act =? "END") = false.
Proof.
  unfold isTagged. intros H.
  destruct act as [|a act]; [discriminate H |].
  cbn [starts_with] in H. apply andb_true_iff in H as [Ha H].
  destruct act as [|b r]; [discriminate H |].
  cbn [starts_with] in H. apply andb_true_iff in H as [Hb _].
  apply Ascii.eqb_eq in Ha, Hb. subst a b. repeat split; reflexivity.
Qed.

(** Actions with the tag ["STMT "] call methods and print; the tables of
    the scope they run in are not written. *)
Lemma tagged_actions_keep_scope
    (call : string -> string -> list Z -> Program -> list event ->
            outcome (Program * list event) (Program * list event))
    (this : string) (actions : list string) :
  forallb isTagged actions = true ->
  forall (c c' : MCtx) (b : bool),
    executeActionsWithContext call this actions c = Done (b, c') ->
    m_objects c' = m_objects c /\ m_vars c' = m_vars c
    /\ m_boolVars c' = m_boolVars c.
Proof.
  induction actions as [|act actions IH]; intros Htag c c' b Hrun.
  - cbn in Hrun. injection Hrun as _ ->. auto.
  - cbn [forallb] in Htag. apply andb_true_iff in Htag as [Hact Htag].
    destruct (tagged_only_STMT act Hact) as (H1 & H2 & H3 & H4 & H5).
    cbn [executeActionsWithContext] in Hrun.
    rewrite H1, H2, H3, H4, H5 in Hrun. unfold isTagged in Hact.
    rewrite Hact in Hrun.
    repeat case_match; try discriminate;
      match goal with
      | H : executeActionsWithContext _ _ _ ?c0 = Done _ |- _ =>
          destruct (IH Htag _ _ _ H) as (-> & -> & ->); auto
      end.
Qed.

(** X19.  A method whose body is made of such actions leaves the object
    table as it found it, whatever the arguments: no field of the receiver
    changes. *)
Lemma tagged_method_keeps_objects (depth : nat) (inst method cls : string)
    (args : list Z) (prog prog' : Program) (tr tr' : list event)
    (cdef : ClassDef) (actions : list string) (fs : gmap string Z) :
  p_instanceClass prog !! inst = Some cls ->
  p_classes prog !! cls = Some cdef ->
  c_methods cdef !! method = Some actions ->
  forallb isTagged actions = true ->
  p_objects prog !! inst = Some fs ->
  executeMethod depth inst method args prog tr = Done (prog', tr') ->
  p_objects prog' = p_objects prog.
Proof.
  intros Hcls Hcdef Hm Htag Hobj Hrun.
  destruct depth as [|depth]; [discriminate |].
  cbn [executeMethod] in Hrun. rewrite Hcls, Hcdef, Hm, Hobj in Hrun.
  destruct (executeActionsWithContext _ _ _ _) as [[b c] | |] eqn:E;
    try discriminate.
  destruct (tagged_actions_keep_scope _ _ _ Htag _ _ _ E) as (Ho & _ & _).
  injection Hrun as <- _. cbn. exact Ho.
Qed.

(** X18.  [parseMethodBody] puts the tag ["STMT "] in front of every
    statement it keeps. *)
Lemma parseMethodBody_tagged (fuel : nat) :
  forall (acts res : list string) (p p' : PState),
    forallb isTagged acts = true ->
    Parser.parseMethodBody fuel acts p = POk res p' ->
    forallb isTagged res = true.
Proof.
  induction fuel as [|fuel IH]; intros acts res p p' Hacts Hrun;
    [discriminate |].
  cbn [Parser.parseMethodBody] in Hrun.
  unfold mbind, P_bind, Parser.peek in Hrun.
  destruct (Parser.isSym "}" (ps_tk p) || Parser.isKind TK_EOF (ps_tk p)).
  - injection Hrun as <- _. exact Hacts.
  - destruct (Parser.gather _ _ _ p) as [stmt p1 | |]; try discriminate.
    assert (Hnext : forallb isTagged
                      (if trim stmt =? "" then acts
                       else acts ++ ["STMT " +:+ trim stmt]) = true).
    { destruct (trim stmt =? ""); [exact Hacts |].
      rewrite forallb_app, Hacts. reflexivity. }
    destruct (Parser.isSym ";" (ps_tk p1)).
    + destruct (Parser.consume p1) as [t p2 | |]; try discriminate.
      exact (IH _ _ _ _ Hnext Hrun).
    + exact (IH _ _ _ _ Hnext Hrun).
Qed.

(** ** Worked examples *)

(** *** Expressions *)

Example tokens_precedence : tokenizeExpr "3 + 4 * 2" = ["3"; "+"; "4"; "*"; "2"].
Proof. reflexivity. Qed.

Example rpn_precedence :
  infixToRPN ["3"; "+"; "4"; "*"; "2"] = ["3"; "4"; "2"; "*"; "+"].
Proof. reflexivity. Qed.

Example rpn_left_assoc :
  infixToRPN ["10"; "-"; "3"; "-"; "2"] = ["10"; "3"; "-"; "2"; "-"].
Proof. reflexivity. Qed.

(** The reading of ["3 + 4 * 2"]: the product is the right operand of the
    sum. *)
Example precedence_reading :
  lexes "3 + 4 * 2" ["3"; "+"; "4"; "*"; "2"]
  /\ parses 0 ["3"; "+"; "4"; "*"; "2"]
       (Bin "+" (Lit "3") (Bin "*" (Lit "4") (Lit "2")))
  /\ denote (Bin "+" (Lit "3") (Bin "*" (Lit "4") (Lit "2"))) = 11%Z.
Proof.
  split; [| split; [| reflexivity]].
  - apply (lexes_number "3" " + 4 * 2"); [reflexivity | reflexivity |].
    apply lexes_space; [reflexivity |].
    apply (lexes_one "+" " 4 * 2"); [reflexivity | reflexivity |].
    apply lexes_space; [reflexivity |].
    apply (lexes_number "4" " * 2"); [reflexivity | reflexivity |].
    apply lexes_space; [reflexivity |].
    apply (lexes_one "*" " 2"); [reflexivity | reflexivity |].
    apply lexes_space; [reflexivity |].
    apply (lexes_number "2" ""); [reflexivity | reflexivity |].
    constructor.
  - apply (parses_bin 0 "+" ["3"] ["4"; "*"; "2"]);
      [reflexivity | cbn; lia | now constructor |].
    apply (parses_bin 3 "*" ["4"] ["2"]);
      [reflexivity | cbn; lia | now constructor | now constructor].
Qed.

(** The reading of ["10 - 3 - 2"]: the first difference is the left
    operand of the second. *)
Example left_association_reading :
  parses 0 ["10"; "-"; "3"; "-"; "2"]
    (Bin "-" (Bin "-" (Lit "10") (Lit "3")) (Lit "2"))
  /\ evalExpressionString "10 - 3 - 2" ∅ ∅ ∅ = Ok 5%Z.
Proof.
  split; [| reflexivity].
  apply (parses_bin 0 "-" ["10"; "-"; "3"] ["2"]);
    [reflexivity | cbn; lia | | now constructor].
  apply (parses_bin 2 "-" ["10"] ["3"]);
    [reflexivity | cbn; lia | now constructor | now constructor].
Qed.

(** The reading of ["(3 + 4) * 2"]. *)
Example parentheses_reading :
  parses 0 ["("; "3"; "+"; "4"; ")"; "*"; "2"]
    (Bin "*" (Bin "+" (Lit "3") (Lit "4")) (Lit "2")).
Proof.
  apply (parses_bin 0 "*" ["("; "3"; "+"; "4"; ")"] ["2"]);
    [reflexivity | cbn; lia | | now constructor].
  apply (parses_paren 3 ["3"; "+"; "4"]).
  apply (parses_bin 0 "+" ["3"] ["4"]);
    [reflexivity | cbn; lia | now constructor | now constructor].
Qed.

(** The branch of [tokenizeExpr] for a number with a sign comes after the
    test [strchr("+-*/()<>", c)], which takes every ['-'] and ['+'] as an
    operator of its own: a signed literal is never one token. *)
Lemma tokenizeExpr_sign_is_operator (fuel : nat) (c : ascii) (s : string) :
  (c =? "-")%char || (c =? "+")%char = true ->
  tokenizeExpr_loop (S fuel) (String c s)
  = if isTwoCharOp (take_str 2 (String c s))
    then take_str 2 (String c s)
         :: tokenizeExpr_loop fuel (drop_str 2 (String c s))
    else String c "" :: tokenizeExpr_loop fuel s.
Proof.
  intros H. cbn [tokenizeExpr_loop].
  assert (Hsp : isspace c = false /\ isSymbolChar c = true).
  { apply orb_true_iff in H as [H | H]; apply Ascii.eqb_eq in H; subst c;
      split; reflexivity. }
  destruct Hsp as [-> ->].
  destruct (isTwoCharOp (take_str 2 (String c s))) eqn:E.
  - assert (Hlen : (2 <=? size (String c s))%nat = true).
    { destruct s; [| reflexivity].
      apply orb_true_iff in H as [H | H]; apply Ascii.eqb_eq in H; subst c;
        discriminate E. }
    now rewrite Hlen.
  - now rewrite andb_false_r.
Qed.

(** C2.  The three expressions of the claim evaluate to 11, 14 and 0.  A
    literal with a sign does not: [-3] is split into the operator [-] and
    the number [3], the postfix form of [2 * -3] is [2 * 3 -], the
    multiplication finds one operand, and the evaluation returns 0 where
    integer arithmetic gives -6; [-3] alone gives 0 too. *)
Theorem signed_literal_evaluates_to_zero :
  evalExpressionString "3 + 4 * 2" ∅ ∅ ∅ = Ok 11%Z
  /\ evalExpressionString "(3 + 4) * 2" ∅ ∅ ∅ = Ok 14%Z
  /\ evalExpressionString "5 / 0" ∅ ∅ ∅ = Ok 0%Z
  /\ tokenizeExpr "2 * -3" = ["2"; "*"; "-"; "3"]
  /\ infixToRPN (tokenizeExpr "2 * -3") = ["2"; "*"; "3"; "-"]
  /\ evalExpressionString "2 * -3" ∅ ∅ ∅ = Ok 0%Z
  /\ evalExpressionString "-3" ∅ ∅ ∅ = Ok 0%Z.
Proof. repeat split; reflexivity. Qed.

(** The same from a script: the lexer reads [-3] as one number, the parser
    hands its text to the expression engine, and [x] is declared 0. *)
Example declared_negative_is_zero :
  (prog ← parsedProgram "int x = -3;"; p_vars prog !! "x") = Some 0%Z.
Proof. reflexivity. Qed.

(** *** Postfix evaluation *)

Lemma to_int_range (z : Z) : is_int (to_int z).
Proof.
  unfold is_int, to_int, wrap.
  assert (H := Z.mod_pos_bound (z + 2 ^ (32 - 1)) (2 ^ 32) eq_refl). lia.
Qed.

(** An operator gives a value, or it is the division that traps. *)
Lemma applyOp_outcome (t : string) (a b : Z) :
  match applyOp t a b with
  | Ok _ => True
  | Raise e => e = DivisionTrap /\ t = "/"
  end.
Proof.
  unfold applyOp.
  destruct (t =? "+"); [exact I |]. destruct (t =? "-"); [exact I |].
  destruct (t =? "*"); [exact I |].
  destruct (t =? "/") eqn:E.
  - apply String.eqb_eq in E. destruct (b =? 0)%Z; [exact I |].
    destruct ((a =? - 2 ^ 63)%Z && (b =? -1)%Z); [now split | exact I].
  - repeat match goal with
           | |- context [if ?c then _ else _] => destruct c
           end; exact I.
Qed.




(** The division that the source does not guard: the least [long long],
    which an expression can reach without a sign, divided by -1.  The
    tokens are readable, and the run of a script with such an initialiser
    ends in the parser. *)
Example division_trap :
  forallb readable ["-9223372036854775808"; "-1"; "/"] = true
  /\ evalRPN ∅ ∅ ∅ ["-9223372036854775808"; "-1"; "/"] = Raise DivisionTrap
  /\ evalExpressionString "(0-9223372036854775807-1)/(0-1)" ∅ ∅ ∅
     = Raise DivisionTrap
  /\ (fst <$> runSource 1 1 "int x = (0-9223372036854775807-1)/(0-1);"
               "Andrew" [])
     = Some (Crashed DivisionTrap).
Proof. repeat split; reflexivity. Qed.


(** *** Methods *)

(** The parser keeps a statement of a method body as the texts of its
    tokens put together without a blank, behind ["STMT "]. *)
Example method_body_as_parsed :
  (prog ← parsedProgram heroScript;
   cdef ← p_classes prog !! "Hero";
   c_methods cdef !! "attack")
  = Some ["STMT sethealth=health-amount"].
Proof. reflexivity. Qed.

(** C1.  The script declares [attack(amount)] with the body
    [set health = health - amount;] and calls [hero.attack(3)].  The body
    reaches the interpreter as the one statement "sethealth=health-amount",
    which is neither a call nor a [print] and is passed over: after the run
    [hero.health] is 10 as before (the claim has 7); [rival.health] is 10
    as well. *)
Theorem method_set_leaves_health :
  exists st,
    runSource 2 1 heroScript "Andrew" [] = Some (Ended, st)
    /\ rs_objects st !! "hero" = Some {[ "health" := 10%Z ]}
    /\ rs_objects st !! "rival" = Some {[ "health" := 10%Z ]}
    /\ rs_trace st = [Cout ("[Dialogue ended]" +:+ nl)].
Proof.
  eexists. split; [vm_compute; reflexivity |].
  repeat split; vm_compute; reflexivity.
Qed.

(** With such a body the field of the receiver goes down by 3 and the
    other instance keeps its value. *)
Example attack_with_SET_action :
  exists prog tr,
    executeMethod 1 "hero" "attack" [3%Z] (heroProgram ∅) [] = Done (prog, tr)
    /\ p_objects prog !! "hero" = Some {[ "health" := 47%Z ]}
    /\ p_objects prog !! "rival" = Some {[ "health" := 50%Z ]}.
Proof.
  eexists; eexists. split; [vm_compute; reflexivity |].
  split; vm_compute; reflexivity.
Qed.

(** A global variable with the name of the field shadows the field inside
    the body: the field becomes the global's value less 3 and the global
    keeps its value.  A global with the name of the parameter is
    overwritten by the argument. *)
Example attack_with_shadowing_globals :
  exists prog tr,
    executeMethod 1 "hero" "attack" [3%Z]
      (heroProgram {[ "health" := 100%Z; "amount" := 8%Z ]}) []
    = Done (prog, tr)
    /\ p_objects prog !! "hero" = Some {[ "health" := 97%Z ]}
    /\ p_vars prog !! "health" = Some 100%Z
    /\ p_vars prog !! "amount" = Some 3%Z.
Proof.
  eexists; eexists. split; [vm_compute; reflexivity |].
  repeat split; vm_compute; reflexivity.
Qed.

(** *** Shared state *)

(** A [SET] of a bare name in a node writes the tables of the run and
    leaves the program, from which [executeMethod] takes the globals,
    alone. *)
Lemma rs_assign_bare_keeps_prog (name : string) (val : Z) (st : RunState) :
  find_char "." name = None ->
  rs_prog (rs_assign name val st) = rs_prog st.
Proof.
  intros H. unfold rs_assign, splitDot. rewrite H. cbn [negb String.eqb].
  now destruct (bool_decide _).
Qed.

(** A field written by a node is in the program's object table at once. *)
Lemma rs_assign_field_shared (inst field : string) (val : Z) (st : RunState) :
  find_char "." inst = None -> field <> "" ->
  p_objects (rs_prog (rs_assign (inst +:+ "." +:+ field) val st))
  = storeField inst field val (p_objects (rs_prog st)).
Proof.
  intros Hdot Hf. unfold rs_assign. rewrite (splitDot_dotted _ _ Hdot).
  apply String.eqb_neq in Hf. now rewrite Hf.
Qed.

(** The two tables of booleans in one node: [set] writes the run's copy
    and [show] reads the program's, so the flag just set is shown as it
    was. *)
Example show_reads_program_booleans :
  (rs_trace ∘ snd <$>
     runSource 2 1
       ("match flag = false;
         node S { set flag = 1; show " +:+ dq "${flag}" +:+ "; print(flag); }")
       "Andrew" [])
  = Some [Cout ("false" +:+ nl); Cout ("true" +:+ nl);
          Cout ("[End of Conversation]" +:+ nl)].
Proof. reflexivity. Qed.

(** C3.  The node sets the global [x] to 1 and then calls a method that
    prints [x]: the method prints "false", the value 0 the program was
    loaded with, and the [print(x)] of the node that follows prints "true".
    At the end the table of the run has [x = 1] and the table of the
    program, the one methods read, still has [x = 0]. *)
Theorem node_set_not_seen_by_method :
  exists st,
    runSource 2 1 probeScript "Andrew" [] = Some (Ended, st)
    /\ rs_trace st = [Cout ("false" +:+ nl); Cout ("true" +:+ nl);
                      Cout ("[Dialogue ended]" +:+ nl)]
    /\ rs_vars st !! "x" = Some 1%Z
    /\ p_vars (rs_prog st) !! "x" = Some 0%Z.
Proof.
  eexists. split; [vm_compute; reflexivity |].
  repeat split; vm_compute; reflexivity.
Qed.

(** *** Jumps, choices, [END] *)

Example if_action_as_parsed :
  (prog ← parsedProgram (duelScript "0");
   node ← p_nodes prog !! "Start";
   Some (n_actions node))
  = Some ["IF hp<=0 GOTO Dead ELSE Alive"; "STMT print(hp)"].
Proof. reflexivity. Qed.

Example duel_dead :
  (rs_trace ∘ snd <$> runSource 3 1 (duelScript "0") "Andrew" [])
  = Some [Cout ("dead" +:+ nl); Cout ("[Dialogue ended]" +:+ nl)].
Proof. reflexivity. Qed.

Example duel_alive :
  (rs_trace ∘ snd <$> runSource 3 1 (duelScript "5") "Andrew" [])
  = Some [Cout ("alive" +:+ nl); Cout ("[Dialogue ended]" +:+ nl)].
Proof. reflexivity. Qed.

(** C4.  The condition of [if (GOTO) goto Then else goto Else;] is a
    variable with the value 1, and the claim has the run go to [Then].
    The parser stores the statement as "IF GOTO GOTO Then ELSE Else" and
    the interpreter cuts the action at the first " GOTO ", which is the
    condition itself: what it evaluates is "GOTO GOTO Then ELSE Else",
    whose value is that of the last name, 0, and the run goes to [Else]. *)
Theorem condition_named_GOTO :
  (prog ← parsedProgram gotoScript;
   node ← p_nodes prog !! "Start";
   Some (p_vars prog !! "GOTO", n_actions node))
  = Some (Some 1%Z, ["IF GOTO GOTO Then ELSE Else"])
  /\ evalExpressionString "GOTO" {[ "GOTO" := 1%Z ]} ∅ ∅ = Ok 1%Z
  /\ decodeIf "IF GOTO GOTO Then ELSE Else"
     = Some ("GOTO GOTO Then ELSE Else", "GOTO Then", "Else")
  /\ evalExpressionString "GOTO GOTO Then ELSE Else" {[ "GOTO" := 1%Z ]} ∅ ∅
     = Ok 0%Z
  /\ exists st,
       runSource 2 0 gotoScript "Andrew" [] = Some (Ended, st)
       /\ rs_trace st
          = [Cout ("else" +:+ nl); Cout ("[Dialogue ended]" +:+ nl)].
Proof.
  split; [reflexivity |]. split; [reflexivity |]. split; [reflexivity |].
  split; [reflexivity |].
  eexists. split; [vm_compute; reflexivity |]. vm_compute. reflexivity.
Qed.

Lemma if_goto_else_semantics_witness :
  (no_space "hp<=0" = true /\ "hp<=0" <> "GOTO" /\ no_space "Dead" = true
   /\ "Alive" <> "" /\ rs_eval "hp<=0" (hpState 0) = Ok 1%Z
   /\ rs_eval "hp<=0" (hpState 5) = Ok 0%Z)
  /\ runActions 0 ["IF hp<=0 GOTO Dead ELSE Alive"; "STMT print(hp)"]
       (hpState 0) = Done (Jump "Dead", hpState 0)
  /\ runActions 0 ["IF hp<=0 GOTO Dead ELSE Alive"; "STMT print(hp)"]
       (hpState 5) = Done (Jump "Alive", hpState 5)
  /\ runActions 0 ["IF hp<=0 GOTO Dead"; "STMT print(hp)"] (hpState 5)
     = runActions 0 ["STMT print(hp)"] (hpState 5).
Proof.
  assert (H1 : no_space "hp<=0" = true) by reflexivity.
  assert (H2 : "hp<=0" <> "GOTO") by discriminate.
  assert (H3 : no_space "Dead" = true) by reflexivity.
  assert (H4 : "Alive" <> "") by discriminate.
  assert (H5 : rs_eval "hp<=0" (hpState 0) = Ok 1%Z) by reflexivity.
  assert (H6 : rs_eval "hp<=0" (hpState 5) = Ok 0%Z) by reflexivity.
  split; [repeat split; assumption |].
  split; [| split].
  - exact (proj1 (if_goto_else_semantics 0 "hp<=0" "Dead" "Alive"
                    ["STMT print(hp)"] (hpState 0) 1 H1 H2 H3 H4 H5)).
  - exact (proj1 (if_goto_else_semantics 0 "hp<=0" "Dead" "Alive"
                    ["STMT print(hp)"] (hpState 5) 0 H1 H2 H3 H4 H6)).
  - exact (proj2 (if_goto_else_semantics 0 "hp<=0" "Dead" "Alive"
                    ["STMT print(hp)"] (hpState 5) 0 H1 H2 H3 H4 H6)).
Defined.

Lemma choices_preempt_actions_witness :
  (p_nodes (rs_prog (crossroadsState [None; Some 7%Z; Some 2%Z; Some 1%Z]))
     !! "Crossroads" = Some crossroads
   /\ n_choices crossroads <> []
   /\ forallb (isRejected (n_choices crossroads)) [None; Some 7%Z] = true
   /\ isDeclared 2 (n_choices crossroads) = true)
  /\ runLoop 2 0 "Andrew" "Crossroads"
       (crossroadsState [None; Some 7%Z; Some 2%Z; Some 1%Z])
     = (UnknownNode,
        mkRunState (set_nodes {[ "Crossroads" := crossroads ]} emptyProgram)
          ∅ ∅ [Some 1%Z]
          [Cout ("Which way?" +:+ nl); Cout ("[1] A" +:+ nl);
           Cout ("[2] B" +:+ nl);
           Cout "Choose: "; Cout ("Invalid" +:+ nl);
           Cout "Choose: "; Cout ("Invalid choice" +:+ nl);
           Cout "Choose: "; Cerr ("Unknown node: NodeB" +:+ nl)]).
Proof.
  assert (H1 : p_nodes (rs_prog (crossroadsState
                                   [None; Some 7%Z; Some 2%Z; Some 1%Z]))
               !! "Crossroads" = Some crossroads) by reflexivity.
  assert (H2 : n_choices crossroads <> []) by discriminate.
  assert (H3 : forallb (isRejected (n_choices crossroads)) [None; Some 7%Z]
               = true) by reflexivity.
  assert (H4 : isDeclared 2 (n_choices crossroads) = true) by reflexivity.
  split; [repeat split; assumption |].
  destruct (choices_preempt_actions 0 0 "Andrew" "Crossroads" crossroads
              (crossroadsState [None; Some 7%Z; Some 2%Z; Some 1%Z])
              [None; Some 7%Z] [Some 1%Z] 2 H1 H2 H3 H4 eq_refl)
    as (c & Hin & Hid & _ & _ & Hunknown).
  assert (Hc : c = mkChoice 2 "B" "NodeB").
  { destruct Hin as [<- | [<- | []]]; [discriminate Hid | reflexivity]. }
  subst c. rewrite (Hunknown eq_refl). reflexivity.
Defined.

(** The visit of the example, run: the operator is asked three times and
    the run goes on in [NodeB], which this program does not have. *)
Example crossroads_run :
  exists st,
    runLoop 2 0 "Andrew" "Crossroads"
      (crossroadsState [None; Some 7%Z; Some 2%Z; Some 1%Z])
    = (UnknownNode, st)
    /\ rs_vars st !! "visited" = None
    /\ rs_cin st = [Some 1%Z]
    /\ rs_trace st
       = [Cout ("Which way?" +:+ nl); Cout ("[1] A" +:+ nl);
          Cout ("[2] B" +:+ nl);
          Cout "Choose: "; Cout ("Invalid" +:+ nl);
          Cout "Choose: "; Cout ("Invalid choice" +:+ nl);
          Cout "Choose: "; Cerr ("Unknown node: NodeB" +:+ nl)].
Proof.
  eexists. split; [vm_compute; reflexivity |].
  repeat split; vm_compute; reflexivity.
Qed.

Lemma end_action_halts_run_witness :
  (p_nodes (rs_prog lastWordsState) !! "Last" = Some lastWords
   /\ n_choices lastWords = []
   /\ n_actions lastWords = ["SET x 1"] ++ "END" :: ["GOTO Other"; "SET x 2"]
   /\ runActions 1 ["SET x 1"] (afterLine "Andrew" lastWords lastWordsState)
      = Done (Fall, rs_assign "x" 1 lastWordsState))
  /\ runLoop 1 1 "Andrew" "Last" lastWordsState
     = (Ended, rs_emit (Cout ("[Dialogue ended]" +:+ nl))
                 (rs_assign "x" 1 lastWordsState)).
Proof.
  assert (H1 : p_nodes (rs_prog lastWordsState) !! "Last" = Some lastWords)
    by reflexivity.
  assert (H2 : n_choices lastWords = []) by reflexivity.
  assert (H3 : n_actions lastWords
               = ["SET x 1"] ++ "END" :: ["GOTO Other"; "SET x 2"])
    by reflexivity.
  assert (H4 : runActions 1 ["SET x 1"]
                 (afterLine "Andrew" lastWords lastWordsState)
               = Done (Fall, rs_assign "x" 1 lastWordsState)) by reflexivity.
  split; [repeat split; assumption |].
  exact (end_action_halts_run 0 1 "Andrew" "Last" lastWords ["SET x 1"]
           ["GOTO Other"; "SET x 2"] lastWordsState
           (rs_assign "x" 1 lastWordsState) H1 H2 H3 H4).
Defined.

Example end_in_the_middle_as_parsed :
  (prog ← parsedProgram
            "node Last { set x = 1; end; goto Other; set x = 2; }";
   node ← p_nodes prog !! "Last";
   Some (n_actions node))
  = Some (n_actions lastWords).
Proof. reflexivity. Qed.

(** *** Fields and [print] *)

Lemma dotted_reference_value_witness :
  (isIdentStart (front "hero") = true /\ all_chars isIdentChar "hero" = true
   /\ find_char "." "hero" = None /\ "health" <> ""
   /\ all_chars isIdentChar "health" = true)
  /\ evalRPN_loop ∅ ∅ heroObjects ["hero.health"; "3"; "-"] []
     = evalRPN_loop ∅ ∅ heroObjects ["3"; "-"] [10%Z]
  /\ evalExpressionString "hero.health" ∅ ∅ heroObjects = Ok 10%Z
  /\ evalExpressionString "hero.mana" ∅ ∅ heroObjects = Ok 0%Z
  /\ evalExpressionString "ghost.health" ∅ ∅ heroObjects = Ok 0%Z.
Proof.
  assert (H1 : isIdentStart (front "hero") = true) by reflexivity.
  assert (H2 : all_chars isIdentChar "hero" = true) by reflexivity.
  assert (H3 : find_char "." "hero" = None) by reflexivity.
  assert (H4 : "health" <> "") by discriminate.
  assert (H5 : all_chars isIdentChar "health" = true) by reflexivity.
  assert (H6 : "mana" <> "") by discriminate.
  assert (H7 : all_chars isIdentChar "mana" = true) by reflexivity.
  assert (G1 : isIdentStart (front "ghost") = true) by reflexivity.
  assert (G2 : all_chars isIdentChar "ghost" = true) by reflexivity.
  assert (G3 : find_char "." "ghost" = None) by reflexivity.
  split; [repeat split; assumption |].
  split; [| split; [| split]].
  - exact (proj1 (dotted_reference_value ∅ ∅ heroObjects "hero" "health"
                    ["3"; "-"] [] H1 H2 H3 H4 H5)).
  - exact (proj2 (dotted_reference_value ∅ ∅ heroObjects "hero" "health"
                    [] [] H1 H2 H3 H4 H5)).
  - exact (proj2 (dotted_reference_value ∅ ∅ heroObjects "hero" "mana"
                    [] [] H1 H2 H3 H6 H7)).
  - exact (proj2 (dotted_reference_value ∅ ∅ heroObjects "ghost" "health"
                    [] [] G1 G2 G3 H4 H5)).
Defined.

Lemma set_field_of_unknown_object_witness :
  (no_space "ghost" = true /\ find_char "." "ghost" = None /\ "hp" <> ""
   /\ no_space "hp" = true /\ rs_objects emptyState !! "ghost" = None
   /\ rs_eval "2+3" emptyState = Ok 5%Z)
  /\ exists st',
       runActions 0 ["SET ghost.hp 2+3"] emptyState = Done (Fall, st')
       /\ rs_objects st' !! "ghost" = Some {[ "hp" := 5%Z ]}
       /\ p_instanceClass (rs_prog st') !! "ghost" = None
       /\ rs_trace st' = []
       /\ runActions 0 ["SET ghost.hp 2+3"; "END"] emptyState
          = Done (EndRun, rs_emit (Cout ("[Dialogue ended]" +:+ nl)) st')
       /\ st' = mkRunState
                  (set_objects {[ "ghost" := {[ "hp" := 5%Z ]} ]}
                     emptyProgram) ∅ ∅ [] [].
Proof.
  assert (H1 : no_space "ghost" = true) by reflexivity.
  assert (H2 : find_char "." "ghost" = None) by reflexivity.
  assert (H3 : "hp" <> "") by discriminate.
  assert (H4 : no_space "hp" = true) by reflexivity.
  assert (H5 : rs_objects emptyState !! "ghost" = None) by reflexivity.
  assert (H6 : rs_eval "2+3" emptyState = Ok 5%Z) by reflexivity.
  split; [repeat split; assumption |].
  destruct (set_field_of_unknown_object 0 "ghost" "hp" "2+3" ["END"]
              emptyState 5 H1 H2 H3 H4 H5 H6)
    as (st' & Hrun & Hobj & _ & Hcls & _ & _ & Htr & Hrest).
  exists st'. split; [exact Hrun |]. split; [exact Hobj |].
  split; [now rewrite Hcls |]. split; [exact Htr |].
  split; [exact Hrest |].
  assert (E : Done (Fall, st')
              = @Done (NodeFlow * RunState) RunState
                  (Fall,
                   mkRunState
                     (set_objects {[ "ghost" := {[ "hp" := 5%Z ]} ]}
                        emptyProgram) ∅ ∅ [] []))
    by (rewrite <- Hrun; reflexivity).
  now injection E.
Defined.

Example ghost_from_script :
  exists st,
    runSource 2 1 "node S { set ghost.hp = 2 + 3; end; }" "Andrew" []
    = Some (Ended, st)
    /\ rs_objects st !! "ghost" = Some {[ "hp" := 5%Z ]}
    /\ p_instanceClass (rs_prog st) !! "ghost" = None.
Proof.
  eexists. split; [vm_compute; reflexivity |].
  split; vm_compute; reflexivity.
Qed.

(** C9.  The claim has [print(hp)] write 5, [print(hp - 5)] write 0 and
    [print("hello")] write hello.  The run writes "true", "false" and
    "false": the value goes out as a truth value, as in [SIGNAL], where
    the older variant of the interpreter writes the number; and the lexer
    has taken the quotes of the literal away, so that the statement reads
    [print(hello)] and prints the truth value of a variable of that
    name. *)
Theorem print_writes_truth_text :
  (prog ← parsedProgram printScript;
   node ← p_nodes prog !! "Start";
   Some (n_actions node))
  = Some ["STMT print(hp)"; "STMT print(hp-5)"; "STMT print(hello)"; "END"]
  /\ evalExpressionString "hp" {[ "hp" := 5%Z ]} ∅ ∅ = Ok 5%Z
  /\ evalExpressionString "hp-5" {[ "hp" := 5%Z ]} ∅ ∅ = Ok 0%Z
  /\ exists st,
       runSource 2 0 printScript "Andrew" [] = Some (Ended, st)
       /\ rs_trace st
          = [Cout ("true" +:+ nl); Cout ("false" +:+ nl);
             Cout ("false" +:+ nl); Cout ("[Dialogue ended]" +:+ nl)].
Proof.
  split; [reflexivity |]. split; [reflexivity |]. split; [reflexivity |].
  eexists. split; [vm_compute; reflexivity |]. vm_compute. reflexivity.
Qed.

(** One action, by itself: [print(5)] writes "true", not 5. *)
Lemma print_writes_truth_not_value :
  rs_eval "5" emptyState = Ok 5%Z
  /\ runActions 0 ["STMT print(5)"] emptyState
     = Done (Fall, rs_emit (Cout ("true" +:+ nl)) emptyState)
  /\ runActions 0 ["STMT print(5)"] emptyState
     <> Done (Fall, rs_emit (Cout (pretty 5%Z +:+ nl)) emptyState).
Proof.
  split; [reflexivity |]. split; [reflexivity |].
  intros H. vm_compute in H. discriminate H.
Qed.

Lemma print_statement_witness :
  (isQuoted "hp" = false /\ rs_eval "hp" (hpState 5) = Ok 5%Z)
  /\ runActions 0 ["STMT print(hp)"] (hpState 5)
     = runActions 0 [] (rs_emit (Cout ("true" +:+ nl)) (hpState 5))
  /\ runActions 0 [("STMT print(" +:+ dq "hello" +:+ ")")] (hpState 5)
     = runActions 0 [] (rs_emit (Cout ("hello" +:+ nl)) (hpState 5)).
Proof.
  assert (H1 : isQuoted "hp" = false) by reflexivity.
  assert (H2 : rs_eval "hp" (hpState 5) = Ok 5%Z) by reflexivity.
  split; [split; assumption |].
  exact (print_statement 0 "hp" "hello" [] (hpState 5) 5 H1 H2).
Defined.

(** What the parser makes of [print("hello")]: the lexer has taken the
    quotes away, and the statement prints the truth value of a variable
    named [hello]. *)
Example print_literal_as_parsed :
  (prog ← parsedProgram ("node S { print(" +:+ dq "hello" +:+ "); }");
   node ← p_nodes prog !! "S";
   Some (n_actions node))
  = Some ["STMT print(hello)"].
Proof. reflexivity. Qed.

(** * Further properties

    ** The expression engine *)

(** X3.  The tokens that [isOperator] accepts are the tokens to which
    [precedence] gives a level other than 0. *)
Theorem operators_have_precedence (s : string) :
  isOperator s = negb (precedence s =? 0)%nat.
Proof.
  unfold isOperator, precedence.
  destruct (s =? "=="), (s =? "!="), (s =? "<"), (s =? "<="), (s =? ">"),
    (s =? ">="), (s =? "+"), (s =? "-"), (s =? "*"), (s =? "/"); reflexivity.
Qed.

Lemma find_char_split (c : ascii) (s : string) (pos : nat) :
  find_char c s = Some pos ->
  s = take_str pos s +:+ String c (drop_str (S pos) s)
  /\ find_char c (take_str pos s) = None.
Proof.
  revert pos. induction s as [|a s IH]; intros pos H; [discriminate |].
  cbn [find_char] in H. destruct (a =? c)%char eqn:E.
  - injection H as <-. apply Ascii.eqb_eq in E. subst a. now split.
  - destruct (find_char c s) as [i|] eqn:F; [| discriminate].
    injection H as <-. destruct (IH i eq_refl) as [H1 H2].
    cbn [take_str drop_str]. rewrite append_cons. split.
    + f_equal. exact H1.
    + cbn [find_char]. now rewrite E, H2.
Qed.

(** X2.  [splitDot] cuts at the first dot: the first part holds no dot; when
    [s] has no dot the parts are [s] and the empty text, and when it has one
    the two parts with a dot between them are [s]. *)
Theorem splitDot_join (s : string) :
  let '(a, b) := splitDot s in
  find_char "." a = None
  /\ match find_char "." s with
     | None => a = s /\ b = ""
     | Some _ => s = a +:+ "." +:+ b
     end.
Proof.
  unfold splitDot. destruct (find_char "." s) as [pos|] eqn:E.
  - destruct (find_char_split _ _ _ E) as [H1 H2]. split; [exact H2 |].
    now rewrite append_cons, append_nil_l.
  - auto.
Qed.

Lemma span_str_spec (p : ascii -> bool) (s : string) :
  s = fst (span_str p s) +:+ snd (span_str p s)
  /\ all_chars p (fst (span_str p s)) = true
  /\ match snd (span_str p s) with
     | String c _ => p c = false
     | "" => True
     end.
Proof.
  induction s as [|c s IH]; [now cbn |].
  cbn [span_str]. destruct (p c) eqn:E.
  - destruct (span_str p s) as [a b]. cbn [fst snd] in *.
    destruct IH as (H1 & H2 & H3). rewrite append_cons. repeat split.
    + now f_equal.
    + cbn [all_chars]. now rewrite E, H2.
    + exact H3.
  - cbn [fst snd all_chars]. now rewrite append_nil_l.
Qed.

Lemma rev_str_append (a b : string) :
  rev_str (a +:+ b) = rev_str b +:+ rev_str a.
Proof.
  unfold rev_str. rewrite list_ascii_of_append, rev_app_distr.
  generalize (rev (list_ascii_of_string b)) as x.
  generalize (rev (list_ascii_of_string a)) as y.
  intros y x. induction x as [|c x IH]; [reflexivity |].
  cbn [app string_of_list_ascii]. rewrite append_cons. now f_equal.
Qed.

Lemma all_chars_list (p : ascii -> bool) (s : string) :
  all_chars p s = forallb p (list_ascii_of_string s).
Proof. induction s as [|c s IH]; [reflexivity |]. cbn. now rewrite IH. Qed.

Lemma all_chars_rev (p : ascii -> bool) (s : string) :
  all_chars p (rev_str s) = all_chars p s.
Proof.
  rewrite !all_chars_list. unfold rev_str.
  rewrite list_ascii_of_string_of_list_ascii.
  apply eq_true_iff_eq. rewrite !forallb_forall.
  split; intros H x Hx; apply H; [now apply in_rev in Hx | now apply in_rev].
Qed.

Lemma front_append (a b : string) :
  a <> "" -> front (a +:+ b) = front a.
Proof. destruct a as [|c a]; [contradiction | reflexivity]. Qed.

Lemma span_isspace_front (t : string) :
  isspace (front t) = false -> span_str isspace t = ("", t).
Proof. destruct t as [|c t]; [reflexivity |]. cbn. now intros ->. Qed.

(** A text that neither begins nor ends with white space is its own
    [trim]. *)
Lemma trim_fixed (t : string) :
  isspace (front t) = false -> isspace (back t) = false -> trim t = t.
Proof.
  intros Hf Hb. unfold trim. rewrite (span_isspace_front _ Hf). cbn [snd].
  unfold back in Hb. rewrite (span_isspace_front _ Hb). cbn [snd].
  apply rev_str_involutive.
Qed.

Lemma trim_ends (s : string) :
  (exists l r, s = l +:+ trim s +:+ r
               /\ all_chars isspace l = true /\ all_chars isspace r = true)
  /\ isspace (front (trim s)) = false
  /\ isspace (back (trim s)) = false.
Proof.
  destruct (span_str_spec isspace s) as (Hs & Hl & Hs1).
  destruct (span_str_spec isspace (rev_str (snd (span_str isspace s))))
    as (Hr & Hr' & Hs2).
  unfold trim.
  set (l := fst (span_str isspace s)) in *.
  set (s1 := snd (span_str isspace s)) in *.
  set (r' := fst (span_str isspace (rev_str s1))) in *.
  set (s2 := snd (span_str isspace (rev_str s1))) in *.
  assert (Es1 : s1 = rev_str s2 +:+ rev_str r').
  { rewrite <- (rev_str_involutive s1), Hr. apply rev_str_append. }
  assert (Hback : isspace (back (rev_str s2)) = false).
  { unfold back. rewrite rev_str_involutive.
    destruct s2 as [|c s2]; [reflexivity | exact Hs2]. }
  assert (Hfront : isspace (front (rev_str s2)) = false).
  { destruct (rev_str s2) as [|c t] eqn:E; [reflexivity |].
    rewrite Es1, append_cons in Hs1. exact Hs1. }
  split; [| split; [exact Hfront | exact Hback]].
  exists l, (rev_str r'). split; [| split].
  - now rewrite <- Es1.
  - exact Hl.
  - now rewrite all_chars_rev.
Qed.

Lemma trim_idempotent (s : string) : trim (trim s) = trim s.
Proof.
  destruct (trim_ends s) as (_ & Hf & Hb). now apply trim_fixed.
Qed.

(** X1.  [trim] takes white space, and nothing else, from the two ends: the
    text is the trimmed text between two runs of white space, the trimmed
    text neither begins nor ends with white space, and trimming it again
    changes nothing. *)
Theorem trim_strips_white_space (s : string) :
  (exists l r, s = l +:+ trim s +:+ r
               /\ all_chars isspace l = true /\ all_chars isspace r = true)
  /\ isspace (front (trim s)) = false
  /\ isspace (back (trim s)) = false
  /\ trim (trim s) = trim s.
Proof.
  destruct (trim_ends s) as (Hcut & Hf & Hb).
  split; [exact Hcut |]. split; [exact Hf |]. split; [exact Hb |].
  now apply trim_fixed.
Qed.

Lemma looksNumeric_reads (t : string) :
  looksNumeric t = true -> exists z, read_number t = Some z.
Proof.
  destruct t as [|c0 r]; [discriminate |]. cbn [looksNumeric]. intros H.
  unfold read_number.
  destruct (isdigit c0) eqn:D.
  - replace (match String c0 r with
             | String "-" r0 => (true, r0)
             | String "+" r0 => (false, r0)
             | _ => (false, String c0 r)
             end) with (false, String c0 r)
      by (destruct c0 as [[] [] [] [] [] [] [] []]; try discriminate D;
          reflexivity).
    cbn [span_str]. rewrite D. destruct (span_str isdigit r). cbn [fst].
    eauto.
  - cbn [orb] in H. apply andb_true_iff in H as [Hs Hd].
    destruct r as [|c1 r]; [discriminate |].
    apply orb_true_iff in Hs as [Hs | Hs]; apply Ascii.eqb_eq in Hs; subst c0;
      cbn [span_str]; rewrite Hd; destruct (span_str isdigit r); cbn [fst];
      eauto.
Qed.

Lemma operandValue_outcome (vars : gmap string Z) (boolVars : gmap string bool)
    (objects : gmap string (gmap string Z)) (t : string) :
  match operandValue vars boolVars objects t with
  | Ok _ => True
  | Raise e => e = OutOfRange
  end.
Proof.
  unfold operandValue. destruct (looksNumeric t) eqn:E.
  - destruct (looksNumeric_reads t E) as [z Hz]. unfold stoll. rewrite Hz.
    now destruct (in_ll z).
  - destruct (t =? "true"); [exact I |]. destruct (t =? "false"); [exact I |].
    destruct (splitDot t). now destruct (negb _).
Qed.

Lemma evalRPN_loop_outcome (vars : gmap string Z)
    (boolVars : gmap string bool) (objects : gmap string (gmap string Z))
    (rpn : list string) :
  forall st,
    match evalRPN_loop vars boolVars objects rpn st with
    | Ok z => is_int z
    | Raise e => e = OutOfRange \/ (e = DivisionTrap /\ In "/" rpn)
    end.
Proof.
  induction rpn as [|t rpn IH]; intros st; cbn [evalRPN_loop].
  - destruct st; [unfold is_int; lia | apply to_int_range].
  - assert (Hnext : forall st',
               match evalRPN_loop vars boolVars objects rpn st' with
               | Ok z => is_int z
               | Raise e =>
                   e = OutOfRange \/ (e = DivisionTrap /\ In "/" (t :: rpn))
               end).
    { intros st'. specialize (IH st').
      destruct (evalRPN_loop vars boolVars objects rpn st'); [exact IH |].
      destruct IH as [-> | [-> Hin]]; [now left |].
      right. split; [reflexivity | now right]. }
    destruct (isOperator t).
    + destruct st as [|b [|a st]]; try (unfold is_int; lia).
      assert (Hop := applyOp_outcome t a b).
      destruct (applyOp t a b) as [r | e]; [apply Hnext |].
      destruct Hop as [-> ->]. right. split; [reflexivity | now left].
    + assert (H := operandValue_outcome vars boolVars objects t).
      destruct (operandValue vars boolVars objects t); [apply Hnext |].
      now left.
Qed.

(** X8.  The evaluation of an expression has three outcomes only: a value in
    the range of [int], the [out_of_range] of [std::stoll] on a numeric
    token that is too long, or the trap of the one division that the source
    does not guard, the least [long long] by -1, which only a token [/] can
    bring about.  [invalid_argument] is never thrown, whatever the tokens
    are. *)
Theorem evaluation_outcomes (vars : gmap string Z)
    (boolVars : gmap string bool) (objects : gmap string (gmap string Z))
    (rpn : list string) (expr : string) :
  match evalRPN vars boolVars objects rpn with
  | Ok z => is_int z
  | Raise e => e = OutOfRange \/ (e = DivisionTrap /\ In "/" rpn)
  end
  /\ match evalExpressionString expr vars boolVars objects with
     | Ok z => is_int z
     | Raise e => e = OutOfRange \/ e = DivisionTrap
     end.
Proof.
  split; [apply evalRPN_loop_outcome |].
  unfold evalExpressionString, evalRPN.
  assert (H := evalRPN_loop_outcome vars boolVars objects
                 (infixToRPN (tokenizeExpr expr)) []).
  destruct (evalRPN_loop _ _ _ _ _); [exact H |].
  destruct H as [-> | [-> _]]; auto.
Qed.

Lemma span_str_size (p : ascii -> bool) (s : string) :
  size (snd (span_str p s)) <= size s.
Proof.
  induction s as [|c s IH]; [reflexivity |]. cbn [span_str].
  destruct (p c); [| reflexivity].
  destruct (span_str p s). cbn [snd] in *. rewrite size_cons. lia.
Qed.

Lemma drop_str_size (n : nat) (s : string) : size (drop_str n s) <= size s.
Proof.
  revert s. induction n as [|n IH]; intros [|c s]; cbn [drop_str]; try lia.
  rewrite size_cons. specialize (IH s). lia.
Qed.

Lemma symbol_not_sign (c : ascii) :
  isSymbolChar c = false -> (c =? "-")%char || (c =? "+")%char = false.
Proof.
  unfold isSymbolChar. intros H.
  destruct (c =? "+")%char, (c =? "-")%char; try discriminate; reflexivity.
Qed.

(** X4.  Every token of [tokenizeExpr] is one of [<=], [>=], [==], [!=], or
    one character of [+-*/()<>] (or a NUL, which [strchr] finds as well), or
    a run of digits, or an identifier: a letter or [_] followed by letters,
    digits, [_] and dots.  A sign is never part of a token. *)
Theorem tokenizeExpr_tokens (s : string) :
  Forall (fun t => isExprToken t = true) (tokenizeExpr s).
Proof.
  unfold tokenizeExpr. generalize (size s) as fuel. intros fuel. revert s.
  induction fuel as [|fuel IH]; intros s; [constructor |].
  destruct s as [|c s']; [constructor |]. cbn [tokenizeExpr_loop].
  destruct (isspace c); [apply IH |].
  destruct ((2 <=? size (String c s'))%nat
            && isTwoCharOp (take_str 2 (String c s'))) eqn:Two.
  { apply andb_true_iff in Two as [_ Two]. constructor; [| apply IH].
    unfold isExprToken. now rewrite Two. }
  destruct (isSymbolChar c) eqn:Sym.
  { constructor; [| apply IH]. unfold isExprToken. cbn [isSymbolToken].
    rewrite Sym. now rewrite orb_true_r. }
  rewrite (symbol_not_sign c Sym). cbn [andb]. rewrite orb_false_r.
  destruct (isdigit c) eqn:Dig.
  { destruct (span_str_spec isdigit s') as (_ & Hall & _).
    destruct (span_str isdigit s') as [ds r]. cbn [fst] in Hall.
    constructor; [| apply IH].
    unfold isExprToken, isNumber. cbn [String.eqb negb all_chars andb].
    rewrite Dig, Hall. cbn. now rewrite !orb_true_r. }
  destruct (isIdentStart c) eqn:Id; [| apply IH].
  destruct (span_str_spec isIdentChar s') as (_ & Hall & _).
  destruct (span_str isIdentChar s') as [w r]. cbn [fst] in Hall.
  constructor; [| apply IH].
  unfold isExprToken. cbn [isIdentifier]. rewrite Id, Hall.
  now rewrite !orb_true_r.
Qed.

(** More fuel than the length of the text changes nothing. *)
Lemma tokenizeExpr_loop_fuel (f : nat) :
  forall (s : string) (f' : nat),
    size s <= f -> size s <= f' ->
    tokenizeExpr_loop f s = tokenizeExpr_loop f' s.
Proof.
  induction f as [|f IH]; intros s f' Hf Hf'.
  - destruct s; [| rewrite size_cons in Hf; lia]. now destruct f'.
  - destruct s as [|c s']; [now destruct f' |].
    destruct f' as [|f']; [rewrite size_cons in Hf'; lia |].
    rewrite size_cons in Hf, Hf'. cbn [tokenizeExpr_loop].
    assert (Hrec : tokenizeExpr_loop f s' = tokenizeExpr_loop f' s')
      by (apply IH; lia).
    destruct (isspace c); [exact Hrec |].
    destruct ((2 <=? size (String c s'))%nat
              && isTwoCharOp (take_str 2 (String c s'))).
    { f_equal. change (drop_str 2 (String c s')) with (drop_str 1 s').
      assert (H := drop_str_size 1 s'). apply IH; lia. }
    destruct (isSymbolChar c); [now f_equal |].
    destruct (isdigit c || _).
    { assert (H := span_str_size isdigit s').
      destruct (span_str isdigit s') as [ds r]. cbn [snd] in H.
      f_equal. apply IH; lia. }
    destruct (isIdentStart c); [| exact Hrec].
    assert (H := span_str_size isIdentChar s').
    destruct (span_str isIdentChar s') as [w r]. cbn [snd] in H.
    f_equal. apply IH; lia.
Qed.

Lemma span_str_append_stop (p : ascii -> bool) (a : string) (c : ascii)
    (b : string) :
  p c = false ->
  span_str p (a +:+ String c b)
  = (fst (span_str p a), snd (span_str p a) +:+ String c b).
Proof.
  intros Hc. induction a as [|x a IH]; push_append.
  - cbn [span_str]. now rewrite Hc.
  - cbn [span_str]. destruct (p x); [| reflexivity].
    rewrite IH. now destruct (span_str p a).
Qed.

Lemma space_classes (c : ascii) :
  isspace c = true ->
  isdigit c = false /\ isIdentChar c = false
  /\ forall x, isTwoCharOp (String x (String c "")) = false.
Proof.
  intros H.
  assert (Hc : (c =? "=")%char = false)
    by (destruct c as [[] [] [] [] [] [] [] []]; try discriminate H;
        reflexivity).
  repeat split;
    try (destruct c as [[] [] [] [] [] [] [] []]; try discriminate H;
         reflexivity).
  intros x. unfold isTwoCharOp. cbn [String.eqb]. rewrite Hc.
  now destruct (x =? "<")%char, (x =? ">")%char, (x =? "=")%char,
    (x =? "!")%char.
Qed.

Lemma tokenizeExpr_loop_nil (f : nat) : tokenizeExpr_loop f "" = [].
Proof. now destruct f. Qed.

Lemma tokenizeExpr_loop_app (f : nat) :
  forall (a : string) (c : ascii) (b : string),
    isspace c = true -> size (a +:+ String c b) <= f ->
    tokenizeExpr_loop f (a +:+ String c b)
    = tokenizeExpr_loop f a ++ tokenizeExpr_loop f b.
Proof.
  induction f as [|f IH]; intros a c b Hc Hf;
    rewrite size_append, size_cons in Hf; [lia |].
  destruct (space_classes c Hc) as (Hdig & Hid & Htwo).
  rewrite (tokenizeExpr_loop_fuel (S f) b f) by lia.
  destruct a as [|x a]; push_append.
  { cbn [tokenizeExpr_loop app]. now rewrite Hc. }
  rewrite size_cons in Hf.
  assert (Hrec : forall a', size a' <= size a ->
                   tokenizeExpr_loop f (a' +:+ String c b)
                   = tokenizeExpr_loop f a' ++ tokenizeExpr_loop f b).
  { intros a' Ha'. apply IH; [exact Hc |]. rewrite size_append, size_cons. lia. }
  cbn [tokenizeExpr_loop].
  destruct (isspace x); [now apply Hrec |].
  destruct a as [|y a].
  - assert (Hcb : tokenizeExpr_loop f (String c b) = tokenizeExpr_loop f b).
    { rewrite <- (append_nil_l (String c b)), (Hrec "" (le_n _)).
      now rewrite tokenizeExpr_loop_nil. }
    rewrite append_nil_l. cbn [take_str]. rewrite Htwo, andb_false_r.
    rewrite !size_cons. cbn [size String.length Nat.leb andb span_str].
    rewrite Hdig, Hid, Hcb, tokenizeExpr_loop_nil, andb_false_r.
    destruct (isSymbolChar x); [reflexivity |].
    destruct (isdigit x || false); [reflexivity |].
    now destruct (isIdentStart x).
  - push_append. rewrite !size_cons in *. cbn [take_str Nat.leb andb].
    destruct (isTwoCharOp (String x (String y ""))).
    { cbn [drop_str app]. f_equal. apply Hrec. lia. }
    destruct (isSymbolChar x).
    { cbn [app]. f_equal. rewrite <- append_cons. apply Hrec.
      rewrite size_cons. lia. }
    rewrite <- !append_cons.
    assert (Hsz : forall p, size (snd (span_str p (String y a)))
                            <= S (size a))
      by (intros p; apply (span_str_size p (String y a))).
    destruct (isdigit x || _).
    { rewrite (span_str_append_stop isdigit _ c b Hdig).
      specialize (Hsz isdigit).
      destruct (span_str isdigit (String y a)) as [ds r].
      cbn [fst snd] in *. cbn [app]. f_equal. apply Hrec. exact Hsz. }
    destruct (isIdentStart x).
    { rewrite (span_str_append_stop isIdentChar _ c b Hid).
      specialize (Hsz isIdentChar).
      destruct (span_str isIdentChar (String y a)) as [w r].
      cbn [fst snd] in *. cbn [app]. f_equal. apply Hrec. exact Hsz. }
    apply Hrec. rewrite size_cons. lia.
Qed.

(** X5.  A white space character ends a token: the tokens of a text are the
    tokens of what is in front of the white space followed by the tokens of
    what is behind it. *)
Theorem tokenizeExpr_white_space_separates (a b : string) (c : ascii) :
  isspace c = true ->
  tokenizeExpr (a +:+ String c b) = tokenizeExpr a ++ tokenizeExpr b.
Proof.
  intros Hc. unfold tokenizeExpr.
  rewrite (tokenizeExpr_loop_app _ a c b Hc (le_n _)).
  rewrite size_append, size_cons. f_equal; apply tokenizeExpr_loop_fuel; lia.
Qed.

Lemma pop_ops_operands (t : string) (st out : list string) :
  List.filter isOperand st = [] ->
  List.filter isOperand (fst (pop_ops t out st)) = List.filter isOperand out
  /\ List.filter isOperand (snd (pop_ops t out st)) = [].
Proof.
  revert out. induction st as [|top st IH]; intros out Hst; [now cbn |].
  cbn [pop_ops]. cbn [List.filter] in Hst.
  destruct (isOperand top) eqn:E; [discriminate |].
  destruct (isOperator top && _).
  - destruct (IH (out ++ [top]) Hst) as [H1 H2]. split; [| exact H2].
    rewrite H1, List.filter_app. cbn [List.filter]. rewrite E. apply app_nil_r.
  - cbn [fst snd List.filter]. now rewrite E.
Qed.

Lemma pop_until_paren_operands (st out : list string) :
  List.filter isOperand st = [] ->
  List.filter isOperand (fst (pop_until_paren out st))
  = List.filter isOperand out
  /\ List.filter isOperand (snd (pop_until_paren out st)) = [].
Proof.
  revert out. induction st as [|top st IH]; intros out Hst; [now cbn |].
  cbn [pop_until_paren]. cbn [List.filter] in Hst.
  destruct (isOperand top) eqn:E; [discriminate |].
  destruct (top =? "(").
  - now cbn [fst snd].
  - destruct (IH (out ++ [top]) Hst) as [H1 H2]. split; [| exact H2].
    rewrite H1, List.filter_app. cbn [List.filter]. rewrite E. apply app_nil_r.
Qed.

Lemma infixToRPN_loop_operands (ts : list string) :
  forall out st,
    List.filter isOperand st = [] ->
    List.filter isOperand (infixToRPN_loop ts out st)
    = List.filter isOperand out ++ List.filter isOperand ts.
Proof.
  induction ts as [|t ts IH]; intros out st Hst; cbn [infixToRPN_loop].
  - rewrite List.filter_app, Hst. reflexivity.
  - cbn [List.filter]. unfold isOperand at 3.
    destruct (t =? "") eqn:E0; [now apply IH |].
    destruct (isOperator t) eqn:Eop.
    { destruct (pop_ops_operands t st out Hst) as [H1 H2].
      destruct (pop_ops t out st) as [out' st']. cbn [fst snd] in *.
      cbn [negb andb]. rewrite IH, H1; [reflexivity |].
      cbn [List.filter]. unfold isOperand at 1. rewrite E0, Eop. exact H2. }
    destruct (t =? "(") eqn:El.
    { cbn [negb andb]. rewrite IH; [reflexivity |].
      cbn [List.filter]. unfold isOperand at 1. now rewrite E0, Eop, El. }
    destruct (t =? ")") eqn:Er.
    { destruct (pop_until_paren_operands st out Hst) as [H1 H2].
      destruct (pop_until_paren out st) as [out' st']. cbn [fst snd] in *.
      cbn [negb andb]. now rewrite IH, H1. }
    cbn [negb andb]. rewrite IH by exact Hst.
    rewrite List.filter_app. cbn [List.filter]. unfold isOperand at 2.
    rewrite E0, Eop, El, Er. cbn [negb andb]. now rewrite <- app_assoc.
Qed.

(** X6.  [infixToRPN] moves operators only: the operands (the tokens that
    are no operator, no parenthesis and not empty) come out in the order in
    which they went in. *)
Theorem infixToRPN_operands_in_order (tokens : list string) :
  List.filter isOperand (infixToRPN tokens) = List.filter isOperand tokens.
Proof. apply (infixToRPN_loop_operands tokens [] [] eq_refl). Qed.

Lemma pop_ops_concat (t : string) (st out : list string) :
  fst (pop_ops t out st) ++ snd (pop_ops t out st) = out ++ st.
Proof.
  revert out. induction st as [|top st IH]; intros out; [reflexivity |].
  cbn [pop_ops]. destruct (isOperator top && _); [| reflexivity].
  rewrite IH, <- app_assoc. reflexivity.
Qed.

Lemma pop_until_paren_kept (st out : list string) :
  List.filter isKept (fst (pop_until_paren out st)
                      ++ snd (pop_until_paren out st))
  = List.filter isKept (out ++ st).
Proof.
  revert out. induction st as [|top st IH]; intros out; [reflexivity |].
  cbn [pop_until_paren]. destruct (top =? "(") eqn:E.
  - cbn [fst snd]. rewrite !List.filter_app. cbn [List.filter].
    apply String.eqb_eq in E. subst top. reflexivity.
  - rewrite IH, <- app_assoc. reflexivity.
Qed.

Lemma infixToRPN_loop_kept (ts : list string) :
  forall out st,
    Permutation (List.filter isKept (infixToRPN_loop ts out st))
      (List.filter isKept (out ++ st) ++ List.filter isKept ts).
Proof.
  induction ts as [|t ts IH]; intros out st; cbn [infixToRPN_loop].
  - cbn [List.filter]. now rewrite app_nil_r.
  - cbn [List.filter].
    destruct (t =? "") eqn:E0.
    { unfold isKept at 3. rewrite E0. apply IH. }
    destruct (isOperator t) eqn:Eop.
    { destruct (operator_not_special t Eop) as (_ & El & Er).
      unfold isKept at 3. rewrite E0, El, Er. cbn [negb andb].
      assert (Hc := pop_ops_concat t st out).
      destruct (pop_ops t out st) as [out' st']. cbn [fst snd] in Hc.
      rewrite (IH out' (t :: st')), <- Hc, !List.filter_app.
      cbn [List.filter]. unfold isKept at 2. rewrite E0, El, Er.
      cbn [negb andb]. rewrite <- !app_assoc. apply Permutation_app_head.
      cbn [app]. apply Permutation_middle. }
    destruct (t =? "(") eqn:El.
    { unfold isKept at 3. rewrite E0, El. cbn [negb andb].
      rewrite (IH out (t :: st)), !List.filter_app. cbn [List.filter].
      unfold isKept at 2. rewrite E0, El. reflexivity. }
    destruct (t =? ")") eqn:Er.
    { unfold isKept at 3. rewrite E0, El, Er. cbn [negb andb].
      assert (Hc := pop_until_paren_kept st out).
      destruct (pop_until_paren out st) as [out' st']. cbn [fst snd] in Hc.
      now rewrite (IH out' st'), Hc. }
    unfold isKept at 3. rewrite E0, El, Er. cbn [negb andb].
    rewrite (IH (out ++ [t]) st), !List.filter_app. cbn [List.filter].
    unfold isKept at 2. rewrite E0, El, Er. cbn [negb andb].
    rewrite <- !app_assoc. apply Permutation_app_head. cbn [app].
    apply Permutation_middle.
Qed.

Lemma pop_ops_Forall (Q : string -> Prop) (t : string) (st out : list string) :
  Forall Q (out ++ st) ->
  Forall Q (fst (pop_ops t out st) ++ snd (pop_ops t out st)).
Proof. now rewrite pop_ops_concat. Qed.

Lemma pop_until_paren_Forall (Q : string -> Prop) (st out : list string) :
  Forall Q (out ++ st) ->
  Forall Q (fst (pop_until_paren out st) ++ snd (pop_until_paren out st)).
Proof.
  revert out. induction st as [|top st IH]; intros out H; [exact H |].
  cbn [pop_until_paren]. destruct (top =? "(").
  - cbn [fst snd]. apply Forall_app in H as [H1 H2]. apply Forall_app.
    split; [exact H1 | now inversion H2].
  - apply IH. now rewrite <- app_assoc.
Qed.

Lemma infixToRPN_loop_clean (ts : list string) :
  forall out st,
    Forall (fun t => t <> ")" /\ t <> "") (out ++ st) ->
    Forall (fun t => t <> ")" /\ t <> "") (infixToRPN_loop ts out st).
Proof.
  induction ts as [|t ts IH]; intros out st H; cbn [infixToRPN_loop];
    [exact H |].
  destruct (t =? "") eqn:E0; [now apply IH |].
  apply String.eqb_neq in E0.
  destruct (isOperator t) eqn:Eop.
  { destruct (operator_not_special t Eop) as (_ & _ & Er).
    apply String.eqb_neq in Er.
    assert (Hc := pop_ops_Forall _ t st out H).
    destruct (pop_ops t out st) as [out' st']. cbn [fst snd] in Hc.
    apply IH. apply Forall_app in Hc as [H1 H2]. apply Forall_app.
    split; [exact H1 | now constructor]. }
  destruct (t =? "(") eqn:El.
  { apply IH. apply Forall_app in H as [H1 H2]. apply Forall_app.
    split; [exact H1 |]. constructor; [| exact H2].
    apply String.eqb_eq in El. subst t. split; discriminate. }
  destruct (t =? ")") eqn:Er.
  { assert (Hc := pop_until_paren_Forall _ st out H).
    destruct (pop_until_paren out st) as [out' st']. now apply IH. }
  apply String.eqb_neq in Er. apply IH. rewrite <- app_assoc.
  apply Forall_app in H as [H1 H2]. apply Forall_app.
  split; [exact H1 | now constructor].
Qed.

(** X7.  [infixToRPN] rearranges: apart from parentheses and empty tokens
    its output holds the tokens of its input, each as often as the input; a
    closing parenthesis or an empty token is never in the output. *)
Theorem infixToRPN_rearranges (tokens : list string) :
  Permutation (List.filter isKept (infixToRPN tokens))
    (List.filter isKept tokens)
  /\ ~ In ")" (infixToRPN tokens) /\ ~ In "" (infixToRPN tokens).
Proof.
  split; [apply (infixToRPN_loop_kept tokens [] []) |].
  assert (H := infixToRPN_loop_clean tokens [] [] (List.Forall_nil _)).
  fold (infixToRPN tokens) in H. rewrite List.Forall_forall in H.
  split; intros Hin; destruct (H _ Hin) as [H1 H2]; congruence.
Qed.

Lemma splitDot_bare (t : string) :
  find_char "." t = None -> splitDot t = (t, "").
Proof. unfold splitDot. now intros ->. Qed.

(** X10.  An expression that is one identifier without a dot, other than
    [true] and [false]: a boolean variable of that name gives 1 or 0 and
    hides an integer of the same name; else the integer variable gives its
    value; a name that is not declared gives 0. *)
Theorem bare_reference_value (vars : gmap string Z)
    (boolVars : gmap string bool) (objects : gmap string (gmap string Z))
    (name : string) :
  isIdentifier name = true -> find_char "." name = None ->
  name <> "true" -> name <> "false" ->
  evalExpressionString name vars boolVars objects
  = Ok (to_int match boolVars !! name with
               | Some true => 1%Z
               | Some false => 0%Z
               | None => match vars !! name with
                         | Some v => v
                         | None => 0%Z
                         end
               end).
Proof.
  intros Hid Hdot Ht Hf.
  destruct name as [|c s]; [discriminate |].
  cbn [isIdentifier] in Hid. apply andb_true_iff in Hid as [Hc Hs].
  assert (Htok := tokenizeExpr_ident c s Hc Hs).
  assert (Hnop := ident_not_operator c s Hc).
  assert (Hnum := ident_not_numeric c s Hc).
  destruct (ident_not_paren c s Hc) as [Hl Hr].
  assert (Hne : (String c s =? "") = false) by reflexivity.
  apply String.eqb_neq in Ht, Hf.
  remember (String c s) as t eqn:Et. clear Et.
  unfold evalExpressionString, infixToRPN, evalRPN. rewrite Htok.
  cbn [infixToRPN_loop]. rewrite Hne, Hnop, Hl, Hr. cbn [app evalRPN_loop].
  rewrite Hnop. unfold operandValue.
  rewrite Hnum, Ht, Hf, (splitDot_bare t Hdot). cbn [String.eqb negb].
  unfold varValue, b2z. now destruct (boolVars !! t) as [[]|].
Qed.

Lemma bare_reference_value_witness :
  (isIdentifier "alive" = true /\ find_char "." "alive" = None
   /\ "alive" <> "true" /\ "alive" <> "false")
  /\ evalExpressionString "alive" {[ "alive" := 7%Z ]} {[ "alive" := true ]} ∅
     = Ok 1%Z
  /\ evalExpressionString "alive" {[ "alive" := 7%Z ]} ∅ ∅ = Ok 7%Z
  /\ evalExpressionString "alive" ∅ ∅ ∅ = Ok 0%Z.
Proof.
  assert (H1 : isIdentifier "alive" = true) by reflexivity.
  assert (H2 : find_char "." "alive" = None) by reflexivity.
  assert (H3 : "alive" <> "true") by discriminate.
  assert (H4 : "alive" <> "false") by discriminate.
  split; [repeat split; assumption |]. split; [| split].
  - exact (bare_reference_value {[ "alive" := 7%Z ]} {[ "alive" := true ]} ∅
             "alive" H1 H2 H3 H4).
  - exact (bare_reference_value {[ "alive" := 7%Z ]} ∅ ∅ "alive" H1 H2 H3 H4).
  - exact (bare_reference_value ∅ ∅ ∅ "alive" H1 H2 H3 H4).
Defined.

Lemma tokenizeExpr_white_space_separates_witness :
  isspace " " = true
  /\ tokenizeExpr "hp<= 10" = tokenizeExpr "hp<=" ++ tokenizeExpr "10".
Proof.
  split; [reflexivity |].
  exact (tokenizeExpr_white_space_separates "hp<=" "10" " " eq_refl).
Defined.

Lemma unsigned_expression_value_witness :
  (lexes "3 + 4 * 2" ["3"; "+"; "4"; "*"; "2"]
   /\ parses 0 ["3"; "+"; "4"; "*"; "2"]
        (Bin "+" (Lit "3") (Bin "*" (Lit "4") (Lit "2")))
   /\ fits (Bin "+" (Lit "3") (Bin "*" (Lit "4") (Lit "2"))) = true)
  /\ evalExpressionString "3 + 4 * 2" {[ "x" := 5%Z ]} ∅ ∅ = Ok 11%Z.
Proof.
  destruct precedence_reading as (Hlex & Hparse & _).
  split; [split; [exact Hlex | split; [exact Hparse | reflexivity]] |].
  exact (unsigned_expression_value {[ "x" := 5%Z ]} ∅ ∅ _ _ 0 _ Hlex Hparse
           eq_refl).
Defined.

(** ** The lexer *)

Lemma count_char_append (c : ascii) (a b : string) :
  count_char c (a +:+ b) = count_char c a + count_char c b.
Proof.
  induction a as [|x a IH]; push_append; [reflexivity |].
  cbn [count_char]. rewrite IH. lia.
Qed.

Lemma bump_count (c : ascii) (line : nat) :
  bump c line = line + count_char LF (String c "").
Proof. unfold bump. cbn [count_char]. destruct (c =? LF)%char; lia. Qed.

Lemma took_refl (s : string) (line : nat) : took s line s line.
Proof. exists "". split; [reflexivity | cbn; lia]. Qed.

Lemma took_cons (c : ascii) (s : string) (line : nat) (rest : string)
    (line' : nat) :
  took s (bump c line) rest line' -> took (String c s) line rest line'.
Proof.
  intros (x & -> & ->). exists (String c x). split; [reflexivity |].
  rewrite bump_count. cbn [count_char]. lia.
Qed.

Lemma took_trans (s : string) (l : nat) (s1 : string) (l1 : nat)
    (s2 : string) (l2 : nat) :
  took s l s1 l1 -> took s1 l1 s2 l2 -> took s l s2 l2.
Proof.
  intros (x & -> & ->) (y & -> & ->). exists (x +:+ y).
  rewrite append_assoc, count_char_append. split; [reflexivity | lia].
Qed.

Lemma took_size (s : string) (l : nat) (r : string) (l' : nat) :
  took s l r l' -> size r <= size s.
Proof. intros (x & -> & _). rewrite size_append. lia. Qed.

Lemma skipSpace_took (s : string) (line : nat) :
  took s line (fst (skipSpace s line)) (snd (skipSpace s line))
  /\ isspace (front (fst (skipSpace s line))) = false.
Proof.
  revert line. induction s as [|c s IH]; intros line.
  - split; [apply took_refl | reflexivity].
  - cbn [skipSpace]. destruct (isspace c) eqn:E.
    + destruct (IH (bump c line)) as [H1 H2]. split; [| exact H2].
      now apply took_cons.
    + split; [apply took_refl | exact E].
Qed.

Lemma not_LF_bump (c : ascii) (line : nat) :
  (c =? LF)%char = false -> bump c line = line.
Proof. unfold bump. now intros ->. Qed.

Lemma skipLine_took (s : string) (line : nat) :
  took s line (skipLine s) line.
Proof.
  induction s as [|c s IH]; [apply took_refl |]. cbn [skipLine].
  destruct ((c =? NUL)%char || (c =? LF)%char) eqn:E; [apply took_refl |].
  apply took_cons. apply orb_false_iff in E as [_ E].
  now rewrite (not_LF_bump _ _ E).
Qed.

Lemma skipLine_comment (s : string) :
  starts_with "//" s = true -> size (skipLine s) + 2 <= size s.
Proof.
  destruct s as [|a [|b s]]; cbn [starts_with]; intros H;
    [discriminate | now rewrite andb_false_r in H |].
  apply andb_true_iff in H as [Ha H]. apply andb_true_iff in H as [Hb _].
  apply Ascii.eqb_eq in Ha, Hb. subst a b.
  change (skipLine (String "/" (String "/" s))) with (skipLine s).
  assert (H := took_size _ _ _ _ (skipLine_took s 0)).
  rewrite !size_cons. lia.
Qed.

Lemma lexDouble_took_bounded (n : nat) :
  forall s line,
    size s <= n ->
    took s line (snd (fst (lexDouble s line))) (snd (lexDouble s line)).
Proof.
  induction n as [|n IH]; intros s line Hn;
    (destruct s as [|c s]; [apply took_refl |]);
    rewrite size_cons in Hn; [lia |].
  cbn [lexDouble].
  destruct (c =? NUL)%char; [apply took_refl |].
  destruct (c =? DQUOTE)%char eqn:Q.
  { cbn [fst snd]. apply took_cons.
    replace (bump c line) with line; [apply took_refl |].
    apply Ascii.eqb_eq in Q. now subst c. }
  destruct (c =? BACKSLASH)%char eqn:B.
  - apply Ascii.eqb_eq in B. subst c.
    destruct s as [|e s].
    + cbn [fst snd]. apply took_cons, took_refl.
    + destruct (e =? NUL)%char.
      * assert (H := IH (String e s) line ltac:(lia)).
        destruct (lexDouble (String e s) line) as [[out r] l].
        cbn [fst snd] in *. now apply took_cons.
      * rewrite size_cons in Hn.
        assert (H := IH s (bump e line) ltac:(lia)).
        destruct (lexDouble s (bump e line)) as [[out r] l].
        cbn [fst snd] in *. apply took_cons.
        replace (bump BACKSLASH line) with line by reflexivity.
        now apply took_cons.
  - assert (H := IH s (bump c line) ltac:(lia)).
    destruct (lexDouble s (bump c line)) as [[out r] l].
    cbn [fst snd] in *. now apply took_cons.
Qed.

Lemma lexDouble_took (s : string) (line : nat) :
  took s line (snd (fst (lexDouble s line))) (snd (lexDouble s line)).
Proof. now apply (lexDouble_took_bounded (size s)). Qed.

Lemma lexSingle_took_bounded (n : nat) :
  forall s line,
    size s <= n ->
    took s line (snd (fst (lexSingle s line))) (snd (lexSingle s line)).
Proof.
  induction n as [|n IH]; intros s line Hn;
    (destruct s as [|c s]; [apply took_refl |]);
    rewrite size_cons in Hn; [lia |].
  cbn [lexSingle].
  destruct ((c =? NUL)%char || (c =? SQUOTE)%char); [apply took_refl |].
  destruct (c =? BACKSLASH)%char eqn:B.
  - apply Ascii.eqb_eq in B. subst c.
    destruct s as [|e s].
    + cbn [fst snd]. apply took_cons, took_refl.
    + destruct (e =? NUL)%char.
      * assert (H := IH (String e s) line ltac:(lia)).
        destruct (lexSingle (String e s) line) as [[out r] l].
        cbn [fst snd] in *. now apply took_cons.
      * rewrite size_cons in Hn.
        assert (H := IH s (bump e line) ltac:(lia)).
        destruct (lexSingle s (bump e line)) as [[out r] l].
        cbn [fst snd] in *. apply took_cons.
        replace (bump BACKSLASH line) with line by reflexivity.
        now apply took_cons.
  - assert (H := IH s (bump c line) ltac:(lia)).
    destruct (lexSingle s (bump c line)) as [[out r] l].
    cbn [fst snd] in *. now apply took_cons.
Qed.

Lemma lexSingle_took (s : string) (line : nat) :
  took s line (snd (fst (lexSingle s line))) (snd (lexSingle s line)).
Proof. now apply (lexSingle_took_bounded (size s)). Qed.

Lemma span_took (p : ascii -> bool) (s : string) (line : nat) :
  (forall c, p c = true -> (c =? LF)%char = false) ->
  took s line (snd (span_str p s)) line.
Proof.
  intros Hp. induction s as [|c s IH]; [apply took_refl |].
  cbn [span_str]. destruct (p c) eqn:E; [| apply took_refl].
  destruct (span_str p s) as [a b]. cbn [snd] in *.
  apply took_cons. now rewrite (not_LF_bump _ _ (Hp c E)).
Qed.

Lemma digit_not_LF (c : ascii) : isdigit c = true -> (c =? LF)%char = false.
Proof.
  destruct c as [[] [] [] [] [] [] [] []]; try discriminate; reflexivity.
Qed.

Lemma identChar_not_LF (c : ascii) :
  isIdentChar c = true -> (c =? LF)%char = false.
Proof.
  destruct c as [[] [] [] [] [] [] [] []]; try discriminate; reflexivity.
Qed.

Lemma keywordKind_not_EOF (id : string) :
  TokenKind_eqb (keywordKind id) TK_EOF = false.
Proof. unfold keywordKind. now repeat case_match. Qed.

Lemma lexed_token (s0 : string) (line0 : nat) (c : ascii) (s' : string)
    (line : nat) (t : Token) (r : string) (l : nat) :
  took s0 line0 (String c s') line ->
  took (String c s') line r l -> size r <= size s' ->
  tok_line t = l -> TokenKind_eqb (tok_kind t) TK_EOF = false ->
  lexed t (mkLexer s0 line0) (mkLexer r l).
Proof.
  intros H0 H1 Hsz Hl Hk. unfold lexed. cbn [lx_rest lx_line]. rewrite Hk.
  split; [exact (took_trans _ _ _ _ _ _ H0 H1) | split; [exact Hl |]].
  apply took_size in H0. rewrite size_cons in H0. lia.
Qed.

Lemma take_drop_str (n : nat) (s : string) :
  s = take_str n s +:+ drop_str n s.
Proof.
  revert s. induction n as [|n IH]; intros [|c s]; cbn [take_str drop_str];
    try reflexivity.
  rewrite append_cons. f_equal. apply IH.
Qed.

Lemma isLexTwoChar_took (s : string) (line : nat) :
  isLexTwoChar (take_str 2 s) = true -> took s line (drop_str 2 s) line.
Proof.
  intros H. exists (take_str 2 s). split; [apply take_drop_str |].
  unfold isLexTwoChar in H.
  repeat (apply orb_true_iff in H as [H | H]);
    apply String.eqb_eq in H; rewrite H; cbn; lia.
Qed.

Lemma next_fuel_lexed (fuel : nat) :
  forall lx,
    size (lx_rest lx) <= 2 * fuel + 1 ->
    lexed (fst (next_fuel fuel lx)) lx (snd (next_fuel fuel lx)).
Proof.
  induction fuel as [|fuel IH]; intros [s0 line0] Hfuel; cbn [lx_rest lx_line] in *.
  all: destruct (skipSpace_took s0 line0) as [Hsp Hfront].
  all: assert (Hsz := took_size _ _ _ _ Hsp).
  all: unfold next_fuel; fold next_fuel; cbn [lx_rest lx_line].
  all: destruct (skipSpace s0 line0) as [s line]; cbn [fst snd] in *.
  all: destruct s as [|c s']; [now cbn |].
  all: rewrite size_cons in Hsz.
  all: destruct (starts_with "//" (String c s')) eqn:Com.
  1: { apply skipLine_comment in Com. rewrite size_cons in Com. lia. }
  2: { assert (Hc := skipLine_comment _ Com). rewrite size_cons in Hc.
       assert (Hl := skipLine_took (String c s') line).
       specialize (IH (mkLexer (skipLine (String c s')) line)).
       cbn [lx_rest lx_line] in IH.
       destruct (IH ltac:(lia)) as (H1 & H2 & H3).
       destruct (next_fuel fuel _) as [t lx']. cbn [fst snd] in *.
       split; [| split; [exact H2 |]].
       - exact (took_trans _ _ _ _ _ _ Hsp (took_trans _ _ _ _ _ _ Hl H1)).
       - destruct (TokenKind_eqb (tok_kind t) TK_EOF); [exact H3 |].
         cbn [lx_rest lx_line] in *. lia. }
  all: clear Hfuel Hsz Com.
  all: destruct (c =? DQUOTE)%char eqn:Q.
  1, 3: assert (Hd := lexDouble_took s' line);
        destruct (lexDouble s' line) as [[out r] l]; cbn [fst snd] in *;
        apply (lexed_token _ _ c s' line); try reflexivity; try exact Hsp;
        [ apply took_cons; apply Ascii.eqb_eq in Q; subst c; exact Hd
        | exact (took_size _ _ _ _ Hd) ].
  all: destruct (isalpha c || (c =? "_")%char) eqn:A.
  1, 3: assert (Hic : isIdentChar c = true)
          by (unfold isIdentChar, isalnum;
              apply orb_true_iff in A as [-> | ->];
              [reflexivity | now rewrite !orb_true_r]);
        assert (Hs := span_took isIdentChar s' line identChar_not_LF);
        assert (Hz := span_str_size isIdentChar s');
        cbn [span_str]; rewrite Hic;
        destruct (span_str isIdentChar s') as [a b]; cbn [fst snd] in *;
        apply (lexed_token _ _ c s' line); cbn [tok_line tok_kind];
        try reflexivity; try exact Hsp; try apply keywordKind_not_EOF;
        [ apply took_cons; now rewrite (not_LF_bump _ _ (identChar_not_LF _ Hic))
        | exact Hz ].
  all: destruct (isdigit c || _) eqn:N.
  1, 3: destruct (c =? "-")%char eqn:M;
        [ apply Ascii.eqb_eq in M; subst c;
          assert (Hs := span_took isdigit s' line digit_not_LF);
          assert (Hz := span_str_size isdigit s');
          destruct (span_str isdigit s') as [ds r]; cbn [fst snd] in *;
          apply (lexed_token _ _ "-"%char s' line); try reflexivity;
          try exact Hsp; [now apply took_cons | exact Hz]
        | rewrite andb_false_l, orb_false_r in N;
          assert (Hs := span_took isdigit s' line digit_not_LF);
          assert (Hz := span_str_size isdigit s');
          cbn [span_str]; rewrite N;
          destruct (span_str isdigit s') as [ds r]; cbn [fst snd] in *;
          apply (lexed_token _ _ c s' line); try reflexivity; try exact Hsp;
          [ apply took_cons; now rewrite (not_LF_bump _ _ (digit_not_LF _ N))
          | exact Hz ] ].
  all: destruct (c =? SQUOTE)%char eqn:SQ.
  1, 3: assert (Hd := lexSingle_took s' line);
        destruct (lexSingle s' line) as [[out r] l]; cbn [fst snd] in *;
        assert (Hr : took r l match r with
                              | "" => r
                              | String q r1 =>
                                  if (q =? SQUOTE)%char then r1 else r
                              end l)
          by (destruct r as [|q r1]; [apply took_refl |];
              destruct (q =? SQUOTE)%char eqn:Eq; [| apply took_refl];
              apply took_cons; apply Ascii.eqb_eq in Eq; subst q;
              apply took_refl);
        apply (lexed_token _ _ c s' line); try reflexivity; try exact Hsp;
        [ apply took_cons; apply Ascii.eqb_eq in SQ; subst c;
          exact (took_trans _ _ _ _ _ _ Hd Hr)
        | apply took_size in Hd, Hr; lia ].
  all: destruct (isLexTwoChar (take_str 2 (String c s'))) eqn:T.
  1, 3: apply (lexed_token _ _ c s' line); try reflexivity; try exact Hsp;
        [ now apply isLexTwoChar_took
        | change (drop_str 2 (String c s')) with (drop_str 1 s');
          apply drop_str_size ].
  all: apply (lexed_token _ _ c s' line); try reflexivity; try exact Hsp.
  all: apply took_cons, took_refl.
Qed.

Lemma next_lexed (lx : Lexer) : lexed (fst (next lx)) lx (snd (next lx)).
Proof. apply next_fuel_lexed. lia. Qed.

(** X11.  [Lexer::next] reads forwards: what it leaves is an end piece of
    the text it found, shorter than that text unless the token is the end of
    the input, which is given only when nothing is left. *)
Theorem next_token_progress (lx : Lexer) :
  let '(t, lx') := next lx in
  (exists consumed, lx_rest lx = consumed +:+ lx_rest lx')
  /\ if TokenKind_eqb (tok_kind t) TK_EOF then lx_rest lx' = ""
     else size (lx_rest lx') < size (lx_rest lx).
Proof.
  destruct (next_lexed lx) as ((x & Hx & _) & _ & H).
  destruct (next lx) as [t lx']. cbn [fst snd] in *. split; [| exact H].
  now exists x.
Qed.

(** X12.  The line of a token is the line of the lexer behind it: the line
    before the call plus the number of line ends in the text that the call
    consumed.  A line end inside a string literal or a comment counts. *)
Theorem next_token_line (lx : Lexer) :
  let '(t, lx') := next lx in
  exists consumed,
    lx_rest lx = consumed +:+ lx_rest lx'
    /\ lx_line lx' = lx_line lx + count_char LF consumed
    /\ tok_line t = lx_line lx'.
Proof.
  destruct (next_lexed lx) as ((x & Hx & Hl) & Ht & _).
  destruct (next lx) as [t lx']. cbn [fst snd] in *. now exists x.
Qed.

Lemma lexDouble_escape (text rest : string) (line : nat) :
  all_chars (fun c => negb (c =? NUL)%char) text = true ->
  lexDouble (escape text +:+ String DQUOTE rest) line = (text, rest, line).
Proof.
  induction text as [|c text IH]; intros H.
  - cbn [escape]. rewrite append_nil_l. reflexivity.
  - cbn [all_chars] in H. apply andb_true_iff in H as [Hc H].
    apply negb_true_iff in Hc. specialize (IH H).
    cbn [escape]. unfold escapeChar.
    destruct (c =? DQUOTE)%char eqn:Q.
    { apply Ascii.eqb_eq in Q. subst c. rewrite !append_cons, append_nil_l.
      cbn [lexDouble]. change (DQUOTE =? NUL)%char with false.
      change (DQUOTE =? DQUOTE)%char with true.
      change (BACKSLASH =? NUL)%char with false.
      change (BACKSLASH =? DQUOTE)%char with false.
      change (BACKSLASH =? BACKSLASH)%char with true. cbn iota.
      change (bump DQUOTE line) with line. now rewrite IH. }
    destruct (c =? BACKSLASH)%char eqn:B.
    { apply Ascii.eqb_eq in B. subst c. rewrite !append_cons, append_nil_l.
      cbn [lexDouble].
      change (BACKSLASH =? NUL)%char with false.
      change (BACKSLASH =? DQUOTE)%char with false.
      change (BACKSLASH =? BACKSLASH)%char with true. cbn iota.
      change (bump BACKSLASH line) with line. now rewrite IH. }
    destruct (c =? LF)%char eqn:L.
    { apply Ascii.eqb_eq in L. subst c. rewrite !append_cons, append_nil_l.
      cbn [lexDouble].
      change (BACKSLASH =? NUL)%char with false.
      change (BACKSLASH =? DQUOTE)%char with false.
      change (BACKSLASH =? BACKSLASH)%char with true.
      change ("n" =? NUL)%char with false. cbn iota.
      change (bump "n" line) with line. now rewrite IH. }
    rewrite !append_cons, append_nil_l. cbn [lexDouble].
    rewrite Hc, Q, B, (not_LF_bump _ _ L). now rewrite IH.
Qed.

(** X13.  A text without NUL, written between double quotes with [\] in
    front of every quote and backslash and [\n] for every line end, is read
    back by [Lexer::next] as one string token with that text; the lexer
    stops behind the closing quote and its line is unchanged. *)
Theorem string_literal_round_trip (text rest : string) (line : nat) :
  all_chars (fun c => negb (c =? NUL)%char) text = true ->
  next (mkLexer (dq (escape text) +:+ rest) line)
  = (mkToken TK_STRING text 0 line, mkLexer rest line).
Proof.
  intros H. unfold next, dq. rewrite !append_cons, append_assoc.
  change (String "034" "" +:+ rest) with (String DQUOTE rest).
  change "034"%char with DQUOTE.
  cbn [lx_rest lx_line next_fuel skipSpace].
  change (isspace DQUOTE) with false. cbn iota.
  change (starts_with "//" (String DQUOTE ?x)) with false.
  cbn iota. change (DQUOTE =? DQUOTE)%char with true. cbn iota.
  now rewrite (lexDouble_escape text rest line H).
Qed.

Lemma string_literal_round_trip_witness :
  all_chars (fun c => negb (c =? NUL)%char) ("say " +:+ dq "hi" +:+ nl) = true
  /\ escape ("say " +:+ dq "hi" +:+ nl)
     = String "s" (String "a" (String "y" (String " " (String BACKSLASH
         (String DQUOTE (String "h" (String "i" (String BACKSLASH
           (String DQUOTE (String BACKSLASH "n"))))))))))
  /\ next (mkLexer (dq (escape ("say " +:+ dq "hi" +:+ nl)) +:+ "; end;") 4)
     = (mkToken TK_STRING ("say " +:+ dq "hi" +:+ nl) 0 4,
        mkLexer "; end;" 4).
Proof.
  split; [reflexivity |]. split; [reflexivity |].
  exact (string_literal_round_trip ("say " +:+ dq "hi" +:+ nl) "; end;" 4
           eq_refl).
Defined.

Lemma digit_classes (c : ascii) :
  isdigit c = true ->
  isspace c = false /\ (c =? "/")%char = false /\ (c =? DQUOTE)%char = false
  /\ isalpha c || (c =? "_")%char = false /\ (c =? "-")%char = false
  /\ (c =? "+")%char = false.
Proof.
  destruct c as [[] [] [] [] [] [] [] []]; try discriminate;
    repeat split; reflexivity.
Qed.

Lemma read_number_digits (ds : string) :
  isNumber ds = true -> read_number ds = Some (digits_val 0 ds).
Proof.
  intros H. unfold isNumber in H. apply andb_true_iff in H as [Hne Hall].
  destruct ds as [|c ds]; [discriminate |].
  assert (Hc : isdigit c = true)
    by (cbn in Hall; now apply andb_true_iff in Hall as [? _]).
  destruct (digit_classes c Hc) as (_ & _ & _ & _ & Hm & Hp).
  unfold read_number.
  replace (match String c ds with
           | String "-" r => (true, r)
           | String "+" r => (false, r)
           | _ => (false, String c ds)
           end) with (false, String c ds)
    by (destruct c as [[] [] [] [] [] [] [] []]; try discriminate Hc;
        reflexivity).
  now rewrite (span_str_all _ _ Hall).
Qed.

Lemma read_number_negative (ds : string) :
  isNumber ds = true ->
  read_number (String "-" ds) = Some (- digits_val 0 ds)%Z.
Proof.
  intros H. unfold isNumber in H. apply andb_true_iff in H as [Hne Hall].
  destruct ds as [|c ds]; [discriminate |].
  unfold read_number. now rewrite (span_str_all _ _ Hall).
Qed.

(** [next] on a text that begins with a character that is no white space
    and does not begin a comment: the case analysis on that character. *)
Lemma next_fuel_token (fuel : nat) (c : ascii) (s' : string) (line : nat) :
  isspace c = false -> starts_with "//" (String c s') = false ->
  next_fuel fuel (mkLexer (String c s') line)
  = if (c =? DQUOTE)%char then
      let '(out, r, l) := lexDouble s' line in
      (mkToken TK_STRING out 0 l, mkLexer r l)
    else if isalpha c || (c =? "_")%char then
      let '(id, r) := span_str isIdentChar (String c s') in
      (mkToken (keywordKind id) id 0 line, mkLexer r line)
    else if isdigit c
            || ((c =? "-")%char
                && match s' with String c1 _ => isdigit c1 | "" => false end)
    then
      let '(sign, body) :=
        if (c =? "-")%char then ("-", s') else ("", String c s') in
      let '(ds, r) := span_str isdigit body in
      let num := sign +:+ ds in
      (mkToken TK_NUMBER num (numberOf num) line, mkLexer r line)
    else if (c =? SQUOTE)%char then
      let '(out, r, l) := lexSingle s' line in
      let r' := match r with
                | String q r1 => if (q =? SQUOTE)%char then r1 else r
                | "" => r
                end in
      (mkToken TK_STRING_DEC out 0 l, mkLexer r' l)
    else if isLexTwoChar (take_str 2 (String c s')) then
      (mkToken TK_SYM (take_str 2 (String c s')) 0 line,
       mkLexer (drop_str 2 (String c s')) line)
    else
      (mkToken TK_SYM (String c "") 0 (bump c line), mkLexer s' (bump c line)).
Proof.
  intros Hsp Hcom.
  destruct fuel; cbn [next_fuel skipSpace lx_rest lx_line];
    rewrite Hsp; cbn iota; now rewrite Hcom.
Qed.

(** X14.  A run of digits, with or without a minus sign in front and with no
    digit behind it, is one number token with that text.  Its number is the
    decimal value when that fits an [int], and 0 when it does not: the
    [catch] around [std::stoi]. *)
Theorem number_token (neg : bool) (ds rest : string) (line : nat) :
  isNumber ds = true -> noDigitAhead rest = true ->
  let text := (if neg then "-" else "") +:+ ds in
  let value := if neg then (- digits_val 0 ds)%Z else digits_val 0 ds in
  next (mkLexer (text +:+ rest) line)
  = (mkToken TK_NUMBER text (if in_int value then value else 0%Z) line,
     mkLexer rest line).
Proof.
  intros Hds Hrest text value.
  assert (Hall : all_chars isdigit ds = true)
    by (unfold isNumber in Hds; now apply andb_true_iff in Hds as [_ ?]).
  assert (Hstop : match rest with String c _ => negb (isdigit c) | "" => true end
                  = true) by exact Hrest.
  assert (Hspan := span_str_until isdigit ds rest Hall Hstop).
  destruct ds as [|c ds']; [discriminate |].
  assert (Hc : isdigit c = true)
    by (cbn in Hall; now apply andb_true_iff in Hall as [? _]).
  destruct (digit_classes c Hc) as (Hsp & Hsl & Hq & Hal & Hm & Hp).
  unfold next. subst text value. cbn [lx_rest]. destruct neg.
  - rewrite (append_cons "-" ""), append_nil_l, (append_cons "-").
    rewrite next_fuel_token;
      [| reflexivity
       | rewrite append_cons; cbn [starts_with];
         rewrite (Ascii.eqb_sym "/" c), Hsl; now rewrite andb_false_r].
    replace ("-" =? DQUOTE)%char with false by reflexivity.
    replace (isalpha "-" || ("-" =? "_")%char) with false by reflexivity.
    replace ("-" =? "-")%char with true by reflexivity.
    rewrite append_cons at 1. rewrite Hc, Hspan. cbn [orb andb].
    unfold numberOf, stoi.
    change ("-" +:+ String c ds') with (String "-" (String c ds')).
    rewrite (read_number_negative (String c ds') Hds).
    now destruct (in_int _).
  - rewrite append_nil_l, append_cons.
    rewrite next_fuel_token;
      [| exact Hsp
       | cbn [starts_with]; now rewrite Ascii.eqb_sym, Hsl].
    rewrite Hq, Hal, Hc, Hm. cbn [orb].
    rewrite <- append_cons, Hspan, append_nil_l.
    unfold numberOf, stoi. rewrite (read_number_digits (String c ds') Hds).
    now destruct (in_int _).
Qed.

Lemma number_token_witness :
  (isNumber "42" = true /\ noDigitAhead ": rest" = true)
  /\ next (mkLexer "42: rest" 7)
     = (mkToken TK_NUMBER "42" 42 7, mkLexer ": rest" 7)
  /\ next (mkLexer "-42: rest" 7)
     = (mkToken TK_NUMBER "-42" (-42) 7, mkLexer ": rest" 7)
  /\ (isNumber "2147483648" = true /\ noDigitAhead ";" = true)
  /\ next (mkLexer "2147483648;" 1)
     = (mkToken TK_NUMBER "2147483648" 0 1, mkLexer ";" 1)
  /\ next (mkLexer "-2147483648;" 1)
     = (mkToken TK_NUMBER "-2147483648" (-2147483648) 1, mkLexer ";" 1).
Proof.
  assert (H1 : isNumber "42" = true) by reflexivity.
  assert (H2 : noDigitAhead ": rest" = true) by reflexivity.
  assert (H3 : isNumber "2147483648" = true) by reflexivity.
  assert (H4 : noDigitAhead ";" = true) by reflexivity.
  split; [now split |]. split; [| split; [| split; [now split | split]]].
  - exact (number_token false "42" ": rest" 7 H1 H2).
  - exact (number_token true "42" ": rest" 7 H1 H2).
  - exact (number_token false "2147483648" ";" 1 H3 H4).
  - exact (number_token true "2147483648" ";" 1 H3 H4).
Defined.

(** ** The parser

    A parser action is followed with a measure of what is left to read:
    every loop of the parser reads a token in each round, so that the fuel
    the model gives them is never used up. *)

Lemma ends_ret {A : Type} (a : A) (p : PState) (Q : A -> PState -> Prop) :
  Q a p -> ends (mret a) p Q.
Proof. exact (fun H => H). Qed.

Lemma ends_bind {A B : Type} (m : P A) (k : A -> P B) (p : PState)
    (Q : B -> PState -> Prop) :
  ends m p (fun a p' => ends (k a) p' Q) -> ends (m ≫= k) p Q.
Proof.
  unfold ends, mbind, P_bind. now destruct (m p).
Qed.

Lemma ends_mono {A : Type} (m : P A) (p : PState)
    (Q Q' : A -> PState -> Prop) :
  ends m p Q -> (forall a p', Q a p' -> Q' a p') -> ends m p Q'.
Proof. unfold ends. destruct (m p); auto. Qed.

Lemma ends_peek (p : PState) (Q : Token -> PState -> Prop) :
  Q (ps_tk p) p -> ends Parser.peek p Q.
Proof. exact (fun H => H). Qed.

Lemma ends_getProgram (p : PState) (Q : Program -> PState -> Prop) :
  Q (ps_prog p) p -> ends Parser.getProgram p Q.
Proof. exact (fun H => H). Qed.

Lemma within_weaken (e : Program) (n m : nat) (p : PState) :
  within e n p -> n <= m -> within e m p.
Proof. intros (H1 & H2 & H3) Hn. repeat split; [exact H1 | lia | exact H3]. Qed.

Lemma consume_within (e : Program) (n : nat) (p : PState) :
  within e n p ->
  forall t p', Parser.consume p = POk t p' ->
    t = ps_tk p /\ ps_prog p' = ps_prog p
    /\ within e (if Parser.isKind TK_EOF (ps_tk p) then n else n - 1) p'
    /\ (Parser.isKind TK_EOF (ps_tk p) = false -> 1 <= n).
Proof.
  intros (Hs & Hn & He) t p'. unfold Parser.consume.
  assert (H := next_lexed (ps_lex p)).
  destruct (next (ps_lex p)) as [t' lx']. cbn [fst snd] in H.
  intros E. injection E as <- <-. cbn [ps_prog].
  destruct H as (Htook & _ & Hk).
  split; [reflexivity |]. split; [reflexivity |].
  unfold within, settled, remaining in *. cbn [ps_tk ps_lex ps_prog].
  unfold Parser.isKind in *.
  destruct (TokenKind_eqb (tok_kind t') TK_EOF) eqn:E';
    destruct (TokenKind_eqb (tok_kind (ps_tk p)) TK_EOF) eqn:E0;
    repeat split; auto; try discriminate; try lia.
  all: try (rewrite Hk; cbn [size String.length]; lia).
  all: try (apply took_size in Htook; lia).
Qed.

Lemma ends_consume (e : Program) (n : nat) (p : PState)
    (Q : Token -> PState -> Prop) :
  within e n p ->
  (forall p', within e n p' -> Q (ps_tk p) p') ->
  ends Parser.consume p Q.
Proof.
  intros H HQ. unfold ends.
  destruct (Parser.consume p) as [t p' | |] eqn:E; try discriminate E.
  - destruct (consume_within e n p H t p' E) as (-> & _ & Hw & _).
    apply HQ. apply (within_weaken _ _ _ _ Hw). destruct (Parser.isKind _ _); lia.
  - unfold Parser.consume in E. now destruct (next _).
  - unfold Parser.consume in E. now destruct (next _).
Qed.

Lemma ends_consume_strict (e : Program) (n : nat) (p : PState)
    (Q : Token -> PState -> Prop) :
  within e n p -> Parser.isKind TK_EOF (ps_tk p) = false ->
  (forall p', within e (n - 1) p' -> 1 <= n -> Q (ps_tk p) p') ->
  ends Parser.consume p Q.
Proof.
  intros H Hk HQ. unfold ends.
  destruct (Parser.consume p) as [t p' | |] eqn:E; try discriminate E.
  - destruct (consume_within e n p H t p' E) as (-> & _ & Hw & Hn).
    rewrite Hk in Hw. apply HQ; auto.
  - unfold Parser.consume in E. now destruct (next _).
  - unfold Parser.consume in E. now destruct (next _).
Qed.

Lemma ends_modify (e : Program) (n : nat) (f : Program -> Program)
    (p : PState) (Q : unit -> PState -> Prop) :
  within e n p ->
  keepsEntry e (f (ps_prog p)) ->
  (forall p', within e n p' -> Q tt p') ->
  ends (Parser.modify f) p Q.
Proof.
  intros (Hs & Hn & He) Hf HQ. unfold ends, Parser.modify. apply HQ.
  repeat split; assumption.
Qed.

Lemma ends_error (e : Program) (n : nat) (msg : string) (p : PState)
    (Q : unit -> PState -> Prop) :
  within e n p ->
  (forall p', within e n p' -> ps_tk p' = ps_tk p -> Q tt p') ->
  ends (Parser.error msg) p Q.
Proof.
  intros (Hs & Hn & He) HQ. unfold ends, Parser.error. apply HQ;
    [repeat split; assumption | reflexivity].
Qed.

Lemma within_pos (e : Program) (n : nat) (p : PState) :
  within e n p -> Parser.isKind TK_EOF (ps_tk p) = false -> 1 <= n.
Proof. intros (_ & H & _) Hk. unfold remaining in H. rewrite Hk in H. lia. Qed.

Lemma kind_not_EOF (k : TokenKind) (t : Token) :
  Parser.isKind k t = true -> k <> TK_EOF ->
  Parser.isKind TK_EOF t = false.
Proof.
  unfold Parser.isKind. destruct (tok_kind t), k; try discriminate;
    intros _ H; try reflexivity; contradiction.
Qed.

Lemma sym_not_EOF (s : string) (t : Token) :
  Parser.isSym s t = true -> Parser.isKind TK_EOF t = false.
Proof.
  unfold Parser.isSym. intros H. apply andb_true_iff in H as [H _].
  now apply (kind_not_EOF TK_SYM).
Qed.

Lemma ident_not_EOF (s : string) (t : Token) :
  Parser.isIdent s t = true -> Parser.isKind TK_EOF t = false.
Proof.
  unfold Parser.isIdent. intros H. apply andb_true_iff in H as [H _].
  now apply (kind_not_EOF TK_IDENT).
Qed.

(** The current token is not the end of the input, for one of the reasons
    the parser's tests give. *)
Ltac not_EOF :=
  match goal with
  | H : Parser.isKind TK_EOF ?t = false |- Parser.isKind TK_EOF ?t = false =>
      exact H
  | H : _ || Parser.isKind TK_EOF ?t = false
    |- Parser.isKind TK_EOF ?t = false =>
      now apply orb_false_iff in H as [_ H]
  | H : Parser.isSym _ ?t = true |- Parser.isKind TK_EOF ?t = false =>
      exact (sym_not_EOF _ _ H)
  | H : Parser.isIdent _ ?t = true |- Parser.isKind TK_EOF ?t = false =>
      exact (ident_not_EOF _ _ H)
  | H : Parser.isKind ?k ?t = true |- Parser.isKind TK_EOF ?t = false =>
      apply (kind_not_EOF k _ H); discriminate
  | H : Parser.isKind _ ?t || Parser.isKind _ ?t = true
    |- Parser.isKind TK_EOF ?t = false =>
      apply orb_true_iff in H as [H | H];
      (eapply kind_not_EOF; [exact H | discriminate])
  | E : ps_tk ?p' = ps_tk ?p |- Parser.isKind TK_EOF (ps_tk ?p') = false =>
      rewrite E; not_EOF
  end.

(** The state at a leaf is within the bound asked for. *)
Ltac within_leaf :=
  match goal with
  | H : within ?e ?n ?p |- within ?e ?m ?p =>
      apply (within_weaken e n m p H); lia
  end.

(** One step of a parser method whose effect on the bound is known. *)
Ltac ends_step :=
  cbv beta;
  lazymatch goal with
  | |- ends (mbind _ _) _ _ => apply ends_bind
  | |- ends (mret _) _ _ => apply ends_ret
  | |- ends Parser.peek _ _ => apply ends_peek
  | |- ends Parser.getProgram _ _ => apply ends_getProgram
  | |- ends (if ?c then _ else _) _ _ =>
      first [ match goal with E : c = _ |- _ => rewrite E end
            | destruct c eqn:? ]
  | H : within ?e ?n ?p |- ends Parser.consume ?p _ =>
      first
        [ apply (ends_consume_strict e n p _ H); [not_EOF |];
          clear H; intros ? H ?
        | apply (ends_consume e n p _ H); clear H; intros ? H ]
  | H : within ?e ?n ?p |- ends (Parser.error _) ?p _ =>
      apply (ends_error e n _ p _ H); clear H; intros ? H ?
  | H : within ?e ?n ?p |- ends (Parser.modify _) ?p _ =>
      apply (ends_modify e n _ p _ H);
      [ try (destruct H as (_ & _ & H); exact H) | clear H; intros ? H ]
  | |- within _ _ _ => within_leaf
  end.

Lemma expectSym_ends (e : Program) (n : nat) (s : string) (p : PState) :
  within e n p ->
  ends (Parser.expectSym s) p (fun _ p' => within e n p').
Proof.
  intros H. unfold Parser.expectSym. repeat ends_step.
Qed.

Lemma gather_ends (fuel : nat) :
  forall (e : Program) (n : nat) (stops : list string) (acc : string)
         (p : PState),
    within e n p -> n < fuel ->
    ends (Parser.gather fuel stops acc) p (fun _ p' => within e n p').
Proof.
  induction fuel as [|fuel IH]; intros e n stops acc p H Hn; [lia |].
  cbn [Parser.gather]. repeat ends_step.
  eapply ends_mono; [apply (IH e (n - 1)); [exact H | lia] |].
  cbv beta. intros ? ? ?. within_leaf.
Qed.

Lemma gather_strict (fuel : nat) (e : Program) (n : nat)
    (stops : list string) (acc : string) (p : PState) :
  within e n p -> n < fuel ->
  existsb (fun s => Parser.isSym s (ps_tk p)) stops
  || Parser.isKind TK_EOF (ps_tk p) = false ->
  ends (Parser.gather fuel stops acc) p (fun _ p' => within e (n - 1) p').
Proof.
  intros H Hn Hstop.
  assert (Hpos : 1 <= n)
    by (apply (within_pos e n p H); now apply orb_false_iff in Hstop as [_ ?]).
  destruct fuel as [|fuel]; [lia |].
  cbn [Parser.gather]. apply ends_bind, ends_peek. rewrite Hstop.
  repeat ends_step. apply gather_ends; [exact H | lia].
Qed.

Lemma evalInit_ends (e : Program) (n : nat) (expr : string) (p : PState) :
  within e n p ->
  ends (Parser.evalInit expr) p (fun _ p' => within e n p').
Proof.
  intros H. unfold Parser.evalInit. apply ends_bind, ends_getProgram.
  assert (Ho := evalRPN_loop_outcome (p_vars (ps_prog p))
                  (p_boolVars (ps_prog p)) ∅
                  (infixToRPN (tokenizeExpr expr)) []).
  unfold evalRPN. destruct (evalRPN_loop _ _ _ _ _); [exact H |].
  unfold ends, Parser.raise. destruct Ho as [-> | [-> _]]; auto.
Qed.

(** A step of a parser method, calls of [expectSym], [gather] and
    [evalInit] included. *)
Ltac ends_more :=
  first
    [ ends_step
    | lazymatch goal with
      | H : within ?e ?n ?p |- ends (Parser.expectSym _) ?p _ =>
          eapply ends_mono;
          [ apply (expectSym_ends e n _ p H) | cbv beta; clear H; intros ? ? H ]
      | H : within ?e ?n ?p |- ends (Parser.evalInit _) ?p _ =>
          eapply ends_mono;
          [ apply (evalInit_ends e n _ p H) | cbv beta; clear H; intros ? ? H ]
      | H : within ?e ?n ?p |- ends (Parser.gather _ _ _) ?p _ =>
          eapply ends_mono;
          [ apply (gather_ends _ e n _ _ p H); lia
          | cbv beta; clear H; intros ? ? H ]
      end ].

Lemma parseNpc_ends (e : Program) (n : nat) (p : PState) :
  within e n p -> Parser.isKind TK_EOF (ps_tk p) = false ->
  ends Parser.parseNpc p (fun _ p' => within e (n - 1) p').
Proof. intros H Hk. unfold Parser.parseNpc. repeat ends_more. Qed.

Lemma parseDesc_ends (e : Program) (n : nat) (p : PState) :
  within e n p -> Parser.isKind TK_EOF (ps_tk p) = false ->
  ends Parser.parseDesc p (fun _ p' => within e (n - 1) p').
Proof. intros H Hk. unfold Parser.parseDesc. repeat ends_more. Qed.

Lemma parseVarDecl_ends (fuel : nat) (e : Program) (n : nat) (p : PState) :
  within e n p -> Parser.isKind TK_EOF (ps_tk p) = false -> n <= fuel ->
  ends (Parser.parseVarDecl fuel) p (fun _ p' => within e (n - 1) p').
Proof. intros H Hk Hn. unfold Parser.parseVarDecl. repeat ends_more. Qed.

(** A call of a loop of the parser whose bound is the induction
    hypothesis [IH] or a lemma [lem]. *)
Ltac ends_loop lem :=
  lazymatch goal with
  | H : within ?e ?n ?p |- ends _ ?p _ =>
      eapply ends_mono;
      [ apply (lem e n); [exact H | lia]
      | cbv beta; clear H; intros ? ? H ]
  end.

Lemma parseParams_ends (fuel : nat) :
  forall (e : Program) (n : nat) (params : list string) (p : PState),
    within e n p -> n < fuel ->
    ends (Parser.parseParams fuel params) p (fun _ p' => within e n p').
Proof.
  induction fuel as [|fuel IH]; intros e n params p H Hn; [lia |].
  cbn [Parser.parseParams]. repeat ends_more.
  all: eapply ends_mono; [apply IH; [exact H | lia] |];
    cbv beta; intros ? ? ?; within_leaf.
Qed.

Lemma parseMethodBody_ends (fuel : nat) :
  forall (e : Program) (n : nat) (acts : list string) (p : PState),
    within e n p -> n < fuel ->
    ends (Parser.parseMethodBody fuel acts) p (fun _ p' => within e n p').
Proof.
  induction fuel as [|fuel IH]; intros e n acts p H Hn; [lia |].
  cbn [Parser.parseMethodBody]. do 3 ends_step; [ends_step; ends_step |].
  assert (Hpos : 1 <= n) by (apply (within_pos e n p H); not_EOF).
  destruct (Parser.isSym ";" (ps_tk p)) eqn:Semi.
  - (* an empty statement: [gather] stops at once *)
    cbn [Parser.gather]. do 3 ends_step. cbn [existsb]. rewrite Semi.
    cbn [orb]. repeat ends_step.
    eapply ends_mono; [apply (IH e (n - 1)); [exact H | lia] |].
    cbv beta; intros ? ? ?; within_leaf.
  - ends_step. eapply ends_mono.
    { apply (gather_strict (S fuel) e n); [exact H | lia |].
      cbn [existsb]. rewrite Semi.
      match goal with
      | E : _ || _ = false |- _ => apply orb_false_iff in E as [-> ->]
      end. reflexivity. }
    cbv beta. clear H. intros ? ? H. repeat ends_step.
    all: eapply ends_mono; [apply (IH e (n - 1)); [within_leaf | lia] |];
      cbv beta; intros ? ? ?; within_leaf.
Qed.

(** A call of a loop whose lemma takes the fuel first. *)
Ltac ends_call lem :=
  lazymatch goal with
  | H : within ?e ?n ?p |- ends _ ?p _ =>
      eapply ends_mono;
      [ apply (lem _ e n); [exact H | lia]
      | cbv beta; clear H; intros ? ? H ]
  end.

Lemma parseClassBody_ends (fuel : nat) :
  forall (e : Program) (n : nat) (cdef : ClassDef) (p : PState),
    within e n p -> n < fuel ->
    ends (Parser.parseClassBody fuel cdef) p (fun _ p' => within e n p').
Proof.
  induction fuel as [|fuel IH]; intros e n cdef p H Hn; [lia |].
  cbn [Parser.parseClassBody].
  repeat first
    [ ends_more
    | lazymatch goal with
      | |- ends (Parser.parseParams _ _) _ _ => ends_call parseParams_ends
      | |- ends (Parser.parseMethodBody _ _) _ _ =>
          ends_call parseMethodBody_ends
      | |- ends (Parser.parseClassBody _ _) _ _ => ends_loop IH
      end ].
Qed.

Lemma parseClass_ends (fuel : nat) (e : Program) (n : nat) (p : PState) :
  within e n p -> Parser.isKind TK_EOF (ps_tk p) = false -> n <= fuel ->
  ends (Parser.parseClass fuel) p (fun _ p' => within e (n - 1) p').
Proof.
  intros H Hk Hn. unfold Parser.parseClass.
  repeat first
    [ ends_more
    | lazymatch goal with
      | |- ends (Parser.parseClassBody _ _) _ _ =>
          ends_call parseClassBody_ends
      end ].
Qed.

Lemma instantiate_entry (className instName : string) (prog prog' : Program) :
  instantiate className instName prog = Some prog' ->
  p_entry prog' = p_entry prog.
Proof.
  unfold instantiate. destruct (p_classes prog !! className); [| discriminate].
  now intros [= <-].
Qed.

Lemma parseNewInstance_ends (e : Program) (n : nat) (p : PState) :
  within e n p -> Parser.isKind TK_EOF (ps_tk p) = false ->
  ends Parser.parseNewInstance p (fun _ p' => within e (n - 1) p').
Proof.
  intros H Hk. unfold Parser.parseNewInstance. repeat ends_more.
  destruct (instantiate _ _ _) as [prog'|] eqn:E; [| repeat ends_more].
  apply (ends_modify e (n - 1) _ _ _ H).
  - destruct H as (_ & _ & H). unfold keepsEntry in *.
    now rewrite (instantiate_entry _ _ _ _ E).
  - intros ? ?. within_leaf.
Qed.

Lemma parseShowRest_ends (fuel : nat) :
  forall (e : Program) (n : nat) (showTexts : list string) (p : PState),
    within e n p -> n < fuel ->
    ends (Parser.parseShowRest fuel showTexts) p
      (fun _ p' => within e n p').
Proof.
  induction fuel as [|fuel IH]; intros e n showTexts p H Hn; [lia |].
  cbn [Parser.parseShowRest].
  repeat first
    [ ends_more
    | lazymatch goal with
      | |- ends (Parser.parseShowRest _ _) _ _ => ends_loop IH
      end ].
Qed.

Lemma parseIf_ends (fuel : nat) (e : Program) (n : nat) (node : Node)
    (p : PState) :
  within e n p -> Parser.isKind TK_EOF (ps_tk p) = false -> n <= fuel ->
  ends (Parser.parseIf fuel node) p (fun _ p' => within e (n - 1) p').
Proof. intros H Hk Hn. unfold Parser.parseIf. repeat ends_more. Qed.

Lemma parseChoice_ends (e : Program) (n : nat) (node : Node) (p : PState) :
  within e n p -> Parser.isKind TK_EOF (ps_tk p) = false ->
  ends (Parser.parseChoice node) p (fun _ p' => within e (n - 1) p').
Proof. intros H Hk. unfold Parser.parseChoice. repeat ends_more. Qed.

Lemma parseNodeBody_ends (fuel : nat) :
  forall (e : Program) (n : nat) (node : Node) (p : PState),
    within e n p -> n < fuel ->
    ends (Parser.parseNodeBody fuel node) p (fun _ p' => within e n p').
Proof.
  induction fuel as [|fuel IH]; intros e n node p H Hn; [lia |].
  cbn [Parser.parseNodeBody]. do 3 ends_step; [ends_step; ends_step |].
  assert (Hpos : 1 <= n) by (apply (within_pos e n p H); not_EOF).
  assert (Hk : Parser.isKind TK_EOF (ps_tk p) = false) by not_EOF.
  ends_step; [| repeat first [ends_more | ends_loop IH]].
  ends_step.
  assert (Hstep : forall (m : P Node),
            ends m p (fun _ p' => within e (n - 1) p') ->
            ends m p (fun a p' =>
              ends (Parser.parseNodeBody fuel a) p'
                (fun _ p'' => within e n p''))).
  { intros m Hm. apply (ends_mono _ _ _ _ Hm). intros a p' H'.
    eapply ends_mono; [apply (IH e (n - 1)); [exact H' | lia] |].
    cbv beta. intros ? ? ?. within_leaf. }
  apply Hstep.
  repeat first
    [ lazymatch goal with
      | H : within ?e ?n ?p, E : Parser.isKind TK_IDENT (ps_tk ?p) = true
        |- ends (Parser.gather _ _ _) ?p _ =>
          (* a statement of another kind: [gather] takes the keyword *)
          eapply ends_mono;
          [ apply (gather_strict _ e n _ _ p H); [lia |];
            cbn [existsb]; rewrite Hk;
            replace (Parser.isSym ";" (ps_tk p)) with false;
            [ reflexivity
            | symmetry; unfold Parser.isSym, Parser.isKind in *;
              destruct (tok_kind (ps_tk p)); try discriminate E; reflexivity ]
          | cbv beta; clear H; intros ? ? H ]
      | |- ends (Parser.parseShowRest _ _) _ _ =>
          ends_call parseShowRest_ends
      | H : within ?e ?n ?p |- ends (Parser.parseChoice _) ?p _ =>
          eapply ends_mono;
          [ apply (parseChoice_ends e n _ p H); not_EOF
          | cbv beta; intros ? ? ?; within_leaf ]
      | H : within ?e ?n ?p |- ends (Parser.parseIf _ _) ?p _ =>
          eapply ends_mono;
          [ apply (parseIf_ends _ e n _ p H); [not_EOF | lia]
          | cbv beta; intros ? ? ?; within_leaf ]
      end
    | ends_more ].
Qed.

Lemma keepsEntry_first (e prog : Program) (nodename : string) :
  keepsEntry e prog ->
  keepsEntry e (if p_entry prog =? "" then set_entry nodename prog else prog).
Proof.
  unfold keepsEntry. intros H He. specialize (H He).
  destruct (p_entry prog =? "") eqn:E; [| exact H].
  apply String.eqb_eq in E. congruence.
Qed.

Lemma parseNode_ends (fuel : nat) (e : Program) (n : nat) (p : PState) :
  within e n p -> Parser.isKind TK_EOF (ps_tk p) = false -> n <= fuel ->
  ends (Parser.parseNode fuel) p (fun _ p' => within e (n - 1) p').
Proof.
  intros H Hk Hn. unfold Parser.parseNode.
  repeat first
    [ lazymatch goal with
      | H : within ?e ?k ?p
        |- ends (Parser.modify (fun p0 => if _ then _ else _)) ?p _ =>
          apply (ends_modify e k _ _ _ H);
          [ destruct H as (_ & _ & H); now apply keepsEntry_first
          | clear H; intros ? H ]
      | |- ends (Parser.parseNodeBody _ _) _ _ =>
          ends_call parseNodeBody_ends
      end
    | ends_more ].
Qed.

Lemma parseRoomBody_ends (fuel : nat) :
  forall (e : Program) (n : nat) (room : Room) (p : PState),
    within e n p -> n < fuel ->
    ends (Parser.parseRoomBody fuel room) p (fun _ p' => within e n p').
Proof.
  induction fuel as [|fuel IH]; intros e n room p H Hn; [lia |].
  cbn [Parser.parseRoomBody]. repeat first [ends_more | ends_loop IH].
Qed.

Lemma parseRoom_ends (fuel : nat) (e : Program) (n : nat) (p : PState) :
  within e n p -> Parser.isKind TK_EOF (ps_tk p) = false -> n <= fuel ->
  ends (Parser.parseRoom fuel) p (fun _ p' => within e (n - 1) p').
Proof.
  intros H Hk Hn. unfold Parser.parseRoom.
  repeat first
    [ ends_more
    | lazymatch goal with
      | |- ends (Parser.parseRoomBody _ _) _ _ =>
          ends_call parseRoomBody_ends
      end ].
  destruct H as (_ & _ & H). unfold keepsEntry in *. intros He.
  specialize (H He). cbv beta zeta. now destruct (_ =? "").
Qed.

Lemma parsePicture_ends (e : Program) (n : nat) (p : PState) :
  within e n p -> Parser.isKind TK_EOF (ps_tk p) = false ->
  ends Parser.parsePicture p (fun _ p' => within e (n - 1) p').
Proof. intros H Hk. unfold Parser.parsePicture. repeat ends_more. Qed.

Lemma parse_ends (fuel : nat) :
  forall (e : Program) (n : nat) (p : PState),
    within e n p -> n < fuel ->
    ends (Parser.parse fuel) p (fun _ p' => within e n p').
Proof.
  induction fuel as [|fuel IH]; intros e n p H Hn; [lia |].
  cbn [Parser.parse]. do 3 ends_step; [ends_step; within_leaf |].
  assert (Hk : Parser.isKind TK_EOF (ps_tk p) = false) by assumption.
  assert (Hpos : 1 <= n) by (apply (within_pos e n p H); not_EOF).
  ends_step.
  assert (Hstep : forall (m : P unit),
            ends m p (fun _ p' => within e (n - 1) p') ->
            ends m p (fun a p' =>
              ends (Parser.parse fuel) p' (fun _ p'' => within e n p''))).
  { intros m Hm. apply (ends_mono _ _ _ _ Hm). intros a p' H'.
    eapply ends_mono; [apply (IH e (n - 1)); [exact H' | lia] |].
    cbv beta. intros ? ? ?. within_leaf. }
  apply Hstep.
  repeat first
    [ lazymatch goal with
      | |- ends Parser.parseNpc _ _ => apply (parseNpc_ends e n p H Hk)
      | |- ends Parser.parseDesc _ _ => apply (parseDesc_ends e n p H Hk)
      | |- ends (Parser.parseVarDecl _) _ _ =>
          apply (parseVarDecl_ends _ e n p H Hk); lia
      | |- ends (Parser.parseNode _) _ _ =>
          apply (parseNode_ends _ e n p H Hk); lia
      | |- ends (Parser.parseClass _) _ _ =>
          apply (parseClass_ends _ e n p H Hk); lia
      | |- ends Parser.parseNewInstance _ _ =>
          apply (parseNewInstance_ends e n p H Hk)
      | |- ends (Parser.parseRoom _) _ _ =>
          apply (parseRoom_ends _ e n p H Hk); lia
      | |- ends Parser.parsePicture _ _ =>
          apply (parsePicture_ends e n p H Hk)
      end
    | ends_more ].
Qed.

Lemma resume_within (src : string) (prog : Program) :
  within prog (S (size src)) (resume src prog).
Proof.
  unfold resume. assert (H := next_lexed (mkLexer src 1)).
  destruct (next (mkLexer src 1)) as [t lx]. cbn [fst snd] in H.
  destruct H as (Htook & _ & Hk). cbn [lx_rest lx_line] in *.
  unfold within, settled, remaining, keepsEntry, Parser.isKind.
  cbn [ps_tk ps_lex ps_prog].
  destruct (TokenKind_eqb (tok_kind t) TK_EOF).
  - rewrite Hk. cbn [size String.length]. repeat split; auto; lia.
  - repeat split; auto; [discriminate | lia].
Qed.

Lemma bind_POk {A B : Type} (m : P A) (k : A -> P B) (p p' : PState)
    (b : B) :
  (m ≫= k) p = POk b p' ->
  exists a p1, m p = POk a p1 /\ k a p1 = POk b p'.
Proof.
  unfold mbind, P_bind. destruct (m p) as [a p1 | |]; try discriminate.
  intros E. now exists a, p1.
Qed.

Lemma parse_reads_all (fuel : nat) :
  forall (p p' : PState),
    Parser.parse fuel p = POk tt p' ->
    Parser.isKind TK_EOF (ps_tk p') = true.
Proof.
  induction fuel as [|fuel IH]; intros p p' E; [discriminate |].
  cbn [Parser.parse] in E.
  apply bind_POk in E as (tk & p0 & Hpeek & E).
  injection Hpeek as <- <-.
  destruct (Parser.isKind TK_EOF (ps_tk p)) eqn:K.
  - now injection E as <-.
  - apply bind_POk in E as (a & p1 & _ & E). exact (IH _ _ E).
Qed.

(** X16.  The parser ends on every text.  It comes back with the
    end-of-input token as the current one and nothing left to read, or it is
    ended by the evaluation of an initialiser, with [out_of_range] or with
    the trap of a division; the loops of the model never run out of fuel, so
    that [runSource] always has an outcome to start from. *)
Theorem parser_terminates (src : string) :
  match parseSource src with
  | POk _ p' =>
      Parser.isKind TK_EOF (ps_tk p') = true /\ lx_rest (ps_lex p') = ""
  | PRaise e => e = OutOfRange \/ e = DivisionTrap
  | PStuck => False
  end
  /\ forall fuel depth playerName cin,
       runSource fuel depth src playerName cin <> None.
Proof.
  assert (H := parse_ends (2 + size src) emptyProgram (S (size src))
                 (Parser.init src) (resume_within src emptyProgram)
                 ltac:(lia)).
  assert (Hall := parse_reads_all (2 + size src) (Parser.init src)).
  unfold ends in H. unfold runSource, parseSource, mbind, P_bind.
  destruct (Parser.parse (2 + size src) (Parser.init src))
    as [[] p' | e |]; [| | contradiction].
  - cbn. split; [| discriminate]. destruct H as (Hs & _).
    specialize (Hall p' eq_refl). auto.
  - split; [exact H | discriminate].
Qed.

(** X17.  The entry of a program is set once: a parser that starts with a
    program whose entry is named ends with the same entry, whatever the text
    declares.  (A parse that does not return was ended by an initialiser,
    with [out_of_range] or the trap of a division.) *)
Theorem entry_is_kept (src : string) (prog : Program) :
  p_entry prog <> "" ->
  match Parser.parse (2 + size src) (resume src prog) with
  | POk _ p' => p_entry (ps_prog p') = p_entry prog
  | PRaise e => e = OutOfRange \/ e = DivisionTrap
  | PStuck => False
  end.
Proof.
  intros He.
  assert (H := parse_ends (2 + size src) prog (S (size src))
                 (resume src prog) (resume_within src prog) ltac:(lia)).
  unfold ends in H. destruct (Parser.parse _ _) as [[] p' | e |]; auto.
  destruct H as (_ & _ & H). exact (H He).
Qed.

Lemma entry_is_kept_witness :
  p_entry (set_entry "Start" emptyProgram) <> ""
  /\ match Parser.parse (2 + size "node Other { end; }")
             (resume "node Other { end; }" (set_entry "Start" emptyProgram))
     with
     | POk _ p' => p_entry (ps_prog p') = "Start"
     | PRaise e => e = OutOfRange \/ e = DivisionTrap
     | PStuck => False
     end.
Proof.
  assert (H : p_entry (set_entry "Start" emptyProgram) <> "") by discriminate.
  split; [exact H |].
  exact (entry_is_kept "node Other { end; }"
           (set_entry "Start" emptyProgram) H).
Defined.

(** ** Signals, arguments and method calls *)

(** X23.  A [SIGNAL] action in a node writes the name with [true] or
    [false], as the value of the expression is 0 or not; the same action in
    a method body writes the name with the value as a number.  The actions
    behind it run. *)
Theorem signal_statement (depth : nat)
    (call : string -> string -> list Z -> Program -> list event ->
            outcome (Program * list event) (Program * list event))
    (this name expr : string) (rest : list string) (st : RunState) (c : MCtx)
    (val mval : Z) :
  no_space name = true ->
  rs_eval expr st = Ok val -> m_eval expr c = Ok mval ->
  runActions depth (("SIGNAL " +:+ name +:+ " " +:+ expr) :: rest) st
  = runActions depth rest
      (rs_emit (Cout ("[SIGNAL] " +:+ name +:+ " = "
                      +:+ (if (val =? 0)%Z then "false" else "true")
                      +:+ nl)) st)
  /\ executeActionsWithContext call this
       (("SIGNAL " +:+ name +:+ " " +:+ expr) :: rest) c
     = executeActionsWithContext call this rest
         (m_emit (Cout ("[SIGNAL] " +:+ name +:+ " = " +:+ pretty mval
                        +:+ nl)) c).
Proof.
  intros Hname Hval Hmval. split.
  - cbn [runActions].
    replace (starts_with "SET " _) with false by reflexivity.
    replace (starts_with "SIGNAL " _) with true by reflexivity.
    replace (drop_str 7 _) with (name +:+ " " +:+ expr) by reflexivity.
    rewrite (splitNameExpr_shape _ _ Hname).
    unfold rs_eval, evalExpressionString in *.
    now rewrite tokenizeExpr_lstrip, Hval.
  - cbn [executeActionsWithContext].
    replace (starts_with "SET " _) with false by reflexivity.
    replace (starts_with "SIGNAL " _) with true by reflexivity.
    replace (drop_str 7 _) with (name +:+ " " +:+ expr) by reflexivity.
    rewrite (splitNameExpr_shape _ _ Hname).
    unfold m_eval, evalExpressionString in *.
    now rewrite tokenizeExpr_lstrip, Hmval.
Qed.

Lemma signal_statement_witness :
  (no_space "alarm" = true /\ rs_eval "hp-3" (hpState 5) = Ok 2%Z
   /\ m_eval "hp-3" (mkMCtx emptyProgram {[ "hp" := 5%Z ]} ∅ ∅ "" false [])
      = Ok 2%Z)
  /\ runActions 1 ["SIGNAL alarm hp-3"] (hpState 5)
     = Done (Fall, rs_emit (Cout ("[SIGNAL] alarm = true" +:+ nl)) (hpState 5))
  /\ executeActionsWithContext (executeMethod 0) "" ["SIGNAL alarm hp-3"]
       (mkMCtx emptyProgram {[ "hp" := 5%Z ]} ∅ ∅ "" false [])
     = Done (true, mkMCtx emptyProgram {[ "hp" := 5%Z ]} ∅ ∅ "" false
                     [Cout ("[SIGNAL] alarm = 2" +:+ nl)]).
Proof.
  assert (H1 : no_space "alarm" = true) by reflexivity.
  assert (H2 : rs_eval "hp-3" (hpState 5) = Ok 2%Z) by reflexivity.
  assert (H3 : m_eval "hp-3"
                 (mkMCtx emptyProgram {[ "hp" := 5%Z ]} ∅ ∅ "" false [])
               = Ok 2%Z) by reflexivity.
  split; [repeat split; assumption |]. split.
  - exact (proj1 (signal_statement 1 (executeMethod 0) "" "alarm" "hp-3" []
                    (hpState 5) _ 2 2 H1 H2 H3)).
  - exact (proj2 (signal_statement 1 (executeMethod 0) "" "alarm" "hp-3" []
                    (hpState 5) _ 2 2 H1 H2 H3)).
Defined.

Lemma splitArgs_loop_trimmed (s : string) :
  forall cur depth out,
    Forall (fun a => trim a = a) out ->
    Forall (fun a => trim a = a) (splitArgs_loop s cur depth out).
Proof.
  induction s as [|c s IH]; intros cur depth out H; cbn [splitArgs_loop].
  - destruct (cur =? ""); [exact H |]. apply Forall_app. split; [exact H |].
    constructor; [apply trim_idempotent | constructor].
  - destruct (c =? "(")%char; [now apply IH |].
    destruct (c =? ")")%char; [now apply IH |].
    destruct ((c =? ",")%char && (depth =? 0)%Z); [| now apply IH].
    apply IH. apply Forall_app. split; [exact H |].
    constructor; [apply trim_idempotent | constructor].
Qed.

(** X21.  The arguments that [splitArgs] gives are trimmed and none of them
    is empty. *)
Theorem splitArgs_arguments (s : string) :
  Forall (fun a => a <> "" /\ trim a = a) (splitArgs s).
Proof.
  unfold splitArgs.
  assert (H := splitArgs_loop_trimmed s "" 0%Z [] (List.Forall_nil _)).
  rewrite List.Forall_forall in *. intros a Ha.
  apply List.filter_In in Ha as [Hin Hne]. split; [| now apply H].
  apply negb_true_iff in Hne. now apply String.eqb_neq in Hne.
Qed.

Lemma splitArgs_loop_plain (a : string) :
  forall s cur depth out,
    all_chars (fun c => negb ((c =? ",")%char || (c =? "(")%char
                              || (c =? ")")%char)) a = true ->
    splitArgs_loop (a +:+ s) cur depth out
    = splitArgs_loop s (cur +:+ a) depth out.
Proof.
  induction a as [|c a IH]; intros s cur depth out H.
  - now rewrite append_nil_l, append_nil_r.
  - cbn [all_chars] in H. apply andb_true_iff in H as [Hc H].
    apply negb_true_iff in Hc. apply orb_false_iff in Hc as [Hc Hr].
    apply orb_false_iff in Hc as [Hc Hl].
    rewrite append_cons. cbn [splitArgs_loop]. rewrite Hl, Hr, Hc.
    cbn [andb]. rewrite (IH _ _ _ _ H), append_assoc. reflexivity.
Qed.

Lemma isPlainArg_spec (a : string) :
  isPlainArg a = true ->
  (a =? "") = false
  /\ all_chars (fun c => negb ((c =? ",")%char || (c =? "(")%char
                               || (c =? ")")%char)) a = true
  /\ trim a = a.
Proof.
  unfold isPlainArg. intros H.
  apply andb_true_iff in H as [H Hb]. apply andb_true_iff in H as [H Hf].
  apply andb_true_iff in H as [Hne Hall].
  apply negb_true_iff in Hne, Hf, Hb. repeat split; auto.
  now apply trim_fixed.
Qed.

Lemma splitArgs_loop_join (args : list string) :
  forall out,
    forallb isPlainArg args = true ->
    splitArgs_loop (joinArgs args) "" 0%Z out = out ++ args.
Proof.
  induction args as [|a [|b rest] IH]; intros out H.
  - cbn. now rewrite app_nil_r.
  - cbn [forallb] in H. apply andb_true_iff in H as [Ha _].
    destruct (isPlainArg_spec a Ha) as (Hne & Hall & Htrim).
    cbn [joinArgs]. rewrite <- (append_nil_r a) at 1.
    rewrite (splitArgs_loop_plain a "" "" _ _ Hall), append_nil_l.
    cbn [splitArgs_loop]. now rewrite Hne, Htrim.
  - cbn [forallb] in H. apply andb_true_iff in H as [Ha H].
    destruct (isPlainArg_spec a Ha) as (Hne & Hall & Htrim).
    cbn [joinArgs]. rewrite (splitArgs_loop_plain a _ "" _ _ Hall).
    rewrite append_nil_l, append_cons, append_nil_l.
    cbn [splitArgs_loop]. change ("," =? "(")%char with false.
    change ("," =? ")")%char with false. change ("," =? ",")%char with true.
    cbn [andb Z.eqb]. rewrite Htrim, (IH _ H), <- app_assoc. reflexivity.
Qed.

(** X22.  [splitArgs] gives back the arguments of a list written with
    commas, when no argument is empty, holds a comma or a parenthesis, or
    begins or ends with white space. *)
Theorem splitArgs_joinArgs (args : list string) :
  forallb isPlainArg args = true -> splitArgs (joinArgs args) = args.
Proof.
  intros H. unfold splitArgs. rewrite (splitArgs_loop_join args [] H).
  cbn [app]. induction args as [|a args IH]; [reflexivity |].
  cbn [forallb] in H. apply andb_true_iff in H as [Ha H].
  destruct (isPlainArg_spec a Ha) as (Hne & _ & _).
  cbn [List.filter]. rewrite Hne. cbn [negb]. now rewrite (IH H).
Qed.

Lemma splitArgs_joinArgs_witness :
  forallb isPlainArg ["hp - 1"; "3"; "rival.health"] = true
  /\ joinArgs ["hp - 1"; "3"; "rival.health"] = "hp - 1,3,rival.health"
  /\ splitArgs "hp - 1,3,rival.health" = ["hp - 1"; "3"; "rival.health"].
Proof.
  split; [reflexivity |]. split; [reflexivity |].
  exact (splitArgs_joinArgs ["hp - 1"; "3"; "rival.health"] eq_refl).
Defined.

Lemma sameDeclarations_refl (prog : Program) : sameDeclarations prog prog.
Proof. unfold sameDeclarations. auto 10. Qed.

Lemma sameDeclarations_trans (a b c : Program) :
  sameDeclarations a b -> sameDeclarations b c -> sameDeclarations a c.
Proof.
  unfold sameDeclarations.
  intros (A1 & A2 & A3 & A4 & A5 & A6 & A7) (B1 & B2 & B3 & B4 & B5 & B6 & B7).
  repeat split; congruence.
Qed.

Lemma writeBack_lookup {V : Type} (globals locals : gmap string V)
    (k : string) :
  writeBack globals locals !! k
  = match globals !! k with
    | Some gv => Some (default gv (locals !! k))
    | None => None
    end.
Proof.
  unfold writeBack. rewrite lookup_merge.
  destruct (globals !! k), (locals !! k); reflexivity.
Qed.

Lemma writeBack_dom {V : Type} (globals locals : gmap string V) :
  dom (writeBack globals locals) = dom globals.
Proof.
  apply set_eq. intros k. rewrite !elem_of_dom, writeBack_lookup.
  destruct (globals !! k); cbn; split; intros [? ?]; eauto; discriminate.
Qed.

Lemma actions_keep_declarations
    (call : string -> string -> list Z -> Program -> list event ->
            outcome (Program * list event) (Program * list event))
    (this : string) :
  (forall inst method args prog tr,
      callKeeps prog tr (call inst method args prog tr)) ->
  forall (actions : list string) (c : MCtx),
    match executeActionsWithContext call this actions c with
    | Done (_, c') | Throw _ c' =>
        sameDeclarations (m_prog c) (m_prog c')
        /\ exists k, m_trace c' = m_trace c ++ k
    | NoFuel => True
    end.
Proof.
  intros Hcall actions.
  assert (Hrefl : forall c, sameDeclarations (m_prog c) (m_prog c)
                            /\ exists k, m_trace c = m_trace c ++ k).
  { intros c. split; [apply sameDeclarations_refl |]. exists [].
    now rewrite app_nil_r. }
  assert (Hstep : forall c c1 rest,
            sameDeclarations (m_prog c) (m_prog c1) ->
            (exists k, m_trace c1 = m_trace c ++ k) ->
            match executeActionsWithContext call this rest c1 with
            | Done (_, c') | Throw _ c' =>
                sameDeclarations (m_prog c1) (m_prog c')
                /\ exists k, m_trace c' = m_trace c1 ++ k
            | NoFuel => True
            end ->
            match executeActionsWithContext call this rest c1 with
            | Done (_, c') | Throw _ c' =>
                sameDeclarations (m_prog c) (m_prog c')
                /\ exists k, m_trace c' = m_trace c ++ k
            | NoFuel => True
            end).
  { intros c c1 rest Hs (k & Hk) H.
    destruct (executeActionsWithContext call this rest c1) as [[b c'] | e c' |];
      [| | exact I];
      destruct H as (Hs' & k' & Hk'); (split;
        [ exact (sameDeclarations_trans _ _ _ Hs Hs')
        | exists (k ++ k'); now rewrite Hk', Hk, app_assoc ]). }
  induction actions as [|act rest IH]; intros c;
    cbn [executeActionsWithContext]; [apply Hrefl |].
  destruct (starts_with "SET " act).
  { destruct (splitNameExpr _) as [name expr].
    destruct (m_eval expr c); [| apply Hrefl].
    apply Hstep; [| | apply IH].
    - unfold m_assign. destruct (splitDot name).
      repeat case_match; apply sameDeclarations_refl.
    - exists []. rewrite app_nil_r. unfold m_assign. destruct (splitDot name).
      now repeat case_match. }
  destruct (starts_with "SIGNAL " act).
  { destruct (splitNameExpr _) as [name expr].
    destruct (m_eval expr c); [| apply Hrefl].
    apply Hstep; [apply sameDeclarations_refl | now eexists | apply IH]. }
  destruct (starts_with "IF " act).
  { destruct (decodeIf act) as [[[cond target] elseTarget]|]; [| apply IH].
    destruct (m_eval cond c); [| apply Hrefl].
    destruct (negb _); [apply (Hrefl (m_jump _ c)) |].
    destruct (negb _); [apply (Hrefl (m_jump _ c)) | apply IH]. }
  destruct (starts_with "GOTO " act); [apply (Hrefl (m_jump _ c)) |].
  destruct (act =? "END").
  { split; [apply sameDeclarations_refl | now eexists]. }
  destruct (starts_with "STMT " act).
  { destruct (decodeCall _) as [[[inst method] argsraw]|].
    - destruct (evalArgs _ _ _ _) as [argVals|]; [| apply Hrefl].
      assert (H := Hcall inst method argVals (m_prog c) (m_trace c)).
      destruct (call inst method argVals (m_prog c) (m_trace c))
        as [[prog' tr'] | e [prog' tr'] |]; [| exact H | exact I].
      destruct H as [Hs Hk]. apply Hstep; [exact Hs | exact Hk | apply IH].
    - destruct (starts_with "print" _); [| apply IH].
      destruct (printInner _) as [inner|]; [| apply IH].
      destruct (isQuoted inner).
      + apply Hstep; [apply sameDeclarations_refl | now eexists | apply IH].
      + destruct (m_eval inner c); [| apply Hrefl].
        apply Hstep; [apply sameDeclarations_refl | now eexists | apply IH]. }
  destruct (starts_with "SHOW " act); [| apply IH].
  apply Hstep; [apply sameDeclarations_refl | now eexists | apply IH].
Qed.

Lemma executeMethod_keeps (depth : nat) :
  forall inst method args prog tr,
    callKeeps prog tr (executeMethod depth inst method args prog tr).
Proof.
  induction depth as [|depth IH]; intros inst method args prog tr;
    [exact I |].
  cbn [executeMethod].
  assert (Herr : forall msg,
            callKeeps prog tr (Done (prog, tr ++ [Cerr msg]))).
  { intros msg. split; [apply sameDeclarations_refl | now eexists]. }
  destruct (p_instanceClass prog !! inst) as [cls|]; [| apply Herr].
  destruct (p_classes prog !! cls) as [cdef|]; [| apply Herr].
  destruct (c_methods cdef !! method) as [actions|]; [| apply Herr].
  match goal with
  | |- context [executeActionsWithContext ?call ?this ?acts ?c] =>
      assert (H := actions_keep_declarations call this IH acts c);
      destruct (executeActionsWithContext call this acts c)
        as [[b c'] | e c' |]
  end; [| exact H | exact I].
  cbn [m_prog m_trace] in H. destruct H as [Hs Hk]. split; [| exact Hk].
  destruct Hs as (A1 & A2 & A3 & A4 & A5 & A6 & A7).
  unfold sameDeclarations, set_objects, set_boolVars, set_vars.
  cbn [p_classes p_instanceClass p_nodes p_entry p_stringVars p_vars
       p_boolVars p_objects].
  rewrite !writeBack_dom. repeat split; assumption.
Qed.

(** X20.  Whatever a method call does, and also when it ends with an
    exception, it leaves the classes, the classes of the instances, the
    nodes, the entry and the string variables as they were, declares no
    global and drops none, and only adds to what was written. *)
Theorem method_call_keeps_declarations (depth : nat)
    (inst method : string) (args : list Z) (prog : Program)
    (tr : list event) :
  match executeMethod depth inst method args prog tr with
  | Done (prog', tr') | Throw _ (prog', tr') =>
      sameDeclarations prog prog' /\ exists k, tr' = tr ++ k
  | NoFuel => True
  end.
Proof. apply executeMethod_keeps. Qed.

(** ** The substitution of [SHOW] *)

Lemma starts_with_size (pat s : string) :
  starts_with pat s = true -> size pat <= size s.
Proof.
  revert s. induction pat as [|a pat IH]; intros [|b s] H;
    cbn [starts_with] in H; try discriminate; rewrite ?size_cons;
    cbn [size String.length]; try lia.
  apply andb_true_iff in H as [_ H]. specialize (IH _ H). lia.
Qed.

Lemma find_str_bound (pat s : string) (i : nat) :
  find_str pat s = Some i -> i + size pat <= size s.
Proof.
  revert i. induction s as [|c s IH]; intros i; cbn [find_str].
  - destruct (starts_with pat "") eqn:E; [| discriminate].
    intros [= <-]. apply starts_with_size in E. lia.
  - destruct (starts_with pat (String c s)) eqn:E.
    + intros [= <-]. apply starts_with_size in E. lia.
    + destruct (find_str pat s) as [j|]; [| discriminate].
      intros [= <-]. specialize (IH j eq_refl). rewrite size_cons. lia.
Qed.

Lemma size_nil : size "" = 0.
Proof. reflexivity. Qed.

Lemma drop_str_all (n : nat) (s : string) :
  size s <= n -> drop_str n s = "".
Proof.
  revert s. induction n as [|n IH]; intros [|c s] H;
    rewrite ?size_cons, ?size_nil in H; cbn [drop_str];
    [reflexivity | lia | reflexivity | apply IH; lia].
Qed.

Lemma drop_str_length (n : nat) (s : string) :
  n <= size s -> size (drop_str n s) = size s - n.
Proof.
  revert s. induction n as [|n IH]; intros [|c s] H;
    rewrite ?size_cons, ?size_nil in *; cbn [drop_str];
    rewrite ?size_cons, ?size_nil; try lia.
  rewrite IH; lia.
Qed.

Lemma take_str_length (n : nat) (s : string) :
  n <= size s -> size (take_str n s) = n.
Proof.
  revert s. induction n as [|n IH]; intros [|c s] H;
    rewrite ?size_cons, ?size_nil in *; cbn [take_str];
    rewrite ?size_cons, ?size_nil; try lia.
  rewrite IH; lia.
Qed.

Lemma find_from_bound (pat : string) (pos : nat) (s : string) (i : nat) :
  pos <= size s ->
  find_from pat pos s = Some i -> pos <= i /\ i + size pat <= size s.
Proof.
  unfold find_from. intros Hpos.
  destruct (find_str pat (drop_str pos s)) as [j|] eqn:E; [| discriminate].
  cbn. intros [= <-]. apply find_str_bound in E.
  rewrite drop_str_length in E by exact Hpos. lia.
Qed.

Lemma find_from_shift (pat a t : string) (k : nat) :
  find_from pat (size a + k) (a +:+ t)
  = (fun i => size a + i) <$> find_from pat k t.
Proof.
  unfold find_from. rewrite drop_str_plus.
  destruct (find_str pat (drop_str k t)); cbn; [f_equal; lia | reflexivity].
Qed.

Lemma take_str_plus (n : nat) (a b : string) :
  take_str (size a + n) (a +:+ b) = a +:+ take_str n b.
Proof.
  induction a as [|x a IH]; push_append; [reflexivity |].
  rewrite size_cons. cbn [Nat.add take_str]. f_equal. exact IH.
Qed.

Lemma replace_str_shift (a t by_ : string) (pos len : nat) :
  replace_str (size a + pos) len by_ (a +:+ t)
  = a +:+ replace_str pos len by_ t.
Proof.
  unfold replace_str. rewrite take_str_plus, <- Nat.add_assoc, drop_str_plus.
  now rewrite !append_assoc.
Qed.

Lemma substr_shift (a t : string) (pos len : nat) :
  substr (size a + pos) len (a +:+ t) = substr pos len t.
Proof. unfold substr. now rewrite drop_str_plus. Qed.

Section Substitution.
Variable prog : Program.
Variable vars : gmap string Z.
Variable objects : gmap string (gmap string Z).

Lemma showLoop_shift (fuel : nat) :
  forall (a t : string) (k : nat),
    showLoop prog vars objects fuel (a +:+ t) (size a + k)
    = a +:+ showLoop prog vars objects fuel t k.
Proof.
  induction fuel as [|fuel IH]; intros a t k; [reflexivity |].
  cbn [showLoop]. rewrite find_from_shift.
  destruct (find_from "${" k t) as [i|]; [| reflexivity].
  cbn [fmap option_fmap option_map].
  replace (size a + i + 2) with (size a + (i + 2)) by lia.
  rewrite find_from_shift.
  destruct (find_from "}" (i + 2) t) as [j|]; [| reflexivity].
  cbn [fmap option_fmap option_map].
  rewrite substr_shift, replace_str_shift.
  replace (size a + j - (size a + i) - 2) with (j - i - 2) by lia.
  replace (size a + j - (size a + i) + 1) with (j - i + 1) by lia.
  rewrite <- Nat.add_assoc. apply IH.
Qed.

Lemma find_from_past (pat : string) (k : nat) (t : string) :
  pat <> "" -> size t <= k -> find_from pat k t = None.
Proof.
  intros Hp Hk. unfold find_from. rewrite drop_str_all by exact Hk.
  destruct pat; [contradiction | reflexivity].
Qed.

Lemma showLoop_fuel (f : nat) :
  forall (t : string) (k f' : nat),
    size t - k <= f -> size t - k <= f' ->
    showLoop prog vars objects f t k = showLoop prog vars objects f' t k.
Proof.
  induction f as [|f IH]; intros t k f' Hf Hf'.
  - destruct f' as [|f']; [reflexivity |]. cbn [showLoop].
    now rewrite find_from_past by (discriminate || lia).
  - destruct f' as [|f'].
    { cbn [showLoop]. now rewrite find_from_past by (discriminate || lia). }
    cbn [showLoop].
    destruct (find_from "${" k t) as [i|] eqn:E1; [| reflexivity].
    assert (Hk : k <= size t).
    { destruct (Nat.le_gt_cases k (size t)) as [H | H]; [exact H |].
      rewrite find_from_past in E1 by (discriminate || lia). discriminate. }
    destruct (find_from_bound _ _ _ _ Hk E1) as [Hi1 Hi2].
    change (size "${") with 2 in Hi2.
    destruct (find_from "}" (i + 2) t) as [j|] eqn:E2; [| reflexivity].
    destruct (find_from_bound _ _ _ _ Hi2 E2) as [Hj1 Hj2].
    change (size "}") with 1 in Hj2.
    assert (Hsize : forall v,
              size (replace_str i (j - i + 1) v t) - (i + size v)
              = size t - (j + 1)).
    { intros v. unfold replace_str. rewrite !size_append.
      rewrite take_str_length by lia.
      rewrite drop_str_length by lia. lia. }
    apply IH; rewrite Hsize; lia.
Qed.

Lemma find_open_first (pre r : string) :
  find_str "${" pre = None ->
  find_str "${" (pre +:+ "${" +:+ r) = Some (size pre).
Proof.
  induction pre as [|c pre IH]; intros H.
  - rewrite append_nil_l. apply find_str_here.
  - rewrite append_cons. cbn [find_str] in *.
    destruct (starts_with "${" (String c pre)) eqn:E; [discriminate |].
    destruct (find_str "${" pre) eqn:F; [discriminate |].
    rewrite (IH eq_refl).
    assert (Hno : starts_with "${" (String c (pre +:+ "${" +:+ r)) = false).
    { cbn [starts_with] in *.
      destruct ("$" =? c)%char; [| reflexivity]. cbn [andb] in *.
      destruct pre as [|d pre]; [reflexivity |].
      rewrite append_cons. cbn [starts_with] in *.
      now rewrite andb_true_r in *. }
    now rewrite Hno.
Qed.

Lemma find_close_first (name r : string) :
  find_str "}" name = None ->
  find_str "}" (name +:+ "}" +:+ r) = Some (size name).
Proof.
  induction name as [|c name IH]; intros H.
  - rewrite append_nil_l. apply find_str_here.
  - rewrite append_cons. cbn [find_str] in *.
    destruct (starts_with "}" (String c name)) eqn:E; [discriminate |].
    destruct (find_str "}" name) eqn:F; [discriminate |].
    rewrite (IH eq_refl).
    assert (Hno : starts_with "}" (String c (name +:+ "}" +:+ r)) = false)
      by (cbn [starts_with] in *; now rewrite andb_true_r in * ).
    now rewrite Hno.
Qed.

Lemma showText_plain (text : string) :
  find_str "${" text = None -> showText prog vars objects text = text.
Proof.
  intros H. unfold showText. cbn [showLoop]. unfold find_from.
  cbn [drop_str]. now rewrite H.
Qed.

Lemma showText_open (pre rest : string) :
  find_str "${" pre = None -> find_str "}" rest = None ->
  showText prog vars objects (pre +:+ "${" +:+ rest)
  = pre +:+ "${" +:+ rest.
Proof.
  intros Hpre Hrest. unfold showText. cbn [showLoop].
  unfold find_from at 1. cbn [drop_str].
  rewrite (find_open_first pre rest Hpre). cbn [fmap option_fmap option_map].
  cbn [Nat.add].
  replace (pre +:+ "${" +:+ rest) with ((pre +:+ "${") +:+ rest)
    by (now rewrite append_assoc).
  replace (size pre + 2) with (size (pre +:+ "${") + 0)
    by (rewrite size_append; cbn; lia).
  rewrite find_from_shift. unfold find_from. cbn [drop_str].
  now rewrite Hrest.
Qed.

Lemma showText_step (pre name post : string) :
  find_str "${" pre = None -> find_str "}" name = None ->
  showText prog vars objects (pre +:+ "${" +:+ name +:+ "}" +:+ post)
  = pre +:+ showValue prog vars objects name
    +:+ showText prog vars objects post.
Proof.
  intros Hpre Hname. unfold showText at 1.
  set (text := pre +:+ "${" +:+ name +:+ "}" +:+ post).
  cbn [showLoop]. unfold find_from at 1. cbn [drop_str].
  unfold text at 1. rewrite (find_open_first pre _ Hpre).
  cbn [fmap option_fmap option_map Nat.add].
  assert (Etext : text = (pre +:+ "${") +:+ (name +:+ "}" +:+ post))
    by (unfold text; now rewrite append_assoc).
  assert (Esize : size (pre +:+ "${") = size pre + 2)
    by (rewrite size_append; reflexivity).
  replace (find_from "}" (size pre + 2) text)
    with (Some (size pre + 2 + size name)).
  2: { rewrite Etext. replace (size pre + 2) with (size (pre +:+ "${") + 0)
         by lia.
       rewrite find_from_shift. unfold find_from. cbn [drop_str].
       rewrite (find_close_first name post Hname).
       cbn [fmap option_fmap option_map]. f_equal. lia. }
  replace (substr (size pre + 2) (size pre + 2 + size name - size pre - 2) text)
    with name.
  2: { rewrite Etext. replace (size pre + 2) with (size (pre +:+ "${") + 0)
         at 1 by lia.
       rewrite substr_shift. unfold substr. cbn [drop_str].
       replace (_ - _ - 2) with (size name) by lia.
       now rewrite take_str_append. }
  set (value := showValue prog vars objects name).
  replace (replace_str (size pre) (size pre + 2 + size name - size pre + 1)
             value text)
    with ((pre +:+ value) +:+ post).
  2: { unfold replace_str, text. rewrite take_str_append.
       replace (size pre + (size pre + 2 + size name - size pre + 1))
         with (size pre + (size name + 3)) by lia.
       rewrite drop_str_plus.
       replace (drop_str (size name + 3) ("${" +:+ name +:+ "}" +:+ post))
         with post.
       - now rewrite append_assoc.
       - change ("${" +:+ name +:+ "}" +:+ post)
           with (String "$" (String "{" (name +:+ "}" +:+ post))).
         replace (size name + 3) with (S (S (size name + 1))) by lia.
         cbn [drop_str]. rewrite drop_str_plus. reflexivity. }
  replace (size pre + size value) with (size (pre +:+ value) + 0)
    by (rewrite size_append; lia).
  rewrite showLoop_shift, append_assoc. do 2 f_equal.
  apply showLoop_fuel; [| lia].
  unfold text. rewrite !size_append. lia.
Qed.
End Substitution.

(** X24.  The substitution of a [SHOW] text goes from left to right: the
    text in front of the first [${] stays, the name up to the next [}] is
    replaced by its value, and the substitution goes on behind the value,
    which is not looked at again.  A text without [${] stays as it is, and
    so does a [${] that is not closed. *)
Theorem show_substitution (prog : Program) (vars : gmap string Z)
    (objects : gmap string (gmap string Z)) (pre name post : string) :
  find_str "${" pre = None -> find_str "}" name = None ->
  showText prog vars objects (pre +:+ "${" +:+ name +:+ "}" +:+ post)
  = pre +:+ showValue prog vars objects name
    +:+ showText prog vars objects post
  /\ showText prog vars objects pre = pre
  /\ showText prog vars objects (pre +:+ "${" +:+ name)
     = pre +:+ "${" +:+ name.
Proof.
  intros Hpre Hname. split; [| split].
  - now apply showText_step.
  - now apply showText_plain.
  - now apply showText_open.
Qed.

Lemma show_substitution_witness :
  (find_str "${" "HP: " = None /\ find_str "}" "hp" = None)
  /\ showText (set_stringVars {[ "who" := "${hp}" ]} emptyProgram)
       {[ "hp" := 7%Z ]} ∅ "HP: ${hp} of ${who}"
     = "HP: 7 of ${hp}"
  /\ showText emptyProgram {[ "hp" := 7%Z ]} ∅ "HP: ${hp" = "HP: ${hp".
Proof.
  assert (H1 : find_str "${" "HP: " = None) by reflexivity.
  assert (H2 : find_str "}" "hp" = None) by reflexivity.
  split; [now split |]. split.
  - exact (proj1 (show_substitution
                    (set_stringVars {[ "who" := "${hp}" ]} emptyProgram)
                    {[ "hp" := 7%Z ]} ∅ "HP: " "hp" " of ${who}" H1 H2)).
  - exact (proj2 (proj2 (show_substitution emptyProgram {[ "hp" := 7%Z ]} ∅
                           "HP: " "hp" "" H1 H2))).
Defined.

(** ** Node lines and inline [new] *)

Lemma starts_with_extend (pat s r : string) :
  starts_with pat s = true -> starts_with pat (s +:+ r) = true.
Proof.
  revert s. induction pat as [|a pat IH]; intros [|b s] H;
    cbn [starts_with] in *; try discriminate; try reflexivity.
  rewrite append_cons. cbn [starts_with].
  apply andb_true_iff in H as [-> H]. now rewrite (IH _ H).
Qed.

Lemma starts_with_long (pat s r : string) :
  starts_with pat s = false -> size pat <= size s ->
  starts_with pat (s +:+ r) = false.
Proof.
  revert s. induction pat as [|a pat IH]; intros [|b s] H Hs;
    cbn [starts_with] in *; try discriminate;
    rewrite ?size_cons, ?size_nil in Hs; try lia.
  rewrite append_cons. cbn [starts_with].
  destruct (a =? b)%char; [| reflexivity]. cbn [andb] in *.
  apply IH; [exact H | lia].
Qed.

(** The first place of a pattern stays the first when the text goes on. *)
Lemma find_str_extend (pat s r : string) (i : nat) :
  find_str pat s = Some i -> find_str pat (s +:+ r) = Some i.
Proof.
  revert i. induction s as [|c s IH]; intros i; cbn [find_str].
  - destruct (starts_with pat "") eqn:E; [| discriminate]. intros [= <-].
    rewrite append_nil_l. destruct pat; [| discriminate E].
    now destruct r.
  - destruct (starts_with pat (String c s)) eqn:E.
    + intros [= <-]. rewrite append_cons. cbn [find_str].
      rewrite <- append_cons. now rewrite (starts_with_extend _ _ r E).
    + destruct (find_str pat s) as [j|] eqn:F; [| discriminate].
      intros [= <-]. rewrite append_cons. cbn [find_str].
      rewrite <- append_cons, (starts_with_long _ _ r E).
      * now rewrite (IH j eq_refl).
      * apply find_str_bound in F. rewrite size_cons. lia.
Qed.

Lemma youLoop_shift (fuel : nat) (playerName : string) :
  forall (a t : string) (k : nat),
    youLoop fuel playerName (a +:+ t) (size a + k)
    = a +:+ youLoop fuel playerName t k.
Proof.
  induction fuel as [|fuel IH]; intros a t k; [reflexivity |].
  cbn [youLoop]. rewrite find_from_shift.
  destruct (find_from "[@You]" k t) as [i|]; [| reflexivity].
  cbn [fmap option_fmap option_map]. rewrite replace_str_shift.
  rewrite <- !Nat.add_assoc. apply IH.
Qed.

Lemma youLoop_fuel (f : nat) (playerName : string) :
  forall (t : string) (k f' : nat),
    size t - k <= f -> size t - k <= f' ->
    youLoop f playerName t k = youLoop f' playerName t k.
Proof.
  induction f as [|f IH]; intros t k f' Hf Hf'.
  - destruct f' as [|f']; [reflexivity |]. cbn [youLoop].
    now rewrite find_from_past by (discriminate || lia).
  - destruct f' as [|f'].
    { cbn [youLoop]. now rewrite find_from_past by (discriminate || lia). }
    cbn [youLoop].
    destruct (find_from "[@You]" k t) as [i|] eqn:E1; [| reflexivity].
    assert (Hk : k <= size t).
    { destruct (Nat.le_gt_cases k (size t)) as [H | H]; [exact H |].
      rewrite find_from_past in E1 by (discriminate || lia). discriminate. }
    destruct (find_from_bound _ _ _ _ Hk E1) as [Hi1 Hi2].
    change (size "[@You]") with 6 in Hi2.
    assert (Hsize : size (replace_str i 6 ("[" +:+ playerName +:+ "]") t)
                    - (i + size playerName + 2)
                    = size t - (i + 6)).
    { unfold replace_str. rewrite !size_append.
      rewrite take_str_length by lia.
      rewrite drop_str_length by lia. cbn [size String.length]. lia. }
    apply IH; rewrite Hsize; lia.
Qed.

(** X25.  The first [[@You]] of a node line is replaced by the player's name
    in brackets, the text in front of it stays as it is, and the
    substitution goes on behind the name: a [[@You]] inside the name is not
    replaced. *)
Theorem you_substitution (playerName pre post : string) :
  find_str "[@You]" (pre +:+ "[@You]") = Some (size pre) ->
  substYou playerName (pre +:+ "[@You]" +:+ post)
  = pre +:+ "[" +:+ playerName +:+ "]" +:+ substYou playerName post
  /\ substYou playerName pre = pre.
Proof.
  intros Hfirst. split.
  2: { unfold substYou. cbn [youLoop]. unfold find_from. cbn [drop_str].
       destruct (find_str "[@You]" pre) as [i|] eqn:E; [| reflexivity].
       rewrite (find_str_extend _ _ "[@You]" _ E) in Hfirst.
       apply find_str_bound in E. change (size "[@You]") with 6 in E.
       injection Hfirst as ->. lia. }
  unfold substYou at 1.
  set (text := pre +:+ "[@You]" +:+ post).
  cbn [youLoop]. unfold find_from at 1. cbn [drop_str].
  assert (Efind : find_str "[@You]" text = Some (size pre)).
  { unfold text. rewrite <- append_assoc. now apply find_str_extend. }
  rewrite Efind. cbn [fmap option_fmap option_map Nat.add].
  set (rep := "[" +:+ playerName +:+ "]").
  replace (replace_str (size pre) 6 rep text) with ((pre +:+ rep) +:+ post).
  2: { unfold replace_str, text. rewrite take_str_append, drop_str_plus.
       now rewrite append_assoc. }
  replace (size pre + size playerName + 2) with (size (pre +:+ rep) + 0).
  2: { unfold rep. rewrite !size_append. cbn [size String.length]. lia. }
  rewrite youLoop_shift, append_assoc. unfold rep.
  rewrite !append_assoc. do 4 f_equal.
  apply youLoop_fuel; [| lia]. unfold text. rewrite !size_append. lia.
Qed.

Lemma you_substitution_witness :
  find_str "[@You]" ("Hello [" +:+ "[@You]") = Some (size "Hello [")
  /\ substYou "[@You]!" "Hello [[@You], [@You]"
     = "Hello [[[@You]!], [[@You]!]"
  /\ substYou "[@You]!" "Hello [" = "Hello [".
Proof.
  assert (H : find_str "[@You]" ("Hello [" +:+ "[@You]")
              = Some (size "Hello [")) by reflexivity.
  split; [exact H |].
  exact (you_substitution "[@You]!" "Hello [" ", [@You]" H).
Defined.

Lemma identChar_classes (c : ascii) :
  isIdentChar c = true ->
  isspace c = false /\ (c =? "(")%char = false /\ (c =? ")")%char = false.
Proof.
  destruct c as [[] [] [] [] [] [] [] []]; try discriminate;
    repeat split; reflexivity.
Qed.

Lemma identStart_identChar (c : ascii) :
  isIdentStart c = true -> isIdentChar c = true.
Proof.
  unfold isIdentStart, isIdentChar, isalnum. intros H.
  apply orb_true_iff in H as [-> | ->]; [reflexivity |].
  now rewrite orb_true_r.
Qed.

Lemma isIdentifier_chars (t : string) :
  isIdentifier t = true ->
  t <> "" /\ all_chars isIdentChar t = true /\ isspace (front t) = false.
Proof.
  destruct t as [|c t]; [discriminate |]. cbn [isIdentifier]. intros H.
  apply andb_true_iff in H as [Hc Ht]. apply identStart_identChar in Hc.
  repeat split; [discriminate | | apply (identChar_classes c Hc)].
  cbn [all_chars]. now rewrite Hc, Ht.
Qed.

Lemma all_chars_impl (p q : ascii -> bool) (s : string) :
  (forall c, p c = true -> q c = true) ->
  all_chars p s = true -> all_chars q s = true.
Proof.
  intros Hpq. induction s as [|c s IH]; [reflexivity |]. cbn [all_chars].
  intros H. apply andb_true_iff in H as [Hc H].
  now rewrite (Hpq c Hc), (IH H).
Qed.

Lemma ident_no_space (t : string) :
  all_chars isIdentChar t = true -> no_space t = true.
Proof.
  apply all_chars_impl. intros c H.
  now rewrite (proj1 (identChar_classes c H)).
Qed.

Lemma all_chars_find_char (p : ascii -> bool) (c : ascii) (s : string) :
  p c = false -> all_chars p s = true -> find_char c s = None.
Proof.
  intros Hc. induction s as [|a s IH]; [reflexivity |]. cbn [all_chars].
  intros H. apply andb_true_iff in H as [Ha H]. cbn [find_char].
  destruct (Ascii.eqb_spec a c) as [-> | _]; [congruence |].
  now rewrite (IH H).
Qed.

Lemma back_append (a b : string) : b <> "" -> back (a +:+ b) = back b.
Proof.
  intros Hb. unfold back. rewrite rev_str_append. apply front_append.
  intros E. apply Hb. rewrite <- (rev_str_involutive b), E. reflexivity.
Qed.

Lemma all_chars_back (p : ascii -> bool) (s : string) :
  s <> "" -> all_chars p s = true -> p (back s) = true.
Proof.
  intros Hs H. rewrite <- all_chars_rev in H. unfold back.
  destruct (rev_str s) as [|c r] eqn:E.
  - exfalso. apply Hs. rewrite <- (rev_str_involutive s), E. reflexivity.
  - cbn [all_chars front] in *. now apply andb_true_iff in H as [? _].
Qed.

Lemma readWord_word (w r : string) :
  w <> "" -> no_space w = true ->
  readWord (w +:+ String " " r) = (w, String " " r)
  /\ readWord (String " " w) = (w, "").
Proof.
  intros Hne Hw. destruct w as [|c w]; [contradiction |].
  destruct (no_space_cons _ _ Hw) as [Hc _]. unfold readWord. split.
  - rewrite append_cons. cbn [span_str]. rewrite Hc. cbn [snd].
    rewrite <- append_cons. now apply span_str_no_space.
  - cbn [span_str]. rewrite isspace_space, Hc. cbn [snd].
    now apply span_str_all.
Qed.

Lemma inline_new_step (depth : nat) (cls inst : string) (rest : list string)
    (st : RunState) :
  isIdentifier cls = true -> isIdentifier inst = true ->
  runActions depth (("STMT new " +:+ cls +:+ " " +:+ inst) :: rest) st
  = match p_classes (rs_prog st) !! cls with
    | Some cdef =>
        runActions depth rest
          (rs_set_prog
             (set_instanceClass
                (<[inst := cls]> (p_instanceClass (rs_prog st)))
                (set_objects (<[inst := c_fields cdef]> (rs_objects st))
                   (rs_prog st))) st)
    | None =>
        runActions depth rest
          (rs_emit (Cerr ("Unknown class in inline new: " +:+ cls +:+ nl)) st)
    end
  /\ runActions depth (("STMT new" +:+ cls +:+ inst) :: rest) st
     = runActions depth rest st.
Proof.
  intros Hcls Hinst.
  destruct (isIdentifier_chars cls Hcls) as (Hc0 & Hc1 & Hc2).
  destruct (isIdentifier_chars inst Hinst) as (Hi0 & Hi1 & Hi2).
  assert (Hparen : forall t, all_chars isIdentChar t = true ->
                             find_char "(" t = None).
  { intros t. now apply all_chars_find_char. }
  assert (Hback : forall a, isspace (back (a +:+ inst)) = false).
  { intros a. rewrite (back_append _ _ Hi0).
    assert (H := all_chars_back _ _ Hi0 (ident_no_space _ Hi1)).
    now apply negb_true_iff in H. }
  split.
  - cbn [runActions].
    replace (starts_with "SET " _) with false by reflexivity.
    replace (starts_with "SIGNAL " _) with false by reflexivity.
    replace (starts_with "IF " _) with false by reflexivity.
    replace (starts_with "GOTO " _) with false by reflexivity.
    replace (_ =? "END") with false by reflexivity.
    replace (starts_with "STMT " _) with true by reflexivity.
    replace (drop_str 5 _) with ("new " +:+ cls +:+ " " +:+ inst)
      by reflexivity.
    rewrite trim_fixed;
      [| reflexivity
       | rewrite <- !append_assoc; apply Hback ].
    assert (Hno : find_char "(" ("new " +:+ cls +:+ " " +:+ inst) = None).
    { rewrite (find_char_none_append "(" "new ") by reflexivity.
      rewrite (find_char_none_append "(" cls) by (now apply Hparen).
      rewrite (find_char_none_append "(" " ") by reflexivity.
      now rewrite (Hparen inst Hi1). }
    unfold decodeCall. rewrite Hno.
    destruct (find_char "." _); cbn iota.
    all: replace (starts_with "new " _) with true by reflexivity.
    all: replace (drop_str 4 _) with (cls +:+ " " +:+ inst) by reflexivity.
    all: rewrite append_cons, append_nil_l.
    all: rewrite (proj1 (readWord_word cls inst Hc0 (ident_no_space _ Hc1))).
    all: rewrite (proj2 (readWord_word inst "" Hi0 (ident_no_space _ Hi1))).
    all: unfold instantiate; now destruct (p_classes (rs_prog st) !! cls).
  - cbn [runActions].
    replace (starts_with "SET " _) with false by reflexivity.
    replace (starts_with "SIGNAL " _) with false by reflexivity.
    replace (starts_with "IF " _) with false by reflexivity.
    replace (starts_with "GOTO " _) with false by reflexivity.
    replace (_ =? "END") with false by reflexivity.
    replace (starts_with "STMT " _) with true by reflexivity.
    replace (drop_str 5 _) with ("new" +:+ cls +:+ inst) by reflexivity.
    rewrite trim_fixed;
      [| reflexivity
       | rewrite <- !append_assoc; apply Hback ].
    assert (Hno : find_char "(" ("new" +:+ cls +:+ inst) = None).
    { rewrite (find_char_none_append "(" "new") by reflexivity.
      rewrite (find_char_none_append "(" cls) by (now apply Hparen).
      now rewrite (Hparen inst Hi1). }
    destruct cls as [|c cls]; [contradiction |]. cbn [front] in Hc2.
    assert (Hc3 : (" " =? c)%char = false)
      by (destruct (Ascii.eqb_spec " " c) as [<- | ?];
          [discriminate | reflexivity]).
    change ("new" +:+ String c cls +:+ inst)
      with (String "n" (String "e" (String "w" (String c (cls +:+ inst)))))
      in *.
    assert (Hnew : starts_with "new "
                     (String "n" (String "e" (String "w"
                        (String c (cls +:+ inst))))) = false)
      by (cbn [starts_with]; now rewrite Hc3).
    unfold decodeCall. rewrite Hno, Hnew.
    destruct (find_char "." _); cbn iota.
    all: replace (starts_with "print(" _) with false by reflexivity.
    all: reflexivity.
Qed.

(** X26.  A statement [new <class> <instance>] as the only action: for a
    class of the program the action list ends without a jump in a state
    where the instance has the fields of the class and the class as its
    class, with nothing written and the variables as they were, and the
    actions behind such a statement run in that state; for a name that is no
    class the state differs by the error written only.  Written without
    blanks, as the parser stores the statements of a node, the statement
    leaves the state as it is. *)
Theorem inline_new (depth : nat) (cls inst : string) (st : RunState) :
  isIdentifier cls = true -> isIdentifier inst = true ->
  (forall cdef, p_classes (rs_prog st) !! cls = Some cdef ->
     exists st',
       runActions depth [("STMT new " +:+ cls +:+ " " +:+ inst)] st
       = Done (Fall, st')
       /\ rs_objects st' !! inst = Some (c_fields cdef)
       /\ p_instanceClass (rs_prog st') !! inst = Some cls
       /\ p_classes (rs_prog st') = p_classes (rs_prog st)
       /\ rs_vars st' = rs_vars st /\ rs_trace st' = rs_trace st
       /\ forall rest,
            runActions depth
              (("STMT new " +:+ cls +:+ " " +:+ inst) :: rest) st
            = runActions depth rest st')
  /\ (p_classes (rs_prog st) !! cls = None ->
      runActions depth [("STMT new " +:+ cls +:+ " " +:+ inst)] st
      = Done (Fall,
              rs_emit (Cerr ("Unknown class in inline new: " +:+ cls
                             +:+ nl)) st))
  /\ runActions depth [("STMT new" +:+ cls +:+ inst)] st = Done (Fall, st).
Proof.
  intros Hcls Hinst.
  assert (Hstep := fun rest =>
            inline_new_step depth cls inst rest st Hcls Hinst).
  split; [| split].
  - intros cdef Hdef.
    exists (rs_set_prog
              (set_instanceClass
                 (<[inst := cls]> (p_instanceClass (rs_prog st)))
                 (set_objects (<[inst := c_fields cdef]> (rs_objects st))
                    (rs_prog st))) st).
    split; [| split; [| split; [| split; [| split; [| split]]]]].
    + destruct (Hstep []) as [H _]. rewrite Hdef in H. exact H.
    + apply lookup_insert_eq.
    + apply lookup_insert_eq.
    + reflexivity.
    + reflexivity.
    + reflexivity.
    + intros rest. destruct (Hstep rest) as [H _]. rewrite Hdef in H.
      exact H.
  - intros Hnone. destruct (Hstep []) as [H _]. rewrite Hnone in H. exact H.
  - exact (proj2 (Hstep [])).
Qed.

(** ** The debugger *)

Lemma digits_val_append (a b : string) (acc : Z) :
  digits_val acc (a +:+ b) = digits_val (digits_val acc a) b.
Proof.
  revert acc. induction a as [|c a IH]; intros acc; push_append;
    [reflexivity |]. cbn [digits_val]. apply IH.
Qed.

Lemma pretty_N_char_digit (m : N) :
  (m < 10)%N ->
  digit_val (pretty_N_char m) = Z.of_N m
  /\ isdigit (pretty_N_char m) = true.
Proof.
  intros H.
  assert (m = 0 \/ m = 1 \/ m = 2 \/ m = 3 \/ m = 4 \/ m = 5 \/ m = 6
          \/ m = 7 \/ m = 8 \/ m = 9)%N as Hm by lia.
  repeat (destruct Hm as [-> | Hm]; [split; reflexivity |]).
  subst. split; reflexivity.
Qed.

Lemma all_chars_snoc (p : ascii -> bool) (a : string) (c : ascii) :
  all_chars p a = true -> p c = true ->
  all_chars p (a +:+ String c "") = true.
Proof.
  intros Ha Hc. apply all_chars_append; [exact Ha |].
  cbn [all_chars]. now rewrite Hc.
Qed.

Lemma pretty_N_go_digits (x : N) (s : string) :
  exists ds, pretty_N_go x s = ds +:+ s
             /\ all_chars isdigit ds = true
             /\ digits_val 0 ds = Z.of_N x
             /\ ((0 < x)%N -> ds <> "").
Proof.
  revert s. induction (N.lt_wf_0 x) as [x _ IH]. intros s.
  destruct (N.eq_dec x 0%N) as [-> | Hx].
  - exists "". rewrite pretty_N_go_0. repeat split; try reflexivity. lia.
  - rewrite pretty_N_go_step by lia.
    destruct (IH (x `div` 10)%N (N.div_lt x 10%N ltac:(lia) ltac:(lia))
                (String (pretty_N_char (x `mod` 10)) s))
      as (ds & -> & Hall & Hval & _).
    destruct (pretty_N_char_digit (x `mod` 10)%N) as [Hd Hc];
      [apply N.mod_lt; lia |].
    exists (ds +:+ String (pretty_N_char (x `mod` 10)) "").
    split; [now rewrite append_assoc |].
    split; [now apply all_chars_snoc |].
    split.
    + rewrite digits_val_append, Hval. cbn [digits_val]. rewrite Hd.
      rewrite (N.div_mod x 10%N) at 3 by lia.
      rewrite N2Z.inj_add, N2Z.inj_mul. reflexivity.
    + intros _ E. destruct ds; discriminate E.
Qed.

(** The decimal text of an integer: a sign, if it is negative, and the
    digits of its absolute value. *)
Lemma pretty_Z_shape (z : Z) :
  exists ds, isNumber ds = true /\ digits_val 0 ds = Z.abs z
             /\ pretty z = (if (z <? 0)%Z then "-" else "") +:+ ds.
Proof.
  assert (Hpos : forall p : positive,
             exists ds, isNumber ds = true
                        /\ digits_val 0 ds = Z.pos p
                        /\ pretty (N.pos p) = ds).
  { intros p. unfold pretty, pretty_N.
    destruct (decide (N.pos p = 0%N)) as [E | _]; [discriminate E |].
    destruct (pretty_N_go_digits (N.pos p) "") as (ds & E & Hall & Hval & Hne).
    rewrite append_nil_r in E. exists ds. split; [| split; assumption].
    unfold isNumber. rewrite Hall, andb_true_r.
    destruct ds; [now destruct Hne; [lia |] | reflexivity]. }
  destruct z as [|p|p].
  - exists "0". repeat split.
  - destruct (Hpos p) as (ds & H1 & H2 & H3). exists ds.
    repeat split; assumption.
  - destruct (Hpos p) as (ds & H1 & H2 & H3). exists ds.
    split; [exact H1 |]. split; [exact H2 |].
    unfold pretty, pretty_Z. fold (pretty (N.pos p)).
    change (pretty p) with (pretty (N.pos p)). now rewrite H3.
Qed.

Lemma read_number_pretty (z : Z) : read_number (pretty z) = Some z.
Proof.
  destruct (pretty_Z_shape z) as (ds & Hnum & Hval & ->).
  destruct (z <? 0)%Z eqn:Hneg.
  - change ("-" +:+ ds) with (String "-" ds).
    rewrite (read_number_negative _ Hnum), Hval. f_equal.
    apply Z.ltb_lt in Hneg. lia.
  - rewrite append_nil_l, (read_number_digits _ Hnum), Hval. f_equal.
    apply Z.ltb_ge in Hneg. lia.
Qed.

Lemma pretty_no_space (z : Z) :
  span_str isspace (pretty z) = ("", pretty z).
Proof.
  destruct (pretty_Z_shape z) as (ds & Hnum & _ & ->).
  unfold isNumber in Hnum. apply andb_true_iff in Hnum as [_ Hall].
  destruct (z <? 0)%Z; [reflexivity |]. rewrite append_nil_l.
  destruct ds as [|c ds]; [reflexivity |]. cbn [all_chars] in Hall.
  apply andb_true_iff in Hall as [Hc _].
  destruct (digit_classes c Hc) as (Hsp & _). cbn [span_str]. now rewrite Hsp.
Qed.

Lemma stoiText_pretty (z : Z) :
  Debugger.stoiText (pretty z)
  = if in_int z then Ok z else Raise OutOfRange.
Proof.
  unfold Debugger.stoiText, stoi.
  rewrite pretty_no_space. cbn [snd]. now rewrite read_number_pretty.
Qed.

Section DebuggerFacts.

Variable walkSet : gset Z -> list Z.
Variable walkMap : forall A : Type, gmap string A -> list (string * A).

Lemma obey_resume (command : string) (prog : Program)
    (d : Debugger.Debugger) :
  isResume command = true ->
  Debugger.obey walkSet walkMap command prog d
  = (Debugger.mkDebugger (Debugger.breakpoints d) (isStep command), [],
     true).
Proof.
  unfold isResume, isStep, Debugger.obey. intros H.
  destruct ((command =? "step") || (command =? "s")) eqn:E; [reflexivity |].
  cbn [orb] in H. now rewrite H.
Qed.

Lemma lineCommand_stepping (command usage done : string)
    (edit : Z -> Debugger.Debugger -> Debugger.Debugger)
    (d : Debugger.Debugger) :
  (forall n, Debugger.stepping (edit n d) = Debugger.stepping d) ->
  Debugger.stepping (fst (Debugger.lineCommand command usage done edit d))
  = Debugger.stepping d.
Proof.
  intros H. unfold Debugger.lineCommand.
  destruct (find_char " " command); [| reflexivity].
  destruct (Debugger.stoiText _); [apply H | reflexivity].
Qed.

Lemma obey_other (command : string) (prog : Program)
    (d : Debugger.Debugger) :
  isResume command = false ->
  exists d' out,
    Debugger.obey walkSet walkMap command prog d = (d', out, false)
    /\ Debugger.stepping d' = Debugger.stepping d
    /\ (isEdit command = false -> d' = d).
Proof.
  unfold isResume, isStep, isEdit, Debugger.obey. intros H.
  apply orb_false_iff in H as [H Hc]. apply orb_false_iff in H as [H Hcont].
  rewrite H. assert (Hcc : (command =? "continue") || (command =? "c") = false)
    by (now rewrite Hcont, Hc).
  rewrite Hcc.
  destruct (starts_with "print" command || starts_with "p" command).
  { destruct (find_char " " command); eauto. }
  destruct ((command =? "help") || (command =? "h")); [eauto |].
  destruct ((command =? "breakpoints") || (command =? "b")); [eauto |].
  destruct (starts_with "break" command) eqn:Hb.
  { set (r := Debugger.lineCommand _ _ _ _ _). exists (fst r), (snd r).
    split; [now destruct r |]. split; [| discriminate].
    now apply lineCommand_stepping. }
  destruct (starts_with "delete" command) eqn:Hd.
  { set (r := Debugger.lineCommand _ _ _ _ _). exists (fst r), (snd r).
    split; [now destruct r |]. split; [| discriminate].
    now apply lineCommand_stepping. }
  destruct ((command =? "variables") || (command =? "v")); eauto.
Qed.

Lemma commands_reads (prog : Program) (c : string) (post pre : list string) :
  isResume c = true ->
  forallb (fun x => negb (isResume x)) pre = true ->
  forall (d : Debugger.Debugger) (tr : list event),
  exists d' tr',
    Debugger.commands walkSet walkMap (pre ++ c :: post) prog d tr
    = Some (d', post, tr')
    /\ Debugger.stepping d' = isStep c
    /\ (forallb (fun x => negb (isEdit x)) pre = true ->
        Debugger.breakpoints d' = Debugger.breakpoints d).
Proof.
  intros Hc. induction pre as [|x pre IH]; intros Hpre d tr.
  - cbn [app Debugger.commands]. rewrite (obey_resume _ _ _ Hc).
    eexists _, _. split; [reflexivity |]. split; reflexivity.
  - cbn [forallb] in Hpre. apply andb_true_iff in Hpre as [Hx Hpre].
    apply negb_true_iff in Hx.
    destruct (obey_other x prog d Hx) as (d1 & out & E & _ & Hsame).
    change ((x :: pre) ++ c :: post) with (x :: (pre ++ c :: post)).
    cbn [Debugger.commands]. rewrite E.
    destruct (IH Hpre d1 (tr ++ Cout "> " :: out)) as (d' & tr' & E' & Hs & Hb).
    exists d', tr'. split; [exact E' |]. split; [exact Hs |].
    cbn [forallb]. intros He. apply andb_true_iff in He as [He1 He2].
    apply negb_true_iff in He1. rewrite (Hb He2). now rewrite (Hsame He1).
Qed.

Lemma commands_starved (prog : Program) (pre : list string) :
  forallb (fun x => negb (isResume x)) pre = true ->
  forall (d : Debugger.Debugger) (tr : list event),
    Debugger.commands walkSet walkMap pre prog d tr = None.
Proof.
  induction pre as [|x pre IH]; intros Hpre d tr; [reflexivity |].
  cbn [forallb] in Hpre. apply andb_true_iff in Hpre as [Hx Hpre].
  apply negb_true_iff in Hx.
  destruct (obey_other x prog d Hx) as (d1 & out & E & _).
  cbn [Debugger.commands]. rewrite E. now apply IH.
Qed.

Lemma obey_break (n : Z) (prog : Program) (d : Debugger.Debugger) :
  Debugger.obey walkSet walkMap ("break " +:+ pretty n) prog d
  = (if in_int n then Debugger.addBreakpoint n d else d,
     [Cout (if in_int n
            then "Breakpoint added at line " +:+ pretty n +:+ nl
            else "Invalid line number" +:+ nl)], false).
Proof.
  change ("break " +:+ pretty n)
    with (String "b" (String "r" (String "e" (String "a" (String "k"
            (String " " (pretty n))))))).
  unfold Debugger.obey, Debugger.lineCommand.
  cbn [String.eqb Ascii.eqb Bool.eqb orb andb starts_with find_char
       drop_str option_map fmap option_fmap].
  rewrite stoiText_pretty. now destruct (in_int n).
Qed.

Lemma obey_delete (n : Z) (prog : Program) (d : Debugger.Debugger) :
  Debugger.obey walkSet walkMap ("delete " +:+ pretty n) prog d
  = (if in_int n then Debugger.removeBreakpoint n d else d,
     [Cout (if in_int n
            then "Breakpoint removed at line " +:+ pretty n +:+ nl
            else "Invalid line number" +:+ nl)], false).
Proof.
  change ("delete " +:+ pretty n)
    with (String "d" (String "e" (String "l" (String "e" (String "t"
            (String "e" (String " " (pretty n)))))))).
  unfold Debugger.obey, Debugger.lineCommand.
  cbn [String.eqb Ascii.eqb Bool.eqb orb andb starts_with find_char
       drop_str option_map fmap option_fmap].
  rewrite stoiText_pretty. now destruct (in_int n).
Qed.

Lemma obey_b (n : Z) (prog : Program) (d : Debugger.Debugger) :
  Debugger.obey walkSet walkMap ("b " +:+ pretty n) prog d
  = (d, [Cout ("Unknown command. Type 'help' for available commands."
               +:+ nl)], false).
Proof.
  change ("b " +:+ pretty n) with (String "b" (String " " (pretty n))).
  unfold Debugger.obey.
  cbn [String.eqb Ascii.eqb Bool.eqb orb andb starts_with].
  reflexivity.
Qed.

End DebuggerFacts.

(** X27.  When the debugger stops, its command loop ends at the first
    [step], [s], [continue] or [c]: the lines in front of it are read and no
    more, the stepping flag says whether the command was a step, and the
    breakpoints are the old ones when no line began like [break] or
    [delete].  On an input without such a command [check] does not return.
    *)
Theorem check_reads_to_resume (walkSet : gset Z -> list Z)
    (walkMap : forall A : Type, gmap string A -> list (string * A))
    (line : Z) (prog : Program) (pre : list string) (c : string)
    (post : list string) (d : Debugger.Debugger) :
  Debugger.stepping d || bool_decide (line ∈ Debugger.breakpoints d) = true ->
  forallb (fun x => negb (isResume x)) pre = true ->
  isResume c = true ->
  (exists d' tr,
      Debugger.check walkSet walkMap line prog (pre ++ c :: post) d
      = Some (d', post, tr)
      /\ Debugger.stepping d' = isStep c
      /\ (forallb (fun x => negb (isEdit x)) pre = true ->
          Debugger.breakpoints d' = Debugger.breakpoints d))
  /\ Debugger.check walkSet walkMap line prog pre d = None.
Proof.
  intros Hstop Hpre Hc. unfold Debugger.check. rewrite Hstop. split.
  - apply commands_reads; assumption.
  - now apply commands_starved.
Qed.

Lemma check_reads_to_resume_witness :
  (Debugger.stepping (Debugger.step Debugger.fresh)
   || bool_decide (7%Z ∈ Debugger.breakpoints (Debugger.step Debugger.fresh))
   = true
   /\ forallb (fun x => negb (isResume x)) ["help"; "p hp"; "variables"]
      = true
   /\ isResume "c" = true)
  /\ ((exists d' tr,
         Debugger.check elements (fun A => map_to_list) 7
           (heroProgram {[ "hp" := 3%Z ]})
           (["help"; "p hp"; "variables"] ++ "c" :: ["1"])
           (Debugger.step Debugger.fresh)
         = Some (d', ["1"], tr)
         /\ Debugger.stepping d' = isStep "c"
         /\ (forallb (fun x => negb (isEdit x)) ["help"; "p hp"; "variables"]
             = true ->
             Debugger.breakpoints d'
             = Debugger.breakpoints (Debugger.step Debugger.fresh)))
      /\ Debugger.check elements (fun A => map_to_list) 7
           (heroProgram {[ "hp" := 3%Z ]}) ["help"; "p hp"; "variables"]
           (Debugger.step Debugger.fresh)
         = None).
Proof.
  split; [repeat split |].
  exact (check_reads_to_resume elements (fun A => map_to_list) 7
           (heroProgram {[ "hp" := 3%Z ]}) ["help"; "p hp"; "variables"]
           "c" ["1"] (Debugger.step Debugger.fresh)
           eq_refl eq_refl eq_refl).
Defined.

(** X28.  The [break] and [delete] commands with the decimal text of [n]:
    the line is added to the breakpoints, or taken from them, when [n] fits
    an [int], and the command is turned down with a message when it does
    not.  The short form [b <line>] of the help text is no command: it
    leaves the breakpoints as they are. *)
Theorem breakpoint_commands (walkSet : gset Z -> list Z)
    (walkMap : forall A : Type, gmap string A -> list (string * A))
    (line n : Z) (prog : Program) (cin : list string)
    (d : Debugger.Debugger) :
  Debugger.stepping d || bool_decide (line ∈ Debugger.breakpoints d) = true ->
  Debugger.check walkSet walkMap line prog
    (("break " +:+ pretty n) :: "c" :: cin) d
  = Some (Debugger.mkDebugger
            (if in_int n then {[ n ]} ∪ Debugger.breakpoints d
             else Debugger.breakpoints d) false,
          cin,
          [Cout ("Breakpoint at line " +:+ pretty line
                 +:+ ". Type 'help' for commands." +:+ nl);
           Cout "> ";
           Cout (if in_int n
                 then "Breakpoint added at line " +:+ pretty n +:+ nl
                 else "Invalid line number" +:+ nl);
           Cout "> "])
  /\ Debugger.check walkSet walkMap line prog
       (("delete " +:+ pretty n) :: "c" :: cin) d
     = Some (Debugger.mkDebugger
               (if in_int n then Debugger.breakpoints d ∖ {[ n ]}
                else Debugger.breakpoints d) false,
             cin,
             [Cout ("Breakpoint at line " +:+ pretty line
                    +:+ ". Type 'help' for commands." +:+ nl);
              Cout "> ";
              Cout (if in_int n
                    then "Breakpoint removed at line " +:+ pretty n +:+ nl
                    else "Invalid line number" +:+ nl);
              Cout "> "])
  /\ Debugger.check walkSet walkMap line prog
       (("b " +:+ pretty n) :: "c" :: cin) d
     = Some (Debugger.mkDebugger (Debugger.breakpoints d) false, cin,
             [Cout ("Breakpoint at line " +:+ pretty line
                    +:+ ". Type 'help' for commands." +:+ nl);
              Cout "> ";
              Cout ("Unknown command. Type 'help' for available commands."
                    +:+ nl);
              Cout "> "]).
Proof.
  intros Hstop. unfold Debugger.check. rewrite Hstop.
  cbn [Debugger.commands].
  rewrite obey_break, obey_delete, obey_b.
  change (Debugger.obey walkSet walkMap "c" prog)
    with (fun d0 : Debugger.Debugger =>
            (Debugger.continueExecution d0, @nil event, true)).
  cbn beta iota. unfold Debugger.continueExecution.
  repeat split; destruct (in_int n); reflexivity.
Qed.

Lemma breakpoint_commands_witness :
  Debugger.stepping (Debugger.step Debugger.fresh)
  || bool_decide (7%Z ∈ Debugger.breakpoints (Debugger.step Debugger.fresh))
  = true
  /\ Debugger.check elements (fun A => map_to_list) 7 emptyProgram
       ["break 12"; "c"; "1"] (Debugger.step Debugger.fresh)
     = Some (Debugger.mkDebugger ({[ 12%Z ]} ∪ ∅) false, ["1"],
             [Cout ("Breakpoint at line 7. Type 'help' for commands."
                    +:+ nl);
              Cout "> ";
              Cout ("Breakpoint added at line 12" +:+ nl);
              Cout "> "]).
Proof.
  split; [reflexivity |].
  exact (proj1 (breakpoint_commands elements (fun A => map_to_list) 7 12
                  emptyProgram ["1"] (Debugger.step Debugger.fresh)
                  eq_refl)).
Defined.

(** ** The bytecode helpers *)

Section ConstantPool.

Variable double : Type.
Variable double_eqb : double -> double -> bool.

Lemma find_const_Some (pool : list (Bytecode.Constant double))
    (c : Bytecode.Constant double) (i j : nat) :
  Bytecode.find_const double double_eqb pool c i = Some j ->
  exists k c', j = i + k /\ pool !! k = Some c'
               /\ Bytecode.Constant_eqb double double_eqb c' c = true
               /\ Bytecode.find_const double double_eqb (take k pool) c i
                  = None.
Proof.
  revert i. induction pool as [|x pool IH]; intros i; [discriminate |].
  cbn [Bytecode.find_const].
  destruct (Bytecode.Constant_eqb double double_eqb x c) eqn:E.
  - intros [= <-]. exists 0, x. repeat split; [lia | exact E].
  - intros H. destruct (IH _ H) as (k & c' & -> & Hk & Hc & Hno).
    exists (S k), c'. repeat split; [lia | exact Hk | exact Hc |].
    cbn [take Bytecode.find_const]. now rewrite E.
Qed.

Lemma find_const_app (pool more : list (Bytecode.Constant double))
    (c : Bytecode.Constant double) (i : nat) :
  Bytecode.find_const double double_eqb (pool ++ more) c i
  = match Bytecode.find_const double double_eqb pool c i with
    | Some j => Some j
    | None => Bytecode.find_const double double_eqb more c (i + length pool)
    end.
Proof.
  revert i. induction pool as [|x pool IH]; intros i; cbn [app length].
  - now rewrite Nat.add_0_r.
  - cbn [Bytecode.find_const]. destruct (Bytecode.Constant_eqb _ _ x c);
      [reflexivity |]. rewrite IH. now rewrite Nat.add_succ_r.
Qed.

Lemma find_const_None (pool : list (Bytecode.Constant double))
    (c : Bytecode.Constant double) (n i : nat) (x : Bytecode.Constant double) :
  Bytecode.find_const double double_eqb pool c n = None ->
  pool !! i = Some x ->
  Bytecode.Constant_eqb double double_eqb x c = false.
Proof.
  revert n i. induction pool as [|y l IH]; intros n i Hno Hi;
    [discriminate |].
  cbn [Bytecode.find_const] in Hno.
  destruct (Bytecode.Constant_eqb double double_eqb y c) eqn:Ey;
    [discriminate |].
  destruct i as [|i]; [cbn in Hi; now injection Hi as <- |].
  exact (IH _ _ Hno Hi).
Qed.

End ConstantPool.

(** X29.  [add_const] on a pool of fewer than 2^32 constants gives the index
    of a constant of the new pool that is the one added or equal to it, and
    the first such; the constants that were in the pool stay where they
    were; a constant that equals itself is added once only. *)
Theorem add_const_index (double : Type)
    (double_eqb : double -> double -> bool)
    (pool : list (Bytecode.Constant double))
    (c : Bytecode.Constant double) :
  (Z.of_nat (length pool) < 2 ^ 32)%Z ->
  let '(pool', idx) := Bytecode.add_const double double_eqb pool c in
  (exists c', pool' !! Z.to_nat idx = Some c'
              /\ (c' = c \/ Bytecode.Constant_eqb double double_eqb c' c
                            = true))
  /\ (forall k x, (k < Z.to_nat idx)%nat -> pool' !! k = Some x ->
        Bytecode.Constant_eqb double double_eqb x c = false)
  /\ (pool' = pool \/ pool' = pool ++ [c] /\ idx = Z.of_nat (length pool))
  /\ (Bytecode.Constant_eqb double double_eqb c c = true ->
      Bytecode.add_const double double_eqb pool' c = (pool', idx)).
Proof.
  intros Hlen. unfold Bytecode.add_const.
  destruct (Bytecode.find_const double double_eqb pool c 0) as [j|] eqn:E.
  - destruct (find_const_Some _ _ _ _ _ _ E) as (k & c' & -> & Hk & Hc & Hno).
    cbn [Nat.add] in *.
    assert (Hkl : k < length pool) by (apply lookup_lt_is_Some; eauto).
    assert (Hidx : Z.to_nat (Bytecode.to_u32 (Z.of_nat k)) = k).
    { unfold Bytecode.to_u32. rewrite Z.mod_small by lia. lia. }
    rewrite Hidx. split; [eauto |]. split; [| split; [now left |]].
    + intros i x Hi Hx.
      assert (Hpre : take k pool !! i = Some x)
        by (now rewrite lookup_take_lt).
      exact (find_const_None _ _ _ _ _ _ _ Hno Hpre).
    + intros _. now rewrite E.
  - rewrite length_app. cbn [length].
    replace (Z.of_nat (length pool + 1) - 1)%Z with (Z.of_nat (length pool))
      by lia.
    assert (Hidx : Z.to_nat (Bytecode.to_u32 (Z.of_nat (length pool)))
                   = length pool).
    { unfold Bytecode.to_u32. rewrite Z.mod_small by lia. lia. }
    assert (Hu : Bytecode.to_u32 (Z.of_nat (length pool))
                 = Z.of_nat (length pool)).
    { unfold Bytecode.to_u32. now rewrite Z.mod_small by lia. }
    rewrite Hidx. split; [| split; [| split]].
    + exists c. split; [| now left].
      rewrite lookup_app_r by lia. now rewrite Nat.sub_diag.
    + intros i x Hi Hx. rewrite lookup_app_l in Hx by lia.
      exact (find_const_None _ _ _ _ _ _ _ E Hx).
    + right. split; [reflexivity | exact Hu].
    + intros Hrefl. rewrite find_const_app, E.
      cbn [Bytecode.find_const Nat.add]. now rewrite Hrefl.
Qed.

Lemma add_const_index_witness :
  (Z.of_nat (length [Bytecode.CString Z "a"; Bytecode.CInt Z 7]) < 2 ^ 32)%Z
  /\ ((exists c',
          [Bytecode.CString Z "a"; Bytecode.CInt Z 7] !! Z.to_nat 1
          = Some c'
          /\ (c' = Bytecode.CInt Z 7
              \/ Bytecode.Constant_eqb Z Z.eqb c' (Bytecode.CInt Z 7) = true))
      /\ (forall k x, (k < Z.to_nat 1)%nat ->
            [Bytecode.CString Z "a"; Bytecode.CInt Z 7] !! k = Some x ->
            Bytecode.Constant_eqb Z Z.eqb x (Bytecode.CInt Z 7) = false)
      /\ ([Bytecode.CString Z "a"; Bytecode.CInt Z 7]
          = [Bytecode.CString Z "a"; Bytecode.CInt Z 7]
          \/ [Bytecode.CString Z "a"; Bytecode.CInt Z 7]
             = [Bytecode.CString Z "a"; Bytecode.CInt Z 7]
               ++ [Bytecode.CInt Z 7]
             /\ 1%Z = Z.of_nat
                        (length [Bytecode.CString Z "a"; Bytecode.CInt Z 7]))
      /\ (Bytecode.Constant_eqb Z Z.eqb (Bytecode.CInt Z 7)
            (Bytecode.CInt Z 7) = true ->
          Bytecode.add_const Z Z.eqb
            [Bytecode.CString Z "a"; Bytecode.CInt Z 7] (Bytecode.CInt Z 7)
          = ([Bytecode.CString Z "a"; Bytecode.CInt Z 7], 1%Z))).
Proof.
  split; [reflexivity |].
  exact (add_const_index Z Z.eqb
           [Bytecode.CString Z "a"; Bytecode.CInt Z 7] (Bytecode.CInt Z 7)
           eq_refl).
Defined.

(** X30.  [emit_u32] appends four bytes, the least significant first: they
    are the digits of the value to the base 256.  The magic number comes out
    as the letters CRTZ. *)
Theorem emit_u32_little_endian (out : list Z) (v : Z) :
  (exists b0 b1 b2 b3,
      Bytecode.emit_u32 out v = out ++ [b0; b1; b2; b3]
      /\ Forall (fun b => 0 <= b < 256)%Z [b0; b1; b2; b3]
      /\ (b0 + 2 ^ 8 * b1 + 2 ^ 16 * b2 + 2 ^ 24 * b3
          = Bytecode.to_u32 v)%Z)
  /\ Bytecode.emit_u32 [] Bytecode.CRTZ_MAGIC
     = map (fun c => Z.of_nat (nat_of_ascii c)) (list_ascii_of_string "CRTZ").
Proof.
  split; [| reflexivity].
  unfold Bytecode.emit_u32, Bytecode.to_u8, Bytecode.to_u32.
  rewrite !Z.shiftr_div_pow2 by lia.
  eexists _, _, _, _. split; [reflexivity |].
  change (2 ^ 8)%Z with 256%Z. change (2 ^ 16)%Z with 65536%Z.
  change (2 ^ 24)%Z with 16777216%Z. change (2 ^ 32)%Z with 4294967296%Z.
  split.
  - repeat constructor; apply Z.mod_pos_bound; lia.
  - Z.div_mod_to_equations. lia.
Qed.

(** ** Method bodies of parsed scripts *)

Example inline_new_as_parsed :
  (prog ← parsedProgram recruitScript;
   node ← p_nodes prog !! "Start";
   Some (n_actions node))
  = Some ["STMT newHeroh"; "END"].
Proof. reflexivity. Qed.

Lemma inline_new_witness :
  (isIdentifier "Hero" = true /\ isIdentifier "h" = true)
  /\ (exists st',
        runActions 1 ["STMT new Hero h"] (initState (heroProgram ∅) [])
        = Done (Fall, st')
        /\ rs_objects st' !! "h" = Some {[ "health" := 10%Z ]}
        /\ p_instanceClass (rs_prog st') !! "h" = Some "Hero"
        /\ rs_trace st' = [])
  /\ runActions 1 ["STMT new Villain v"] (initState (heroProgram ∅) [])
     = Done (Fall,
             mkRunState (heroProgram ∅) ∅ ∅ []
               [Cerr ("Unknown class in inline new: Villain" +:+ nl)])
  /\ runActions 1 ["STMT newHeroh"] (initState (heroProgram ∅) [])
     = Done (Fall, mkRunState (heroProgram ∅) ∅ ∅ [] []).
Proof.
  split; [split; reflexivity |].
  destruct (inline_new 1 "Hero" "h" (initState (heroProgram ∅) [])
              eq_refl eq_refl) as (Hnew & _ & Hflat).
  destruct (Hnew heroClass eq_refl)
    as (st' & Hrun & Hobj & Hcls & _ & _ & Htr & _).
  split; [| split].
  - exists st'. repeat split; assumption.
  - exact (proj1 (proj2 (inline_new 1 "Villain" "v"
                           (initState (heroProgram ∅) [])
                           eq_refl eq_refl)) eq_refl).
  - exact Hflat.
Defined.

Lemma parseMethodBody_tagged_witness :
  (forallb isTagged ["STMT print(1)"] = true
   /\ Parser.parseMethodBody 9 ["STMT print(1)"]
        (inBody "set health = health - amount; hero.rest(); }")
      = POk ["STMT print(1)"; "STMT sethealth=health-amount";
             "STMT hero.rest()"]
          (inBody "}"))
  /\ forallb isTagged
       ["STMT print(1)"; "STMT sethealth=health-amount"; "STMT hero.rest()"]
     = true.
Proof.
  assert (H : Parser.parseMethodBody 9 ["STMT print(1)"]
                (inBody "set health = health - amount; hero.rest(); }")
              = POk ["STMT print(1)"; "STMT sethealth=health-amount";
                     "STMT hero.rest()"]
                  (inBody "}")) by (vm_compute; reflexivity).
  split; [split; [reflexivity | exact H] |].
  exact (parseMethodBody_tagged 9 ["STMT print(1)"] _ _ _ eq_refl H).
Defined.

Lemma tagged_method_keeps_objects_witness :
  (p_instanceClass parsedHero !! "hero" = Some "Hero"
   /\ (cdef ← p_classes parsedHero !! "Hero"; c_methods cdef !! "attack")
      = Some ["STMT sethealth=health-amount"]
   /\ p_objects parsedHero !! "hero" = Some {[ "health" := 10%Z ]}
   /\ executeMethod 1 "hero" "attack" [3%Z] parsedHero []
      = Done (parsedHero, []))
  /\ p_objects parsedHero = p_objects parsedHero.
Proof.
  assert (Hc : p_classes parsedHero !! "Hero"
               = Some (mkClassDef "Hero" {[ "health" := 10%Z ]}
                         {[ "attack" := ["STMT sethealth=health-amount"] ]}
                         {[ "attack" := ["amount"] ]}))
    by (vm_compute; reflexivity).
  assert (Hrun : executeMethod 1 "hero" "attack" [3%Z] parsedHero []
                 = Done (parsedHero, [])) by (vm_compute; reflexivity).
  split; [repeat split; try (vm_compute; reflexivity); exact Hrun |].
  exact (tagged_method_keeps_objects 1 "hero" "attack" "Hero" [3%Z]
           parsedHero parsedHero [] [] _ _ {[ "health" := 10%Z ]}
           ltac:(vm_compute; reflexivity) Hc
           ltac:(vm_compute; reflexivity) eq_refl
           ltac:(vm_compute; reflexivity) Hrun).
Defined.

(** ** Identifier tokens *)

Lemma identStart_classes (c : ascii) :
  isIdentStart c = true ->
  isspace c = false /\ (c =? "/")%char = false
  /\ (c =? DQUOTE)%char = false.
Proof.
  destruct c as [[] [] [] [] [] [] [] []]; try discriminate;
    repeat split; reflexivity.
Qed.

(** X15.  A letter or [_] with letters, digits, [_] and dots behind it, and
    no such character behind the run, is one token with that text: dots do
    not end it.  Its kind is that of the keyword when the text is [true],
    [false], [picture] or [load], and an identifier otherwise. *)
Theorem identifier_token (id rest : string) (line : nat) :
  isIdentifier id = true -> noIdentAhead rest = true ->
  next (mkLexer (id +:+ rest) line)
  = (mkToken (keywordKind id) id 0 line, mkLexer rest line).
Proof.
  intros Hid Hrest.
  destruct (isIdentifier_chars id Hid) as (_ & Hall & _).
  assert (Hspan := span_str_until isIdentChar id rest Hall Hrest).
  destruct id as [|c r]; [discriminate |]. cbn [isIdentifier] in Hid.
  apply andb_true_iff in Hid as [Hc _].
  destruct (identStart_classes c Hc) as (Hsp & Hsl & Hq).
  unfold next. cbn [lx_rest]. rewrite append_cons.
  rewrite next_fuel_token;
    [| exact Hsp | cbn [starts_with]; now rewrite Ascii.eqb_sym, Hsl].
  rewrite Hq. unfold isIdentStart in Hc. rewrite Hc.
  rewrite <- append_cons, Hspan. reflexivity.
Qed.

Lemma identifier_token_witness :
  (isIdentifier "hero.health" = true /\ noIdentAhead " = 3;" = true)
  /\ next (mkLexer "hero.health = 3;" 4)
     = (mkToken TK_IDENT "hero.health" 0 4, mkLexer " = 3;" 4)
  /\ next (mkLexer "load(x)" 1) = (mkToken TK_LOAD "load" 0 1, mkLexer "(x)" 1).
Proof.
  split; [split; reflexivity |]. split.
  - exact (identifier_token "hero.health" " = 3;" 4 eq_refl eq_refl).
  - exact (identifier_token "load" "(x)" 1 eq_refl eq_refl).
Defined.
